(** * scrypt-promise-bench: the concurrent batch runner, verified

    A shallow embedding of [scrypt-bench.mjs] (both revisions kept in the
    repository) and the properties of its core: the seeded generator
    [mulberry32], the input generator [mkInput], the deadline guard
    [withTimeout], the nearest-rank [percentile] and the worker pool of
    [runBatch].

    JavaScript numbers are IEEE binary64: they are modelled by Rocq's
    primitive floats wherever rounding can be observed (the generator's
    counter, the percentile rank, latency samples); integer-valued
    quantities that stay far below 2^53 (counters, indices, 32-bit
    words) are [nat] or [Z] with the 32-bit wrap-around written out. *)

From Stdlib Require Import ZArith NArith Arith Bool List Lia.
From Stdlib Require Import Ascii String Strings.Byte DecimalString.
From Stdlib Require Import QArith Qround.
From Stdlib Require Import Floats.
From Stdlib Require Import Permutation.
Import ListNotations.

Close Scope Q_scope.
Set Implicit Arguments.

(* ================================================================== *)
(** ** JavaScript primitives used by the program *)
(* ================================================================== *)

Module JS.

Local Open Scope Z_scope.

(** The integer part of a finite double (truncation toward zero), the
    first step of the [ToInt32]/[ToUint32] conversions; NaN and the
    infinities convert to [+0]. *)
Definition truncate (x : float) : Z :=
  match Prim2SF x with
  | S754_finite s m e =>
      let a := if 0 <=? e then Z.shiftl (Zpos m) e
               else Z.shiftr (Zpos m) (- e) in
      if s then - a else a
  | _ => 0
  end.

(** [ToUint32] and [ToInt32] on an integer: reduction modulo 2^32. *)
Definition ToUint32 (z : Z) : Z := z mod 2 ^ 32.

Definition ToInt32 (z : Z) : Z := (z + 2 ^ 31) mod 2 ^ 32 - 2 ^ 31.

(** [Math.imul(a, b)]: 32-bit signed product. *)
Definition imul (a b : Z) : Z := ToInt32 (ToInt32 a * ToInt32 b).

(** [a ^ b], [a | b] on numbers: both operands through [ToInt32], the
    result is a signed 32-bit integer. *)
Definition bxor (a b : Z) : Z := ToInt32 (Z.lxor (ToInt32 a) (ToInt32 b)).

Definition bor (a b : Z) : Z := ToInt32 (Z.lor (ToInt32 a) (ToInt32 b)).

(** [a >>> k]: the left operand through [ToUint32], shift count modulo
    32, unsigned result. *)
Definition ushr (a k : Z) : Z := Z.shiftr (ToUint32 a) (k mod 32).

(** An integer below 2^63 as a double ([of_uint63] rounds to nearest
    even, and is exact below 2^53). *)
Definition number_of_Z (z : Z) : float := of_uint63 (Uint63.of_Z z).

(** Template-literal rendering [`${i}`] of a non-negative integer. *)
Definition decimal (n : nat) : string :=
  NilEmpty.string_of_uint (Nat.to_uint n).

(** The same for a timer delay. *)
Definition decimalN (n : N) : string :=
  NilEmpty.string_of_uint (N.to_uint n).

(** The Number value of a non-negative integer [n]: [n] itself below
    2^53; beyond that the nearest integer with 53 significant bits,
    a tie going to the even one; [None] is [Infinity]. *)
Definition Number_of_N (n : N) : option N :=
  (if n <? 2 ^ 53 then Some n
   else
     let sh := N.log2 n - 52 in
     let q := N.shiftr n sh in
     let r := n - N.shiftl q sh in
     let half := N.shiftl 1 (sh - 1) in
     let q' :=
       if (half <? r) || ((r =? half) && N.odd q) then q + 1 else q in
     let m := N.shiftl q' sh in
     if m <? 2 ^ 1024 then Some m else None)%N.

(** The integer [x] has the Number value [m]. *)
Definition same_Number (x m : N) : bool :=
  match Number_of_N x with
  | Some y => N.eqb y m
  | None => false
  end.

(** The digits that [Number::toString] prints for the Number value [m]
    of [d] decimal digits: the least [k], from [k] on, for which some
    [s] of [k] digits has [s * 10^(d - k)] of Number value [m]; of two
    such [s] the one closer to [m], the even one when they are as
    close.  The result is [s] with the exponent [d - k]. *)
Fixpoint shortest (fuel k d : nat) (m : N) : N * nat :=
  match fuel with
  | O => (m, O)
  | S fuel' =>
      if Nat.leb d k then (m, O)
      else
        let e := Nat.sub d k in
        let p := (10 ^ N.of_nat e)%N in
        let lo := (m / p)%N in
        let hi := (lo + 1)%N in
        let ok_lo := same_Number (lo * p) m in
        let ok_hi := same_Number (hi * p) m in
        if ok_lo && ok_hi then
          if (m - lo * p <? hi * p - m)%N then (lo, e)
          else if (hi * p - m <? m - lo * p)%N then (hi, e)
          else if N.even lo then (lo, e) else (hi, e)
        else if ok_lo then (lo, e)
        else if ok_hi then (hi, e)
        else shortest fuel' (S k) d m
  end.

(** Zeros at the end of [s] go to the exponent. *)
Fixpoint normal (fuel : nat) (s : N) (e : nat) : N * nat :=
  match fuel with
  | O => (s, e)
  | S fuel' =>
      if ((0 <? s) && (s mod 10 =? 0))%N then normal fuel' (s / 10)%N (S e)
      else (s, e)
  end.

Fixpoint zeros (n : nat) : string :=
  match n with
  | O => EmptyString
  | S n' => String "0" (zeros n')
  end.

(** Template-literal rendering [`${ms}`] of the Number value of a
    non-negative integer ([Number::toString], radix 10): all the digits
    of an integer below 2^53; from there on the shortest digits that
    still denote the value, followed by zeros below 10^21 and in
    exponent form from 10^21 on. *)
Definition Number_toString (n : N) : string :=
  match Number_of_N n with
  | None => "Infinity"
  | Some m =>
      if (m <? 2 ^ 53)%N then decimalN m
      else
        let d := String.length (decimalN m) in
        let (s0, e0) := shortest 17 1 d m in
        let (s, e) := normal d s0 e0 in
        let ds := decimalN s in
        let point := Nat.add (String.length ds) e in
        if Nat.leb point 21 then (ds ++ zeros e)%string
        else
          match ds with
          | EmptyString => EmptyString
          | String c EmptyString =>
              (String c "e+" ++ decimal (Nat.pred point))%string
          | String c rest =>
              (String c (String "." rest) ++ "e+"
               ++ decimal (Nat.pred point))%string
          end
  end.

(** Buffers are byte lists. *)
Definition Buffer := list byte.

(** [Buffer.from(s)] for a string of one-byte characters. *)
Definition Buffer_from (s : string) : Buffer := list_byte_of_string s.

(** [u.equals(v)]. *)
Fixpoint Buffer_equals (u v : Buffer) : bool :=
  match u, v with
  | [], [] => true
  | x :: u', y :: v' => Byte.eqb x y && Buffer_equals u' v'
  | _, _ => false
  end.

Definition hex_digit (n : N) : ascii :=
  match n with
  | 0%N => "0" | 1%N => "1" | 2%N => "2" | 3%N => "3"
  | 4%N => "4" | 5%N => "5" | 6%N => "6" | 7%N => "7"
  | 8%N => "8" | 9%N => "9" | 10%N => "a" | 11%N => "b"
  | 12%N => "c" | 13%N => "d" | 14%N => "e" | _ => "f"
  end%char.

(** [buf.toString("hex")]: two lower-case digits per byte. *)
Fixpoint Buffer_toString_hex (b : Buffer) : string :=
  match b with
  | [] => EmptyString
  | x :: b' =>
      String (hex_digit (N.div (Byte.to_N x) 16))
        (String (hex_digit (N.modulo (Byte.to_N x) 16))
           (Buffer_toString_hex b'))
  end.

(** [s.slice(0, n)]. *)
Definition slice0 (n : nat) (s : string) : string := String.substring 0 n s.

(** [arr.pop()]: removes and returns the last element. *)
Definition Array_pop {A} (a : list A) : option (A * list A) :=
  match rev a with
  | [] => None
  | x :: r => Some (x, rev r)
  end.

(** [range(n)] = [Array.from({length: n}, (_, i) => i)]. *)
Definition range (n : nat) : list nat := seq 0 n.

End JS.

(* ================================================================== *)
(** ** Deterministic PRNG: [mulberry32] *)
(* ================================================================== *)

Module Prng.

Import JS.
Local Open Scope Z_scope.

(** The closure variable [t].  It is initialised to [seed >>> 0] and
    then only ever incremented by [t += 0x6d2b79f5], an addition of
    doubles that is never reduced modulo 2^32: [t] is a [float]. *)
Definition mulberry32 (seed : float) : float :=
  number_of_Z (ushr (truncate seed) 0).

(** The 32-bit word computed by one call of the returned function,
    from the already incremented [t]. *)
Definition mix (t : Z) : Z :=
  let n := imul (bxor t (ushr t 15)) (bor 1 t) in
  let n := bxor n (n + imul (bxor n (ushr n 7)) (bor 61 n)) in
  ushr (bxor n (ushr n 14)) 0.

(** One call of the generator: the new [t] and the numerator [u] of
    the returned number [u / 4294967296].  [u] is below 2^32, so the
    division by a power of two is exact in binary64 and the returned
    double is the rational [u / 2^32]. *)
Definition next_word (t : float) : Z * float :=
  let t' := (t + 1831565813)%float in
  (mix (truncate t'), t').

Definition next (t : float) : Q * float :=
  let (u, t') := next_word t in (Qmake u (Pos.pow 2 32), t').

(** The first [n] numbers returned by a generator whose counter is [t]. *)
Fixpoint take (n : nat) (t : float) : list Q :=
  match n with
  | O => []
  | S n' => let (x, t') := next t in x :: take n' t'
  end.

(** A heap of generator closures: every call of [mulberry32] allocates
    a fresh cell for its own [t]; the returned function is identified
    with the address of that cell. *)
Definition heap := list float.

Definition alloc (seed : float) (h : heap) : nat * heap :=
  (List.length h, h ++ [mulberry32 seed]).

Fixpoint update (h : heap) (g : nat) (t : float) : heap :=
  match h, g with
  | [], _ => []
  | _ :: h', O => t :: h'
  | x :: h', S g' => x :: update h' g' t
  end.

(** Calling generator [g] in heap [h]. *)
Definition call (g : nat) (h : heap) : option (Q * heap) :=
  match nth_error h g with
  | None => None
  | Some t => let (x, t') := next t in Some (x, update h g t')
  end.

(** A program that calls generators in the order given by [gs]; the
    outputs are returned with the generator that produced them. *)
Fixpoint calls (gs : list nat) (h : heap) : list (nat * Q) :=
  match gs with
  | [] => []
  | g :: gs' =>
      match call g h with
      | None => calls gs' h
      | Some (x, h') => (g, x) :: calls gs' h'
      end
  end.

(** The outputs of generator [g] within an interleaved run. *)
Definition outputs_of (g : nat) (out : list (nat * Q)) : list Q :=
  map snd (filter (fun p => Nat.eqb (fst p) g) out).

End Prng.

(* ================================================================== *)
(** ** Promises, errors and the deadline guard [withTimeout] *)
(* ================================================================== *)

(** The part of a thrown value the program reads: [e?.message] and
    [e?.code], each possibly [undefined]. *)
Record js_error := mkError {
  message : option string;
  code : option string
}.

(** How a promise settles. *)
Inductive settled (A : Type) : Type :=
| Fulfilled (v : A)
| Rejected (e : js_error).

Arguments Fulfilled {A} v.
Arguments Rejected {A} e.

(** A promise is represented by its eventual state: [None] is a promise
    that stays pending forever, so that an [await] on it never resumes. *)
Definition promise (A : Type) : Type := option (settled A).

Module Timeout.

Import JS.

(** [new Error(`timeout after ${ms}ms: ${label}`)]. *)
Definition timeout_error (ms : N) (label : string) : js_error :=
  mkError
    (Some ("timeout after " ++ Number_toString ms ++ "ms: " ++ label)%string)
    None.

(** [setTimeout(cb, ms)] of Node.js, for a non-negative integer [ms]:
    the number of milliseconds the timer is set to.  A delay that is
    not between 1 and [TIMEOUT_MAX = 2^31 - 1] is replaced by 1. *)
Definition TIMEOUT_MAX : N := 2147483647.

Definition setTimeout (ms : N) : N :=
  if ((1 <=? ms) && (ms <=? TIMEOUT_MAX))%N then ms else 1%N.

(** The wrapped promise as the race meets it: its settlement is
    delivered before the timer fires, after the timer has fired, or
    never.  The order is the event loop's; [against] below derives it
    from the clock and from the delay that [setTimeout] gives the
    timer. *)
Inductive operation (A : Type) : Type :=
| SettlesFirst (r : settled A)
| SettlesLate (r : settled A)
| NeverSettles.

Arguments SettlesFirst {A} r.
Arguments SettlesLate {A} r.
Arguments NeverSettles {A}.

(** What the event loop delivers to one [withTimeout] call. *)
Inductive event (A : Type) : Type :=
| OpSettles (r : settled A)
| DeadlineElapses.

Arguments OpSettles {A} r.
Arguments DeadlineElapses {A}.

Inductive timer_state : Type := Armed | Fired | Cleared.

(** The state created by one call: the promise returned by
    [Promise.race([promise, timeout]).finally(...)], the timer created
    by [setTimeout], and how often the [finally] callback has run
    [clearTimeout(timer)]. *)
Record guard (A : Type) : Type := mkGuard {
  race : promise A;
  timer : timer_state;
  clears : nat
}.

Arguments mkGuard {A} race timer clears.

Definition start {A} : guard A := mkGuard None Armed 0.

(** [clearTimeout] cancels a timer that has not fired and does nothing
    to one that has. *)
Definition clearTimeout (t : timer_state) : timer_state :=
  match t with
  | Armed => Cleared
  | Fired => Fired
  | Cleared => Cleared
  end.

(** The race settles with the first settlement it sees; the [finally]
    callback then runs, in a microtask, before any timer can fire. *)
Definition settle {A} (r : settled A) (g : guard A) : guard A :=
  match race g with
  | Some _ => g
  | None => mkGuard (Some r) (clearTimeout (timer g)) (S (clears g))
  end.

Definition step {A} (ms : N) (label : string)
    (g : guard A) (ev : event A) : guard A :=
  match ev with
  | OpSettles r => settle r g
  | DeadlineElapses =>
      match timer g with
      | Armed =>
          settle (Rejected (timeout_error ms label))
                 (mkGuard (race g) Fired (clears g))
      | Fired | Cleared => g
      end
  end.

Definition run {A} (ms : N) (label : string)
    (evs : list (event A)) : guard A :=
  fold_left (step ms label) evs start.

(** The events of an operation, in the order in which they happen.  A
    timer that is still armed eventually fires. *)
Definition timeline {A} (op : operation A) : list (event A) :=
  match op with
  | SettlesFirst r => [OpSettles r; DeadlineElapses]
  | SettlesLate r => [DeadlineElapses; OpSettles r]
  | NeverSettles => [DeadlineElapses]
  end.

Definition withTimeout {A} (op : operation A) (ms : N) (label : string)
    : promise A :=
  race (run ms label (timeline op)).

(** The wrapped promise on the clock of the event loop: it settles
    [after] milliseconds from the call of [withTimeout], or it stays
    pending. *)
Inductive clocked (A : Type) : Type :=
| SettlesAt (after : N) (r : settled A)
| StaysPending.

Arguments SettlesAt {A} after r.
Arguments StaysPending {A}.

(** The event loop's share: a timer fires [lag] milliseconds after the
    delay it was set to, never before it; when the settlement and the
    firing fall on the same millisecond, [settlement_first] tells
    which of them is delivered first. *)
Record event_loop : Type := mkLoop {
  lag : N;
  settlement_first : bool
}.

Definition punctual : event_loop := mkLoop 0 true.

(** How the race of [withTimeout(promise, ms, label)] meets a promise
    that settles by the clock: the timer is the one that
    [setTimeout(..., ms)] sets. *)
Definition against {A} (ms : N) (el : event_loop) (c : clocked A)
    : operation A :=
  match c with
  | SettlesAt after r =>
      let fires := (setTimeout ms + lag el)%N in
      if (after <? fires)%N then SettlesFirst r
      else if (fires <? after)%N then SettlesLate r
      else if settlement_first el then SettlesFirst r
      else SettlesLate r
  | StaysPending => NeverSettles
  end.

End Timeout.

(* ================================================================== *)
(** ** Metrics: sorting and the nearest-rank percentile *)
(* ================================================================== *)

Module Metrics.

Import JS.
Local Open Scope Z_scope.

(** An integer-valued double or one of the non-finite values, as
    returned by [Math.ceil]. *)
Inductive rank : Type :=
| NaNRank
| NegInf
| Fin (z : Z)
| PosInf.

(** [Math.ceil(x)]. *)
Definition Math_ceil (x : float) : rank :=
  match Prim2SF x with
  | S754_nan => NaNRank
  | S754_infinity s => if s then NegInf else PosInf
  | S754_zero _ => Fin 0
  | S754_finite s m e =>
      let v := if s then Zneg m else Zpos m in
      Fin (if 0 <=? e then Z.shiftl v e else - Z.shiftr (- v) (- e))
  end.

(** [r - 1]. *)
Definition pred (r : rank) : rank :=
  match r with
  | Fin z => Fin (z - 1)
  | _ => r
  end.

(** [Math.max(lo, r)] and [Math.min(hi, r)] for an integer first
    argument; NaN is contagious. *)
Definition Math_max (lo : Z) (r : rank) : rank :=
  match r with
  | NaNRank => NaNRank
  | NegInf => Fin lo
  | Fin z => Fin (Z.max lo z)
  | PosInf => PosInf
  end.

Definition Math_min (hi : Z) (r : rank) : rank :=
  match r with
  | NaNRank => NaNRank
  | NegInf => NegInf
  | Fin z => Fin (Z.min hi z)
  | PosInf => Fin hi
  end.

(** A JavaScript value as returned by [percentile]. *)
Inductive value : Type :=
| Num (x : float)
| Undefined.

(** [sorted[idx]]. *)
Definition index (sorted : list float) (idx : rank) : value :=
  match idx with
  | Fin z =>
      if z <? 0 then Undefined
      else match nth_error sorted (Z.to_nat z) with
           | Some x => Num x
           | None => Undefined
           end
  | _ => Undefined
  end.

Definition percentile (sorted : list float) (p : float) : value :=
  if Nat.eqb (List.length sorted) 0 then Num nan
  else
    let len := Z.of_nat (List.length sorted) in
    let idx :=
      Math_min (len - 1)
        (Math_max 0 (pred (Math_ceil ((p / 100) * number_of_Z len)%float)))
    in
    index sorted idx.

(** [arr.sort((a, b) => a - b)]: the sort is stable, an element moves
    past another only when the comparator is positive. *)
Fixpoint insert (x : float) (l : list float) : list float :=
  match l with
  | [] => [x]
  | y :: l' => if (0 <? x - y)%float then y :: insert x l' else x :: l
  end.

Definition sort (l : list float) : list float := fold_right insert [] l.

End Metrics.

(* ================================================================== *)
(** ** What both revisions of the runner share *)
(* ================================================================== *)

Module Common.

Import JS.

(** The three wrapping styles, keys of the [variants] object. *)
Inductive variant : Type := callback | utilPromisify | manualPromise.

Definition variant_name (v : variant) : string :=
  match v with
  | callback => "callback"
  | utilPromisify => "utilPromisify"
  | manualPromise => "manualPromise"
  end.

(** The cost options [{N, r, p, maxmem}], passed through unchanged. *)
Record scrypt_opts : Type := mkOpts {
  opt_N : N; opt_r : N; opt_p : N; opt_maxmem : N
}.

(** The argument of [runBatch]. *)
Record params : Type := mkParams {
  variant_of : variant;
  concurrency : nat;
  iterations : nat;
  keyLen : nat;
  opts : scrypt_opts
}.

(** What one invocation of [crypto.scrypt] does: it calls its callback
    with [(err, dk)], before or after the guard's deadline, or never. *)
Inductive behaviour : Type :=
| CallsBack (err : option js_error) (dk : Buffer) (late : bool)
| NeverCallsBack.

(** [crypto.scrypt] as the program sees it.  The first argument counts
    the invocations of the batch, so that the behaviour may depend on
    the history as well as on the arguments. *)
Definition primitive : Type :=
  nat -> Buffer -> Buffer -> nat -> scrypt_opts -> behaviour.

(** [(err, dk) => err ? reject(err) : resolve(dk)] *)
Definition adapt (b : behaviour) : Timeout.operation Buffer :=
  match b with
  | CallsBack err dk late =>
      let r := match err with
               | Some e => Rejected e
               | None => Fulfilled dk
               end in
      if late then Timeout.SettlesLate r else Timeout.SettlesFirst r
  | NeverCallsBack => Timeout.NeverSettles
  end.

(** [variants[variant](pwd, salt, keyLen, opts)]: the three entries
    hand the same arguments to the same primitive. *)
Definition variants (v : variant) (scrypt : primitive) (n : nat)
    (pwd salt : Buffer) (keyLen : nat) (opts : scrypt_opts)
    : Timeout.operation Buffer :=
  match v with
  | callback => adapt (scrypt n pwd salt keyLen opts)
  | utilPromisify => adapt (scrypt n pwd salt keyLen opts)
  | manualPromise => adapt (scrypt n pwd salt keyLen opts)
  end.

(** An entry of [errors]. *)
Inductive error_record : Type :=
| Mismatch (i : nat) (a b : string)
| Error (i : nat) (msg code : option string).

Definition byte_of_Z (z : Z) : byte :=
  match Byte.of_N (Z.to_N (z mod 256)) with
  | Some b => b
  | None => x00
  end.

(** [randBuf(len)]: [b[i] = Math.floor(rand() * 256)] for [i] from 0,
    drawing from the module-level generator whose counter is [t]. *)
Fixpoint randBuf (len : nat) (t : float) : Buffer * float :=
  match len with
  | O => ([], t)
  | S len' =>
      let (x, t1) := Prng.next t in
      let (b, t2) := randBuf len' t1 in
      (byte_of_Z (Qfloor (x * 256)%Q) :: b, t2)
  end.

(** [mkInput(i)]: the pair [{pwd, salt}] and the generator's counter
    afterwards. *)
Definition mkInput (mode : string) (i : nat) (t : float)
    : Buffer * Buffer * float :=
  if String.eqb mode "random" then
    let (pwd, t1) := randBuf (16 + i mod 16) t in
    let (salt, t2) := randBuf (16 + (i * 7) mod 16) t1 in
    (pwd, salt, t2)
  else
    (Buffer_from ("pwd-" ++ decimal i)%string,
     Buffer_from ("salt-" ++ decimal i)%string, t).

(** [Math.max(1, Math.floor(iterations / 10))] *)
Definition logEvery (iterations : nat) : nat := Nat.max 1 (iterations / 10).

(** [`[${variant}] w${w} progress i=${i}`] *)
Definition progress_line (v : variant) (w i : nat) : string :=
  ("[" ++ variant_name v ++ "] w" ++ decimal w ++ " progress i=" ++ decimal i)
  %string.

(** What happened during a batch, oldest first.  The history is not a
    variable of the program: it records the program's own steps so that
    properties of a whole run can be stated. *)
Inductive hevent : Type :=
| Claimed (w i : nat)
| Invoked (k i : nat) (pwd salt : Buffer)
| Sampled (k : nat) (ms : float)
| Counted (i : nat) (success : bool).

(** Replace the [n]-th element. *)
Fixpoint set_nth {A} (n : nat) (x : A) (l : list A) : list A :=
  match l, n with
  | [], _ => []
  | _ :: l', O => x :: l'
  | y :: l', S n' => y :: set_nth n' x l'
  end.

End Common.

(* ================================================================== *)
(** ** The runner with latency metrics (the later revision) *)
(* ================================================================== *)

Module Bench.

Import JS Common.

(** The variables that the workers of one [runBatch] call share, with
    the module-level generator and the console. *)
Record store : Type := mkStore {
  queue : list nat;
  ok : nat;
  fail : nat;
  errors : list error_record;
  callDurations : list float;
  rand : float;
  console : list string;
  invocations : nat;
  history : list hevent
}.

Definition set_queue (q : list nat) (s : store) : store :=
  mkStore q (ok s) (fail s) (errors s) (callDurations s) (rand s)
          (console s) (invocations s) (history s).

Definition incr_ok (s : store) : store :=
  mkStore (queue s) (S (ok s)) (fail s) (errors s) (callDurations s) (rand s)
          (console s) (invocations s) (history s).

Definition incr_fail (s : store) : store :=
  mkStore (queue s) (ok s) (S (fail s)) (errors s) (callDurations s) (rand s)
          (console s) (invocations s) (history s).

Definition push_error (e : error_record) (s : store) : store :=
  mkStore (queue s) (ok s) (fail s) (errors s ++ [e]) (callDurations s)
          (rand s) (console s) (invocations s) (history s).

Definition push_duration (ms : float) (s : store) : store :=
  mkStore (queue s) (ok s) (fail s) (errors s) (callDurations s ++ [ms])
          (rand s) (console s) (invocations s) (history s).

Definition set_rand (t : float) (s : store) : store :=
  mkStore (queue s) (ok s) (fail s) (errors s) (callDurations s) t
          (console s) (invocations s) (history s).

Definition log (line : string) (s : store) : store :=
  mkStore (queue s) (ok s) (fail s) (errors s) (callDurations s) (rand s)
          (console s ++ [line]) (invocations s) (history s).

Definition incr_invocations (s : store) : store :=
  mkStore (queue s) (ok s) (fail s) (errors s) (callDurations s) (rand s)
          (console s) (S (invocations s)) (history s).

Definition record (ev : hevent) (s : store) : store :=
  mkStore (queue s) (ok s) (fail s) (errors s) (callDurations s) (rand s)
          (console s) (invocations s) (history s ++ [ev]).

(** The value [{dk, ms}] of a [runOnce] promise. *)
Definition timed : Type := (Buffer * float)%type.

(** Where a worker is suspended: at [const a = await runOnce(i)], at
    [const b = await runOnce(i)], or not at all because its loop has
    ended.  [k] numbers the awaited invocation. *)
Inductive worker : Type :=
| AwaitFirst (i k : nat) (pr : promise timed)
| AwaitSecond (i : nat) (a : timed) (k : nat) (pr : promise timed)
| Returned.

Section Batch.

(** Module-level constants and the environment. *)
Variable mode : string.
Variable progress : bool.
Variable scrypt : primitive.
(** [t1 - t0] as [runOnce] measures it around invocation [k]. *)
Variable elapsed : nat -> float.

Variable cfg : params.

(** [runOnce(i)] up to its [await]: the inputs are made, the variant is
    invoked under the guard; the promise of [runOnce] settles as the
    guard does, with the measured time added. *)
Definition runOnce (i : nat) (s : store) : nat * promise timed * store :=
  let '(pwd, salt, t) := mkInput mode i (rand s) in
  let k := invocations s in
  let op :=
    variants (variant_of cfg) scrypt k pwd salt (keyLen cfg) (opts cfg) in
  let label := (variant_name (variant_of cfg) ++ " i=" ++ decimal i)%string in
  let pr :=
    match Timeout.withTimeout op 60000%N label with
    | Some (Fulfilled dk) => Some (Fulfilled (dk, elapsed k))
    | Some (Rejected e) => Some (Rejected e)
    | None => None
    end in
  (k, pr, record (Invoked k i pwd salt) (incr_invocations (set_rand t s))).

(** From the loop test [while (queue.length)] to the first [await] of
    the body, for worker [w]. *)
Definition loop (w : nat) (s : store) : worker * store :=
  match Array_pop (queue s) with
  | None => (Returned, s)
  | Some (i, q) =>
      let s1 := record (Claimed w i) (set_queue q s) in
      let s2 :=
        if progress && Nat.eqb (i mod logEvery (iterations cfg)) 0
        then log (progress_line (variant_of cfg) w i) s1 else s1 in
      let '(k, pr, s3) := runOnce i s2 in
      (AwaitFirst i k pr, s3)
  end.

(** The [catch (e)] block. *)
Definition catch (i : nat) (e : js_error) (s : store) : store :=
  record (Counted i false)
         (push_error (Error i (message e) (code e)) (incr_fail s)).

(** The mismatch branch. *)
Definition mismatch (i : nat) (a b : timed) (s : store) : store :=
  record (Counted i false)
    (push_error
       (Mismatch i (slice0 16 (Buffer_toString_hex (fst a)))
                   (slice0 16 (Buffer_toString_hex (fst b))))
       (incr_fail s)).

Definition success (i : nat) (s : store) : store :=
  record (Counted i true) (incr_ok s).

Definition sample (k : nat) (ms : float) (s : store) : store :=
  record (Sampled k ms) (push_duration ms s).

(** Worker [w] runs from the [await] at which it is suspended to its
    next [await] or to the end of its loop.  A worker whose promise
    never settles is never resumed. *)
Definition resume (w : nat) (wk : worker) (s : store) : worker * store :=
  match wk with
  | AwaitFirst i k (Some (Fulfilled a)) =>
      let s1 := sample k (snd a) s in
      if String.eqb mode "sequential" then
        let '(k2, pr, s2) := runOnce i s1 in
        (AwaitSecond i a k2 pr, s2)
      else loop w (success i s1)
  | AwaitFirst i k (Some (Rejected e)) => loop w (catch i e s)
  | AwaitSecond i a k (Some (Fulfilled b)) =>
      let s1 := sample k (snd b) s in
      if negb (Buffer_equals (fst a) (fst b))
      then loop w (mismatch i a b s1)
      else loop w (success i s1)
  | AwaitSecond i a k (Some (Rejected e)) => loop w (catch i e s)
  | AwaitFirst _ _ None => (wk, s)
  | AwaitSecond _ _ _ None => (wk, s)
  | Returned => (Returned, s)
  end.

(** [range(concurrency).map(async (_, w) => ...)]: each worker in turn
    runs up to its first [await]. *)
Fixpoint spawn (ws : list nat) (s : store) : list worker * store :=
  match ws with
  | [] => ([], s)
  | w :: ws' =>
      let (wk, s1) := loop w s in
      let (wks, s2) := spawn ws' s1 in
      (wk :: wks, s2)
  end.

(** A suspended worker can be resumed once its promise has settled. *)
Definition settled_await (wk : worker) : bool :=
  match wk with
  | AwaitFirst _ _ (Some _) => true
  | AwaitSecond _ _ _ (Some _) => true
  | _ => false
  end.

Definition resumable (pool : list worker) : list nat :=
  filter (fun w => settled_await (nth w pool Returned))
         (seq 0 (List.length pool)).

(** The event loop resumes worker [w]. *)
Definition step (w : nat) (st : list worker * store) : list worker * store :=
  let (wk, s) := resume w (nth w (fst st) Returned) (snd st) in
  (set_nth w wk (fst st), s).

(** The order in which settled promises resume their workers is not
    fixed by the program: [sched n] selects, at the [n]-th resumption,
    one of the workers that can be resumed. *)
Variable sched : nat -> nat.

Fixpoint run (fuel n : nat) (st : list worker * store)
    : list worker * store :=
  match fuel with
  | O => st
  | S fuel' =>
      match resumable (fst st) with
      | [] => st
      | w0 :: ws =>
          let w := nth (sched n mod List.length (w0 :: ws)) (w0 :: ws) w0 in
          run fuel' (S n) (step w st)
      end
  end.

(** The state at the start of [runBatch]; [t] is the counter of the
    module-level generator when the batch begins. *)
Definition init (t : float) : store :=
  mkStore (range (iterations cfg)) 0 0 [] [] t [] 0 [].

(** The workers and the store when no worker can be resumed any more:
    every index costs at most two resumptions. *)
Definition drain (t : float) : list worker * store :=
  run (2 * iterations cfg) 0 (spawn (range (concurrency cfg)) (init t)).

(** [await Promise.all(workers)] resolves when every worker has
    returned. *)
Definition joined (pool : list worker) : bool :=
  forallb (fun wk => match wk with Returned => true | _ => false end) pool.

Record BatchResult : Type := mkResult {
  res_variant : variant;
  res_concurrency : nat;
  res_iterations : nat;
  res_ok : nat;
  res_fail : nat;
  res_totalMs : float;
  res_iterThroughput : float;
  res_callThroughput : float;
  res_p50 : Metrics.value;
  res_p90 : Metrics.value;
  res_p99 : Metrics.value;
  res_errors : list error_record
}.

(** The code after the join, from the final store and the two clock
    readings [tStart] and [tEnd]. *)
Definition metrics (tStart tEnd : float) (s : store) : BatchResult :=
  let totalMs := (tEnd - tStart)%float in
  let callsPerIter := if String.eqb mode "sequential" then 2 else 1 in
  let totalCalls := ok s * callsPerIter + fail s * callsPerIter in
  let iterThroughput :=
    (number_of_Z (Z.of_nat (ok s)) / (totalMs / 1000))%float in
  let callThroughput :=
    (number_of_Z (Z.of_nat totalCalls) / (totalMs / 1000))%float in
  let sorted := Metrics.sort (callDurations s) in
  mkResult (variant_of cfg) (concurrency cfg) (iterations cfg)
           (ok s) (fail s) totalMs iterThroughput callThroughput
           (Metrics.percentile sorted 50) (Metrics.percentile sorted 90)
           (Metrics.percentile sorted 99) (errors s).

(** [runBatch]: [None] when the join never completes. *)
Definition runBatch (t tStart tEnd : float) : option BatchResult :=
  let (pool, s) := drain t in
  if joined pool then Some (metrics tStart tEnd s) else None.

End Batch.

End Bench.

(* ================================================================== *)
(** ** The runner without latency metrics (the earlier revision) *)
(* ================================================================== *)

Module BenchV1.

Import JS Common.

Record store : Type := mkStore {
  queue : list nat;
  ok : nat;
  fail : nat;
  errors : list error_record;
  rand : float;
  console : list string;
  invocations : nat
}.

Definition set_queue (q : list nat) (s : store) : store :=
  mkStore q (ok s) (fail s) (errors s) (rand s) (console s) (invocations s).

Definition incr_ok (s : store) : store :=
  mkStore (queue s) (S (ok s)) (fail s) (errors s) (rand s) (console s)
          (invocations s).

Definition incr_fail (s : store) : store :=
  mkStore (queue s) (ok s) (S (fail s)) (errors s) (rand s) (console s)
          (invocations s).

Definition push_error (e : error_record) (s : store) : store :=
  mkStore (queue s) (ok s) (fail s) (errors s ++ [e]) (rand s) (console s)
          (invocations s).

Definition set_rand (t : float) (s : store) : store :=
  mkStore (queue s) (ok s) (fail s) (errors s) t (console s) (invocations s).

Definition log (line : string) (s : store) : store :=
  mkStore (queue s) (ok s) (fail s) (errors s) (rand s) (console s ++ [line])
          (invocations s).

Definition incr_invocations (s : store) : store :=
  mkStore (queue s) (ok s) (fail s) (errors s) (rand s) (console s)
          (S (invocations s)).

(** Where a worker is suspended: at
    [const dk1 = await withTimeout(runOnce(i), ...)], at
    [const dk2 = await withTimeout(runOnce(i), ...)], or not at all. *)
Inductive worker : Type :=
| AwaitFirst (i k : nat) (pr : promise Buffer)
| AwaitSecond (i : nat) (dk1 : Buffer) (k : nat) (pr : promise Buffer)
| Returned.

Section Batch.

Variable mode : string.
Variable progress : bool.
Variable scrypt : primitive.
Variable cfg : params.

(** [runOnce(i)]: the inputs are made and the variant is invoked; the
    variant's promise is returned as it is. *)
Definition runOnce (i : nat) (s : store)
    : nat * Timeout.operation Buffer * store :=
  let '(pwd, salt, t) := mkInput mode i (rand s) in
  let k := invocations s in
  (k, variants (variant_of cfg) scrypt k pwd salt (keyLen cfg) (opts cfg),
   incr_invocations (set_rand t s)).

(** [`${variant} i=${i} #1`] and [`${variant} i=${i} #2`] *)
Definition label (i : nat) (tag : string) : string :=
  (variant_name (variant_of cfg) ++ " i=" ++ decimal i ++ " " ++ tag)%string.

Definition loop (w : nat) (s : store) : worker * store :=
  match Array_pop (queue s) with
  | None => (Returned, s)
  | Some (i, q) =>
      let s1 := set_queue q s in
      let s2 :=
        if progress && Nat.eqb (i mod logEvery (iterations cfg)) 0
        then log (progress_line (variant_of cfg) w i) s1 else s1 in
      let '(k, op, s3) := runOnce i s2 in
      (AwaitFirst i k (Timeout.withTimeout op 60000%N (label i "#1")), s3)
  end.

Definition catch (i : nat) (e : js_error) (s : store) : store :=
  push_error (Error i (message e) (code e)) (incr_fail s).

Definition mismatch (i : nat) (dk1 dk2 : Buffer) (s : store) : store :=
  push_error
    (Mismatch i (slice0 16 (Buffer_toString_hex dk1))
                (slice0 16 (Buffer_toString_hex dk2)))
    (incr_fail s).

Definition resume (w : nat) (wk : worker) (s : store) : worker * store :=
  match wk with
  | AwaitFirst i k (Some (Fulfilled dk1)) =>
      if String.eqb mode "sequential" then
        let '(k2, op, s1) := runOnce i s in
        (AwaitSecond i dk1 k2
           (Timeout.withTimeout op 60000%N (label i "#2")), s1)
      else loop w (incr_ok s)
  | AwaitFirst i k (Some (Rejected e)) => loop w (catch i e s)
  | AwaitSecond i dk1 k (Some (Fulfilled dk2)) =>
      if negb (Buffer_equals dk1 dk2)
      then loop w (mismatch i dk1 dk2 s)
      else loop w (incr_ok s)
  | AwaitSecond i dk1 k (Some (Rejected e)) => loop w (catch i e s)
  | AwaitFirst _ _ None => (wk, s)
  | AwaitSecond _ _ _ None => (wk, s)
  | Returned => (Returned, s)
  end.

Fixpoint spawn (ws : list nat) (s : store) : list worker * store :=
  match ws with
  | [] => ([], s)
  | w :: ws' =>
      let (wk, s1) := loop w s in
      let (wks, s2) := spawn ws' s1 in
      (wk :: wks, s2)
  end.

Definition settled_await (wk : worker) : bool :=
  match wk with
  | AwaitFirst _ _ (Some _) => true
  | AwaitSecond _ _ _ (Some _) => true
  | _ => false
  end.

Definition resumable (pool : list worker) : list nat :=
  filter (fun w => settled_await (nth w pool Returned))
         (seq 0 (List.length pool)).

Definition step (w : nat) (st : list worker * store) : list worker * store :=
  let (wk, s) := resume w (nth w (fst st) Returned) (snd st) in
  (set_nth w wk (fst st), s).

Variable sched : nat -> nat.

Fixpoint run (fuel n : nat) (st : list worker * store)
    : list worker * store :=
  match fuel with
  | O => st
  | S fuel' =>
      match resumable (fst st) with
      | [] => st
      | w0 :: ws =>
          let w := nth (sched n mod List.length (w0 :: ws)) (w0 :: ws) w0 in
          run fuel' (S n) (step w st)
      end
  end.

Definition init (t : float) : store :=
  mkStore (range (iterations cfg)) 0 0 [] t [] 0.

Definition drain (t : float) : list worker * store :=
  run (2 * iterations cfg) 0 (spawn (range (concurrency cfg)) (init t)).

Definition joined (pool : list worker) : bool :=
  forallb (fun wk => match wk with Returned => true | _ => false end) pool.

(** [{ variant, concurrency, iterations, ok, fail, ms, errors }] *)
Record BatchResult : Type := mkResult {
  res_variant : variant;
  res_concurrency : nat;
  res_iterations : nat;
  res_ok : nat;
  res_fail : nat;
  res_ms : Z;
  res_errors : list error_record
}.

(** [runBatch], with the two readings of [Date.now()]; [None] when the
    join never completes. *)
Definition runBatch (t : float) (start finish : Z) : option BatchResult :=
  let (pool, s) := drain t in
  if joined pool then
    Some (mkResult (variant_of cfg) (concurrency cfg) (iterations cfg)
                   (ok s) (fail s) (finish - start)%Z (errors s))
  else None.

End Batch.

End BenchV1.

(* ================================================================== *)
(** ** Environments for concrete runs *)
(* ================================================================== *)

Module Scenario.

Import JS Common.

(** The default cost options of the command line. *)
Definition options : scrypt_opts := mkOpts 16384 8 1 33554432.

(** A primitive that derives a key from its arguments alone. *)
Definition steady : primitive :=
  fun _ pwd salt _ _ => CallsBack None (pwd ++ salt) false.

(** A primitive whose output changes from one invocation to the next. *)
Definition drifting : primitive :=
  fun k pwd salt _ _ =>
    CallsBack None (byte_of_Z (Z.of_nat k) :: pwd ++ salt) false.

(** A primitive that fails on the password of index 2. *)
Definition failing_at_2 : primitive :=
  fun _ pwd salt _ _ =>
    if Buffer_equals pwd (Buffer_from "pwd-2")
    then CallsBack (Some (mkError (Some "boom"%string) (Some "ERR_X"%string)))
                   [] false
    else CallsBack None (pwd ++ salt) false.

(** A primitive that never calls back. *)
Definition hanging : primitive := fun _ _ _ _ _ => NeverCallsBack.

(** Invocation [k] is measured to take [k + 1] milliseconds. *)
Definition stopwatch (k : nat) : float := number_of_Z (Z.of_nat k + 1).

(** Resume the suspended workers in turn. *)
Definition round_robin (n : nat) : nat := n.

Definition batch (c i : nat) : params := mkParams callback c i 64 options.

End Scenario.

(* ================================================================== *)
(** ** Specification-level definitions *)
(* ================================================================== *)

Module Spec.

Import JS Common.

(** [clamp(x, lo, hi)] as the metrics section words it. *)
Definition clamp (x lo hi : Z) : Z :=
  if (x <? lo)%Z then lo else if (hi <? x)%Z then hi else x.

(** The value of the generator's output lies in [[0, 1)]. *)
Definition unit_interval (x : Q) : Prop := (0 <= x)%Q /\ (x < 1)%Q.

(** *** Reading the history of a batch *)

(** The indices for which [ok] or [fail] was incremented. *)
Definition counted (h : list hevent) : list nat :=
  flat_map (fun ev => match ev with Counted i _ => [i] | _ => [] end) h.

Definition successes (h : list hevent) : list nat :=
  flat_map (fun ev => match ev with Counted i true => [i] | _ => [] end) h.

Definition failures (h : list hevent) : list nat :=
  flat_map (fun ev => match ev with Counted i false => [i] | _ => [] end) h.

(** The indices popped from the queue, with the worker that popped. *)
Definition claims (h : list hevent) : list (nat * nat) :=
  flat_map (fun ev => match ev with Claimed w i => [(w, i)] | _ => [] end) h.

(** The latency samples appended, with the invocation they measure. *)
Definition sampled (h : list hevent) : list (nat * float) :=
  flat_map (fun ev => match ev with Sampled k ms => [(k, ms)] | _ => [] end) h.

Definition invoked (h : list hevent) : list nat :=
  flat_map (fun ev => match ev with Invoked k _ _ _ => [k] | _ => [] end) h.

Abbreviation count := (count_occ Nat.eq_dec).

Section Runner.

Variable scrypt : primitive.
Variable elapsed : nat -> float.
Variable cfg : params.

(** Invocation [k] is on record with arguments on which the primitive
    called back in time and without an error, and [ms] is the time
    measured around it. *)
Definition completed (h : list hevent) (k : nat) (ms : float) : Prop :=
  ms = elapsed k /\
  exists i pwd salt dk,
    In (Invoked k i pwd salt) h /\
    scrypt k pwd salt (keyLen cfg) (opts cfg) = CallsBack None dk false.

(** The promise of [runOnce(i)] for an invocation that behaves as [b]. *)
Definition promise_of (b : behaviour) (i k : nat) : promise Bench.timed :=
  match b with
  | CallsBack None dk false => Some (Fulfilled (dk, elapsed k))
  | CallsBack (Some e) _ false => Some (Rejected e)
  | _ =>
      Some (Rejected
              (Timeout.timeout_error 60000
                 (variant_name (variant_of cfg) ++ " i=" ++ decimal i)))
  end.

(** The index and the invocation a suspended worker holds. *)
Definition idx (wk : Bench.worker) : list nat :=
  match wk with
  | Bench.AwaitFirst i _ _ => [i]
  | Bench.AwaitSecond i _ _ _ => [i]
  | Bench.Returned => []
  end.

Definition ids (wk : Bench.worker) : list nat :=
  match wk with
  | Bench.AwaitFirst _ k _ => [k]
  | Bench.AwaitSecond _ _ k _ => [k]
  | Bench.Returned => []
  end.

(** A suspended worker awaits an invocation that is on record, and its
    promise is the one that invocation's behaviour determines. *)
Definition awaits (h : list hevent) (wk : Bench.worker) : Prop :=
  match wk with
  | Bench.AwaitFirst i k pr | Bench.AwaitSecond i _ k pr =>
      exists pwd salt,
        In (Invoked k i pwd salt) h /\
        pr = promise_of (scrypt k pwd salt (keyLen cfg) (opts cfg)) i k
  | Bench.Returned => True
  end.

(** The invariant of the store, relative to the indices [held] and the
    invocations [pending] that the suspended workers hold. *)
Record Core (s : Bench.store) (held pending : list nat) : Prop := mkCore {
  core_once :
    forall x, count (Bench.queue s) x + count held x
              + count (counted (Bench.history s)) x
              = count (seq 0 (iterations cfg)) x;
  core_ok : Bench.ok s = List.length (successes (Bench.history s));
  core_fail : Bench.fail s = List.length (failures (Bench.history s));
  core_errors : List.length (Bench.errors s) = Bench.fail s;
  core_claims :
    Bench.queue s ++ rev (map snd (claims (Bench.history s)))
    = seq 0 (iterations cfg);
  core_samples :
    Bench.callDurations s = map snd (sampled (Bench.history s));
  core_completed :
    forall k ms, In (k, ms) (sampled (Bench.history s)) ->
                 completed (Bench.history s) k ms;
  core_ids :
    forall x, count (map fst (sampled (Bench.history s))) x
              + count pending x <= 1;
  core_fresh :
    forall x, In x (map fst (sampled (Bench.history s)) ++ pending) ->
              x < Bench.invocations s;
  core_invoked :
    invoked (Bench.history s) = seq 0 (Bench.invocations s)
}.

(** The invariant of a pool with its store. *)
Record Inv (st : list Bench.worker * Bench.store) : Prop := mkInv {
  inv_core : Core (snd st) (flat_map idx (fst st)) (flat_map ids (fst st));
  inv_awaits : Forall (awaits (Bench.history (snd st))) (fst st);
  inv_returned :
    Bench.queue (snd st) <> [] -> ~ In Bench.Returned (fst st)
}.

(** Resumptions still to come: two for an index in the queue or at its
    first [await], one for an index at its second [await]. *)
Definition weight (wk : Bench.worker) : nat :=
  match wk with
  | Bench.AwaitFirst _ _ _ => 2
  | Bench.AwaitSecond _ _ _ _ => 1
  | Bench.Returned => 0
  end.

Definition measure (st : list Bench.worker * Bench.store) : nat :=
  2 * List.length (Bench.queue (snd st)) + list_sum (map weight (fst st)).

End Runner.

(** *** Relating the two revisions *)

(** The type and the index of an entry of [errors]. *)
Definition kind (e : error_record) : bool * nat :=
  match e with
  | Mismatch i _ _ => (true, i)
  | Error i _ _ => (false, i)
  end.

Definition same_promise (p1 : promise Buffer) (p2 : promise Bench.timed)
    : Prop :=
  match p1, p2 with
  | None, None => True
  | Some (Fulfilled dk1), Some (Fulfilled a) => dk1 = fst a
  | Some (Rejected _), Some (Rejected _) => True
  | _, _ => False
  end.

Definition same_worker (w1 : BenchV1.worker) (w2 : Bench.worker) : Prop :=
  match w1, w2 with
  | BenchV1.AwaitFirst i1 k1 p1, Bench.AwaitFirst i2 k2 p2 =>
      i1 = i2 /\ k1 = k2 /\ same_promise p1 p2
  | BenchV1.AwaitSecond i1 dk1 k1 p1, Bench.AwaitSecond i2 a k2 p2 =>
      i1 = i2 /\ dk1 = fst a /\ k1 = k2 /\ same_promise p1 p2
  | BenchV1.Returned, Bench.Returned => True
  | _, _ => False
  end.

Definition same_store (s1 : BenchV1.store) (s2 : Bench.store) : Prop :=
  BenchV1.queue s1 = Bench.queue s2 /\
  BenchV1.ok s1 = Bench.ok s2 /\
  BenchV1.fail s1 = Bench.fail s2 /\
  map kind (BenchV1.errors s1) = map kind (Bench.errors s2) /\
  BenchV1.rand s1 = Bench.rand s2 /\
  BenchV1.console s1 = Bench.console s2 /\
  BenchV1.invocations s1 = Bench.invocations s2.

Definition same_state (st1 : list BenchV1.worker * BenchV1.store)
    (st2 : list Bench.worker * Bench.store) : Prop :=
  Forall2 same_worker (fst st1) (fst st2) /\ same_store (snd st1) (snd st2).

End Spec.

(* ================================================================== *)
(** ** The main loop and the Markdown summary *)
(* ================================================================== *)

Module Report.

Import JS Common.

(** [String(s).replace(/\|/g, "\\|")]: a backslash before every pipe. *)
Fixpoint mdEscape (s : string) : string :=
  match s with
  | EmptyString => EmptyString
  | String c s' =>
      if Ascii.eqb c "|" then String "\" (String "|" (mdEscape s'))
      else String c (mdEscape s')
  end.

(** The keys of a result that the summary compares. *)
Inductive metric : Type :=
| iterThroughput | callThroughput | p50 | p90 | p99.

(** [r[key]] *)
Definition get (r : Bench.BatchResult) (key : metric) : Metrics.value :=
  match key with
  | iterThroughput => Metrics.Num (Bench.res_iterThroughput r)
  | callThroughput => Metrics.Num (Bench.res_callThroughput r)
  | p50 => Bench.res_p50 r
  | p90 => Bench.res_p90 r
  | p99 => Bench.res_p99 r
  end.

(** [Number.isFinite(v)]: false for what is not a number. *)
Definition Number_isFinite (v : Metrics.value) : bool :=
  match v with
  | Metrics.Num x => is_finite x
  | Metrics.Undefined => false
  end.

(** [ToNumber(v)] *)
Definition ToNumber (v : Metrics.value) : float :=
  match v with
  | Metrics.Num x => x
  | Metrics.Undefined => nan
  end.

Definition is_pos_zero (x : float) : bool :=
  match classify x with PZero => true | _ => false end.

Definition is_neg_zero (x : float) : bool :=
  match classify x with NZero => true | _ => false end.

(** [Math.max(...xs)]: NaN if any argument is NaN; otherwise the
    arguments are scanned from negative infinity, [+0] counting as
    larger than [-0]. *)
Definition Math_max (xs : list float) : float :=
  if existsb is_nan xs then nan
  else
    fold_left
      (fun highest x =>
         if is_pos_zero x && is_neg_zero highest then x
         else if (highest <? x)%float then x else highest)
      xs neg_infinity.

(** [Math.min(...xs)], from positive infinity, [-0] counting as
    smaller than [+0]. *)
Definition Math_min (xs : list float) : float :=
  if existsb is_nan xs then nan
  else
    fold_left
      (fun lowest x =>
         if is_neg_zero x && is_pos_zero lowest then x
         else if (x <? lowest)%float then x else lowest)
      xs infinity.

(** [v === bestVal] for a number [bestVal]. *)
Definition strict_eq (v : Metrics.value) (bestVal : float) : bool :=
  match v with
  | Metrics.Num x => (x =? bestVal)%float
  | Metrics.Undefined => false
  end.

Definition variant_eqb (u v : variant) : bool :=
  match u, v with
  | callback, callback => true
  | utilPromisify, utilPromisify => true
  | manualPromise, manualPromise => true
  | _, _ => false
  end.

(** The object [{ bestVal, set }]; the [Set] of variants is kept as
    the list it is built from, read only through [has]. *)
Record best_of : Type := mkBest {
  bestVal : float;
  set : list variant
}.

Definition has (b : best_of) (v : variant) : bool :=
  existsb (variant_eqb v) (set b).

(** [best(results, key, higherIsBetter)]; [None] is [null]. *)
Definition best (results : list Bench.BatchResult) (key : metric)
    (higherIsBetter : bool) : option best_of :=
  let vals := filter Number_isFinite (map (fun r => get r key) results) in
  if Nat.eqb (List.length vals) 0 then None
  else
    let bestVal :=
      if higherIsBetter then Math_max (map ToNumber vals)
      else Math_min (map ToNumber vals) in
    Some (mkBest bestVal
            (map Bench.res_variant
               (filter (fun r => strict_eq (get r key) bestVal) results))).

(** The object [bests] of one table. *)
Definition bests_of (rs : list Bench.BatchResult) (key : metric)
    : option best_of :=
  match key with
  | iterThroughput => best rs iterThroughput true
  | callThroughput => best rs callThroughput true
  | p50 => best rs p50 false
  | p90 => best rs p90 false
  | p99 => best rs p99 false
  end.

(** [xs.join(sep)] *)
Fixpoint join (sep : string) (xs : list string) : string :=
  match xs with
  | [] => EmptyString
  | [x] => x
  | x :: xs' => (x ++ sep ++ join sep xs')%string
  end.

Section Rendering.

(** [Number.prototype.toFixed] belongs to the platform. *)
Variable toFixed : float -> nat -> string.

(** [fmt(x, d)] *)
Definition fmt (x : Metrics.value) (d : nat) : string :=
  if Number_isFinite x then toFixed (ToNumber x) d else EmptyString.

(** [star(metric, text)]: reading [bests[metric].set] throws a
    [TypeError] when [bests[metric]] is [null]; [None] is that throw. *)
Definition star (bests : metric -> option best_of) (v : variant)
    (key : metric) (text : string) : option string :=
  match bests key with
  | None => None
  | Some b => Some (if has b v then (text ++ " *")%string else text)
  end.

(** [row(r, bests)]: the cells are computed from left to right and
    joined; [None] when computing a cell throws. *)
Definition row (r : Bench.BatchResult) (bests : metric -> option best_of)
    : option string :=
  let v := Bench.res_variant r in
  match star bests v iterThroughput (fmt (get r iterThroughput) 2) with
  | None => None
  | Some c1 =>
  match star bests v callThroughput (fmt (get r callThroughput) 2) with
  | None => None
  | Some c2 =>
  match star bests v p50 (fmt (get r p50) 2) with
  | None => None
  | Some c3 =>
  match star bests v p90 (fmt (get r p90) 2) with
  | None => None
  | Some c4 =>
  match star bests v p99 (fmt (get r p99) 2) with
  | None => None
  | Some c5 =>
      Some (join " | "
              [mdEscape (variant_name v); decimal (Bench.res_fail r);
               c1; c2; c3; c4; c5;
               fmt (Metrics.Num (Bench.res_totalMs r)) 1])
  end end end end end.

(** [rs.map((r) => `| ${row(r, bests)} |`)]: [None] when a row throws. *)
Fixpoint rows (rs : list Bench.BatchResult)
    (bests : metric -> option best_of) : option (list string) :=
  match rs with
  | [] => Some []
  | r :: rs' =>
      match row r bests with
      | None => None
      | Some line =>
          match rows rs' bests with
          | None => None
          | Some lines => Some (("| " ++ line ++ " |")%string :: lines)
          end
      end
  end.

(** [byConc(conc)] *)
Definition byConc (allResults : list Bench.BatchResult) (conc : nat)
    : list Bench.BatchResult :=
  filter (fun r => Nat.eqb (Bench.res_concurrency r) conc) allResults.

(** What the summary prints, and whether it ran to its end. *)
Inductive printed : Type :=
| Completed (console : list string)
| Threw (console : list string).

Definition header : list string :=
  ["| Variant | Fail | Iter/s | Calls/s | p50 (ms) | p90 (ms) | p99 (ms) | Time (ms) |";
   "|--------|-----:|-------:|--------:|---------:|---------:|---------:|----------:|"]
  %string.

Definition notes : string :=
  String (ascii_of_nat 10)
    "Notes: * marks the best value per column (higher is better for Iter/s, Calls/s; lower is better for p50/p90/p99).".

(** The loop [for (const conc of concurrencies)] of the summary. *)
Fixpoint tables (allResults : list Bench.BatchResult) (concs : list nat)
    (console : list string) : printed :=
  match concs with
  | [] => Completed console
  | conc :: concs' =>
      let rs := byConc allResults conc in
      if Nat.eqb (List.length rs) 0 then tables allResults concs' console
      else
        let console1 :=
          console
          ++ [String (ascii_of_nat 10) ("Concurrency " ++ decimal conc)] in
        match rows rs (bests_of rs) with
        | None => Threw console1
        | Some lines =>
            tables allResults concs'
              (console1
               ++ [join (String (ascii_of_nat 10) EmptyString)
                     (header ++ lines);
                   notes])
        end
  end.

End Rendering.

End Report.

Module Main.

Import JS Common.

(** [const order = ["callback", "utilPromisify", "manualPromise"]] *)
Definition order : list variant := [callback; utilPromisify; manualPromise].

Section Main.

(** The constants parsed from the command line. *)
Variable mode : string.
Variable progress : bool.
Variable iterations : nat.
Variable keyLen : nat.
Variable opts : scrypt_opts.
Variable concurrencies : list nat.

(** The environment of the [n]-th batch of the run: what the
    primitive does, the times measured, the order of resumptions and
    the two readings of the clock. *)
Variable scrypt_of : nat -> primitive.
Variable elapsed_of : nat -> nat -> float.
Variable sched_of : nat -> nat -> nat.
Variable tStart_of : nat -> float.
Variable tEnd_of : nat -> float.

(** The state of the two loops: the number of batches run, the counter
    of the module-level generator, and [allResults]. *)
Definition progress_state : Type :=
  (nat * float * list Bench.BatchResult)%type.

(** [for (const c of concurrencies) { const r = await runBatch(...);
    allResults.push(r); }]; [None] when a batch never completes. *)
Fixpoint inner (v : variant) (cs : list nat) (st : progress_state)
    : option progress_state :=
  match cs with
  | [] => Some st
  | c :: cs' =>
      let '(n, t, allResults) := st in
      let cfg := mkParams v c iterations keyLen opts in
      match Bench.runBatch mode progress (scrypt_of n) (elapsed_of n) cfg
              (sched_of n) t (tStart_of n) (tEnd_of n) with
      | None => None
      | Some r =>
          let t' :=
            Bench.rand
              (snd (Bench.drain mode progress (scrypt_of n) (elapsed_of n)
                      cfg (sched_of n) t)) in
          inner v cs' (S n, t', allResults ++ [r])
      end
  end.

(** [for (const variant of order)] *)
Fixpoint outer (vs : list variant) (st : progress_state)
    : option progress_state :=
  match vs with
  | [] => Some st
  | v :: vs' =>
      match inner v concurrencies st with
      | None => None
      | Some st' => outer vs' st'
      end
  end.

(** [allResults] after the loops of [main], for a generator seeded
    with [seed]. *)
Definition allResults (seed : float) : option (list Bench.BatchResult) :=
  match outer order (0, Prng.mulberry32 seed, []) with
  | None => None
  | Some (_, _, results) => Some results
  end.

End Main.

End Main.

(** Results for concrete summaries. *)
Module Samples.

Import Common.

Definition result (v : variant) (throughput latency : float)
    : Bench.BatchResult :=
  Bench.mkResult v 10 100 100 0 1000 throughput (2 * throughput)
    (Metrics.Num latency) (Metrics.Num latency) (Metrics.Num latency) [].

(** A batch in which every call failed: no sample, no percentile. *)
Definition failed (v : variant) : Bench.BatchResult :=
  Bench.mkResult v 10 100 0 100 1000 0 200
    (Metrics.Num nan) (Metrics.Num nan) (Metrics.Num nan) [].

Definition three : list Bench.BatchResult :=
  [result callback 12 5; result utilPromisify 11 4; result manualPromise 12 6].

Definition all_failed : list Bench.BatchResult :=
  [failed callback; failed utilPromisify; failed manualPromise].

(** A stand-in for [toFixed] that prints nothing. *)
Definition blank (x : float) (d : nat) : string := EmptyString.

End Samples.

(* ================================================================== *)
(** ** Further specification-level definitions *)
(* ================================================================== *)

Module Extra.

Import JS Common.

(** The index an entry of [errors] is about. *)
Definition err_index (e : error_record) : nat :=
  match e with
  | Mismatch i _ _ => i
  | Error i _ _ => i
  end.

(** The invocations on record, oldest first. *)
Definition invocations_of (h : list hevent) : list hevent :=
  filter (fun ev => match ev with Invoked _ _ _ _ => true | _ => false end) h.

(** The invocations that [mkInput] and the primitive see when the
    [indices] are taken in turn, one invocation each, from
    invocation number [k] and generator counter [t]; and the counter
    afterwards. *)
Fixpoint plan (mode : string) (indices : list nat) (k : nat) (t : float)
    : list hevent * float :=
  match indices with
  | [] => ([], t)
  | i :: rest =>
      let '(pwd, salt, t1) := mkInput mode i t in
      let (evs, t2) := plan mode rest (S k) t1 in
      (Invoked k i pwd salt :: evs, t2)
  end.

(** [n] draws from the generator whose counter is [t]. *)
Fixpoint advance (n : nat) (t : float) : float :=
  match n with
  | O => t
  | S n' => advance n' (snd (Prng.next t))
  end.

(** The bytes [randBuf] makes of the first [n] words of the generator:
    the top eight bits of each. *)
Fixpoint top_bytes (n : nat) (t : float) : Buffer :=
  match n with
  | O => []
  | S n' =>
      let (u, t') := Prng.next_word t in
      byte_of_Z (Z.shiftr u 24) :: top_bytes n' t'
  end.

(** The sum of the shares [f] of the workers of a pool. *)
Definition total (f : Bench.worker -> Z) (pool : list Bench.worker) : Z :=
  fold_right Z.add 0%Z (map f pool).

(** [callsPerIter] of the metrics. *)
Definition callsPerIter (mode : string) : nat :=
  if String.eqb mode "sequential" then 2 else 1.

(** The entries of [errors] of type ["error"]: those of the [catch]
    block. *)
Definition rejections (errors : list error_record) : nat :=
  List.length
    (filter (fun e => match e with Error _ _ _ => true | _ => false end)
            errors).

(** The invocations whose promise a worker is waiting for. *)
Definition pending (wk : Bench.worker) : Z :=
  match wk with
  | Bench.Returned => 0%Z
  | _ => 1%Z
  end.

(** The progress line of a claim, and whether the claim is logged. *)
Definition line_of (v : variant) (claim : nat * nat) : string :=
  progress_line v (fst claim) (snd claim).

Definition logged (every : nat) (claim : nat * nat) : bool :=
  Nat.eqb (snd claim mod every) 0.

(** The numbers that [mkInput] draws in random mode for the [indices]:
    one for every byte of a password and of a salt. *)
Definition draws (indices : list nat) : nat :=
  list_sum (map (fun i => (16 + i mod 16) + (16 + (i * 7) mod 16)) indices).

(** The result of the [n]-th batch of a run, for the pair [p] of a
    variant and a concurrency, when the module-level generator has the
    counter [start n] as the batch begins. *)
Definition batch_from (mode : string) (progress : bool)
    (iterations keyLen : nat) (opts : scrypt_opts)
    (scrypt_of : nat -> primitive) (elapsed_of : nat -> nat -> float)
    (sched_of : nat -> nat -> nat) (tStart_of tEnd_of : nat -> float)
    (start : nat -> float) (n : nat) (p : variant * nat)
    : Bench.BatchResult :=
  let cfg := mkParams (fst p) (snd p) iterations keyLen opts in
  Bench.metrics mode cfg (tStart_of n) (tEnd_of n)
    (snd (Bench.drain mode progress (scrypt_of n) (elapsed_of n) cfg
            (sched_of n) (start n))).

(** The number of pipes of a string. *)
Fixpoint pipes (s : string) : nat :=
  match s with
  | EmptyString => 0
  | String c s' => (if Ascii.eqb c "|" then 1 else 0) + pipes s'
  end.

(** Every pipe of [s] comes right after a backslash; [prev] tells
    whether the character before [s] is one. *)
Fixpoint escaped_after (prev : bool) (s : string) : bool :=
  match s with
  | EmptyString => true
  | String c s' =>
      if Ascii.eqb c "|" then prev && escaped_after false s'
      else escaped_after (Ascii.eqb c "\") s'
  end.

(** A backslash before a pipe is dropped. *)
Fixpoint unescape (s : string) : string :=
  match s with
  | EmptyString => EmptyString
  | String c s' =>
      match s' with
      | String d _ =>
          if Ascii.eqb c "\" && Ascii.eqb d "|" then unescape s'
          else String c (unescape s')
      | EmptyString => String c EmptyString
      end
  end.

End Extra.

(* ================================================================== *)
(** ** The generator *)
(* ================================================================== *)

Section PrngFacts.

Import JS Prng.

Lemma ToUint32_range (z : Z) : (0 <= ToUint32 z < 2 ^ 32)%Z.
Proof. unfold ToUint32. apply Z.mod_pos_bound. lia. Qed.

Lemma ushr0_range (z : Z) : (0 <= ushr z 0 < 2 ^ 32)%Z.
Proof.
  unfold ushr. change (0 mod 32)%Z with 0%Z. rewrite Z.shiftr_0_r.
  apply ToUint32_range.
Qed.

Lemma mix_range (t : Z) : (0 <= mix t < 2 ^ 32)%Z.
Proof. unfold mix. apply ushr0_range. Qed.

Lemma next_unit (t : float) : Spec.unit_interval (fst (next t)).
Proof.
  unfold next, next_word. cbn [fst].
  pose proof (mix_range (truncate (t + 1831565813)%float)) as H.
  unfold Spec.unit_interval, Qle, Qlt. cbn [Qnum Qden].
  change (Z.pos (2 ^ 32)) with (2 ^ 32)%Z. lia.
Qed.

Lemma take_unit (n : nat) :
  forall t, Forall Spec.unit_interval (take n t).
Proof.
  induction n as [|n IH]; intros t; cbn [take].
  - constructor.
  - pose proof (next_unit t) as H. destruct (next t) as [x t'].
    constructor; [exact H | apply IH].
Qed.

Lemma nth_error_update_same (h : heap) :
  forall g t t', nth_error h g = Some t ->
                 nth_error (update h g t') g = Some t'.
Proof.
  induction h as [|x h IH]; intros [|g] t t' H; cbn in *; try discriminate.
  - reflexivity.
  - eapply IH; eassumption.
Qed.

Lemma nth_error_update_other (h : heap) :
  forall g g' t', g <> g' ->
                  nth_error (update h g' t') g = nth_error h g.
Proof.
  induction h as [|x h IH]; intros [|g] [|g'] t' H; cbn; try reflexivity.
  - congruence.
  - apply IH. congruence.
Qed.

(** Within any interleaving of calls, generator [g] returns the
    sequence it would return alone. *)
Lemma outputs_alone (gs : list nat) :
  forall g h t, nth_error h g = Some t ->
    outputs_of g (calls gs h) = take (count_occ Nat.eq_dec gs g) t.
Proof.
  induction gs as [|g' gs IH]; intros g h t Hg; cbn [calls count_occ].
  - reflexivity.
  - destruct (Nat.eq_dec g' g) as [->|Hne].
    + unfold call. rewrite Hg. cbn [take].
      destruct (next t) as [x t'] eqn:Hn.
      unfold outputs_of. cbn [filter fst]. rewrite Nat.eqb_refl. cbn [map snd].
      f_equal. apply IH. eapply nth_error_update_same; eassumption.
    + unfold call. destruct (nth_error h g') as [t''|] eqn:Hg'.
      * destruct (next t'') as [x t3].
        unfold outputs_of. cbn [filter fst].
        destruct (Nat.eqb_spec g' g) as [E|_]; [congruence|].
        apply IH. rewrite nth_error_update_other; auto.
      * apply IH; assumption.
Qed.

Lemma nth_error_alloc_new (seed : float) (h : heap) :
  nth_error (snd (alloc seed h)) (fst (alloc seed h)) = Some (mulberry32 seed).
Proof.
  unfold alloc. cbn [fst snd].
  rewrite nth_error_app2 by lia. rewrite Nat.sub_diag. reflexivity.
Qed.

Lemma nth_error_alloc_old (seed : float) (h : heap) (g : nat) (t : float) :
  nth_error h g = Some t -> nth_error (snd (alloc seed h)) g = Some t.
Proof.
  intros H. unfold alloc. cbn [snd]. rewrite nth_error_app1; [exact H|].
  apply nth_error_Some. congruence.
Qed.

End PrngFacts.

(** C8: two generators constructed independently from the same seed, in
    any heap and however their calls are interleaved, each return the
    sequence determined by the seed alone, so their first [n] outputs
    coincide; and every output lies in [[0, 1)]. *)
Theorem mulberry32_deterministic (seed : float) (h : Prng.heap)
    (gs : list nat) (n : nat) :
  let g1 := fst (Prng.alloc seed h) in
  let h1 := snd (Prng.alloc seed h) in
  let g2 := fst (Prng.alloc seed h1) in
  let h2 := snd (Prng.alloc seed h1) in
  let out := Prng.calls gs h2 in
  g1 <> g2 /\
  Prng.outputs_of g1 out
    = Prng.take (count_occ Nat.eq_dec gs g1) (Prng.mulberry32 seed) /\
  Prng.outputs_of g2 out
    = Prng.take (count_occ Nat.eq_dec gs g2) (Prng.mulberry32 seed) /\
  Forall Spec.unit_interval (Prng.take n (Prng.mulberry32 seed)) /\
  Forall Spec.unit_interval (map snd out).
Proof.
  cbv zeta. repeat split.
  - unfold Prng.alloc. cbn [fst snd]. rewrite length_app. cbn. lia.
  - apply outputs_alone. apply nth_error_alloc_old. apply nth_error_alloc_new.
  - apply outputs_alone. apply nth_error_alloc_new.
  - apply take_unit.
  - generalize (snd (Prng.alloc seed (snd (Prng.alloc seed h)))).
    induction gs as [|g gs IH]; intros h0; cbn [Prng.calls map].
    + constructor.
    + unfold Prng.call. destruct (nth_error h0 g) as [t|]; [|apply IH].
      pose proof (next_unit t) as Hu. destruct (Prng.next t) as [x t'].
      cbn [map snd]. constructor; [exact Hu | apply IH].
Qed.

(* ================================================================== *)
(** ** The deadline guard *)
(* ================================================================== *)

Section TimeoutFacts.

Import Timeout.

Context {A : Type}.
Variable ms : N.
Variable label : string.

(** Once the race has settled and the timer is no longer armed, no
    later event changes anything. *)
Lemma quiescent (evs : list (event A)) :
  forall g r, race g = Some r -> timer g <> Armed ->
              fold_left (step ms label) evs g = g.
Proof.
  induction evs as [|ev evs IH]; intros g r Hr Ht; cbn [fold_left].
  - reflexivity.
  - assert (step ms label g ev = g) as ->.
    { destruct ev as [r'|]; cbn [step].
      - unfold settle. now rewrite Hr.
      - destruct (timer g); [congruence | reflexivity | reflexivity]. }
    eapply IH; eassumption.
Qed.

Lemma run_op_first (r : settled A) (evs : list (event A)) :
  run ms label (OpSettles r :: evs) = mkGuard (Some r) Cleared 1.
Proof.
  unfold run. cbn [fold_left step]. unfold settle, start. cbn.
  eapply quiescent; cbn; [reflexivity | discriminate].
Qed.

Lemma run_deadline_first (evs : list (event A)) :
  run ms label (DeadlineElapses :: evs)
  = mkGuard (Some (Rejected (timeout_error ms label))) Fired 1.
Proof.
  unfold run. cbn [fold_left step]. unfold settle, start. cbn.
  eapply quiescent; cbn; [reflexivity | discriminate].
Qed.

Lemma withTimeout_first (r : settled A) :
  withTimeout (SettlesFirst r) ms label = Some r.
Proof. unfold withTimeout, timeline. now rewrite run_op_first. Qed.

Lemma withTimeout_late (r : settled A) :
  withTimeout (SettlesLate r) ms label
  = Some (Rejected (timeout_error ms label)).
Proof. unfold withTimeout, timeline. now rewrite run_deadline_first. Qed.

Lemma withTimeout_never :
  withTimeout (@NeverSettles A) ms label
  = Some (Rejected (timeout_error ms label)).
Proof. unfold withTimeout, timeline. now rewrite run_deadline_first. Qed.

End TimeoutFacts.

Lemma Number_toString_small (n : N) :
  (n < 2 ^ 53)%N -> JS.Number_toString n = JS.decimalN n.
Proof.
  intros H. apply N.ltb_lt in H.
  unfold JS.Number_toString, JS.Number_of_N. now rewrite H, H.
Qed.

Lemma setTimeout_honoured (ms : N) :
  (1 <= ms <= Timeout.TIMEOUT_MAX)%N -> Timeout.setTimeout ms = ms.
Proof.
  intros [H1 H2]. unfold Timeout.setTimeout.
  apply N.leb_le in H1, H2. now rewrite H1, H2.
Qed.

Lemma against_spec (A : Type) (ms : N) (label : string)
    (el : Timeout.event_loop) (after : N) (r : settled A) :
  Timeout.withTimeout (Timeout.against ms el (Timeout.SettlesAt after r))
    ms label
  = match (after ?= Timeout.setTimeout ms + Timeout.lag el)%N with
    | Lt => Some r
    | Gt => Some (Rejected (Timeout.timeout_error ms label))
    | Eq => if Timeout.settlement_first el then Some r
            else Some (Rejected (Timeout.timeout_error ms label))
    end.
Proof.
  unfold Timeout.against. cbv zeta.
  destruct (N.compare_spec after (Timeout.setTimeout ms + Timeout.lag el))
    as [E|E|E].
  - rewrite E, N.ltb_irrefl.
    destruct (Timeout.settlement_first el);
      [apply withTimeout_first | apply withTimeout_late].
  - apply N.ltb_lt in E. rewrite E. apply withTimeout_first.
  - assert (E1 : (after <? Timeout.setTimeout ms + Timeout.lag el)%N = false)
      by (apply N.ltb_ge; lia).
    apply N.ltb_lt in E. rewrite E1, E. apply withTimeout_late.
Qed.

(** C5, for the deadlines that [setTimeout] honours, the integers from
    1 to 2^31 - 1: the timer is set to [ms] milliseconds and never
    fires before them, so that [withTimeout] hands on the operation's
    own result or error when the operation settles before [ms]
    milliseconds have passed, and rejects with the timeout error, whose
    message names [ms] and ends with the label, when the timer fires
    before the operation settles, also when the operation never
    settles.  For every [ms] the race goes to whichever of the
    settlement and the firing of the timer the event loop delivers
    first, and what it delivers afterwards is ignored: a late
    settlement of the operation is still delivered (nothing cancels the
    operation) and is discarded. *)
Theorem withTimeout_race (A : Type) (ms : N) (label : string)
    (r : settled A) (el : Timeout.event_loop) (early late : N)
    (evs : list (Timeout.event A)) :
  (1 <= ms <= Timeout.TIMEOUT_MAX)%N ->
  (early < ms)%N ->
  (ms + Timeout.lag el < late)%N ->
  Timeout.withTimeout (Timeout.against ms el (Timeout.SettlesAt early r))
    ms label = Some r /\
  Timeout.withTimeout (Timeout.against ms el (Timeout.SettlesAt late r))
    ms label = Some (Rejected (Timeout.timeout_error ms label)) /\
  Timeout.withTimeout (Timeout.against ms el (@Timeout.StaysPending A))
    ms label = Some (Rejected (Timeout.timeout_error ms label)) /\
  message (Timeout.timeout_error ms label)
    = Some ("timeout after " ++ JS.decimalN ms ++ "ms: " ++ label)%string /\
  (forall ms' after,
      Timeout.withTimeout
        (Timeout.against ms' el (Timeout.SettlesAt after r)) ms' label
      = match (after ?= Timeout.setTimeout ms' + Timeout.lag el)%N with
        | Lt => Some r
        | Gt => Some (Rejected (Timeout.timeout_error ms' label))
        | Eq => if Timeout.settlement_first el then Some r
                else Some (Rejected (Timeout.timeout_error ms' label))
        end) /\
  Timeout.withTimeout (Timeout.SettlesFirst r) ms label = Some r /\
  Timeout.withTimeout (Timeout.SettlesLate r) ms label
    = Some (Rejected (Timeout.timeout_error ms label)) /\
  Timeout.withTimeout (@Timeout.NeverSettles A) ms label
    = Some (Rejected (Timeout.timeout_error ms label)) /\
  Timeout.race (Timeout.run ms label (Timeout.OpSettles r :: evs)) = Some r /\
  Timeout.race (Timeout.run ms label (Timeout.DeadlineElapses :: evs))
    = Some (Rejected (Timeout.timeout_error ms label)) /\
  Timeout.run ms label
    (Timeout.DeadlineElapses :: Timeout.OpSettles r :: evs)
    = Timeout.run ms label (Timeout.DeadlineElapses :: evs).
Proof.
  intros Hms Hearly Hlate.
  pose proof (setTimeout_honoured Hms) as Hset.
  assert (Hsmall : (ms < 2 ^ 53)%N).
  { unfold Timeout.TIMEOUT_MAX in Hms.
    assert ((2147483647 < 2 ^ 53)%N) by reflexivity. lia. }
  repeat match goal with |- _ /\ _ => split end.
  - rewrite against_spec, Hset.
    assert ((early ?= ms + Timeout.lag el)%N = Lt) as ->
      by (apply N.compare_lt_iff; lia).
    reflexivity.
  - rewrite against_spec, Hset.
    assert ((late ?= ms + Timeout.lag el)%N = Gt) as ->
      by (apply N.compare_gt_iff; lia).
    reflexivity.
  - apply withTimeout_never.
  - unfold Timeout.timeout_error. cbn [message].
    now rewrite Number_toString_small.
  - intros ms' after. apply against_spec.
  - apply withTimeout_first.
  - apply withTimeout_late.
  - apply withTimeout_never.
  - now rewrite run_op_first.
  - now rewrite run_deadline_first.
  - now rewrite !run_deadline_first.
Qed.

Lemma withTimeout_race_witness :
  Timeout.withTimeout
    (Timeout.against 60000 Timeout.punctual
       (Timeout.SettlesAt 50 (Fulfilled 7)))
    60000 "callback i=3"
  = Some (Fulfilled 7) /\
  Timeout.withTimeout
    (Timeout.against 60000 Timeout.punctual
       (Timeout.SettlesAt 70000 (Fulfilled 7)))
    60000 "callback i=3"
  = Some (Rejected (Timeout.timeout_error 60000 "callback i=3")).
Proof.
  pose proof (@withTimeout_race nat 60000 "callback i=3" (Fulfilled 7)
                Timeout.punctual 50 70000 []) as H.
  destruct H as (H1 & H2 & _);
    [vm_compute; split; discriminate | reflexivity | reflexivity |].
  split; [exact H1 | exact H2].
Defined.

(** C5 does not hold for every deadline: 2^31 milliseconds is more than
    [setTimeout] takes, the timer is set to one millisecond, and an
    operation that settles after 50 milliseconds, long before the
    deadline, is answered with the timeout error. *)
Lemma deadline_beyond_the_timer_is_cut_short :
  (50 < 2147483648)%N /\
  Timeout.setTimeout 2147483648 = 1%N /\
  Timeout.withTimeout
    (Timeout.against 2147483648 Timeout.punctual
       (Timeout.SettlesAt 50 (Fulfilled 7)))
    2147483648 "callback i=3"
  = Some (Rejected (Timeout.timeout_error 2147483648 "callback i=3")) /\
  message (Timeout.timeout_error 2147483648 "callback i=3")
  = Some "timeout after 2147483648ms: callback i=3"%string.
Proof. vm_compute. auto. Qed.

(** C6: on every exit path, whichever event comes first and whatever
    follows, the [finally] callback has run [clearTimeout] exactly once
    and the timer is no longer armed: it was cancelled when the
    operation won and had fired when the deadline won. *)
Theorem withTimeout_releases_timer (A : Type) (ms : N) (label : string)
    (ev : Timeout.event A) (evs : list (Timeout.event A))
    (op : Timeout.operation A) :
  Timeout.clears (Timeout.run ms label (ev :: evs)) = 1 /\
  Timeout.timer (Timeout.run ms label (ev :: evs)) <> Timeout.Armed /\
  Timeout.clears (Timeout.run ms label (Timeout.timeline op)) = 1 /\
  Timeout.timer (Timeout.run ms label (Timeout.timeline op))
    = match op with
      | Timeout.SettlesFirst _ => Timeout.Cleared
      | _ => Timeout.Fired
      end.
Proof.
  repeat split.
  - destruct ev; [rewrite run_op_first | rewrite run_deadline_first];
      reflexivity.
  - destruct ev; [rewrite run_op_first | rewrite run_deadline_first];
      cbn; discriminate.
  - destruct op; cbn [Timeout.timeline];
      [rewrite run_op_first | rewrite run_deadline_first
       | rewrite run_deadline_first]; reflexivity.
  - destruct op; cbn [Timeout.timeline];
      [rewrite run_op_first | rewrite run_deadline_first
       | rewrite run_deadline_first]; reflexivity.
Qed.

(* ================================================================== *)
(** ** The input generator *)
(* ================================================================== *)

(** C7: in sequential mode [mkInput(i)] returns the bytes of ["pwd-" + i]
    and of ["salt-" + i] whatever the state of the random generator,
    which it leaves untouched: two calls for the same index return the
    same pair, and [runOnce] hands the primitive the same arguments
    from any two stores. *)
Theorem mkInput_sequential (i : nat) (t t' : float) :
  Common.mkInput "sequential" i t
    = (JS.Buffer_from ("pwd-" ++ JS.decimal i)%string,
       JS.Buffer_from ("salt-" ++ JS.decimal i)%string, t) /\
  fst (Common.mkInput "sequential" i t)
    = fst (Common.mkInput "sequential" i t') /\
  (forall scrypt elapsed cfg (s : Bench.store),
      exists k pr,
        Bench.runOnce "sequential" scrypt elapsed cfg i s
          = (k, pr,
             Bench.record
               (Common.Invoked k i
                  (JS.Buffer_from ("pwd-" ++ JS.decimal i)%string)
                  (JS.Buffer_from ("salt-" ++ JS.decimal i)%string))
               (Bench.incr_invocations (Bench.set_rand (Bench.rand s) s)))).
Proof.
  repeat split.
  intros scrypt elapsed cfg s.
  unfold Bench.runOnce. cbn [Common.mkInput String.eqb].
  do 2 eexists. reflexivity.
Qed.

(* ================================================================== *)
(** ** The nearest-rank percentile *)
(* ================================================================== *)

Section PercentileFacts.

Import Metrics.
Local Open Scope Z_scope.

(** The nested [Math.min]/[Math.max] of the code is the clamp. *)
Lemma min_max_clamp (c hi : Z) :
  0 <= hi -> Z.min hi (Z.max 0 (c - 1)) = Spec.clamp (c - 1) 0 hi.
Proof.
  intros H. unfold Spec.clamp.
  destruct (Z.ltb_spec (c - 1) 0); [lia|].
  destruct (Z.ltb_spec hi (c - 1)); lia.
Qed.

Lemma clamp_bounds (x hi : Z) : 0 <= hi -> 0 <= Spec.clamp x 0 hi <= hi.
Proof.
  intros H. unfold Spec.clamp.
  destruct (Z.ltb_spec x 0); [lia|].
  destruct (Z.ltb_spec hi x); lia.
Qed.

Lemma index_in_range (sorted : list float) (z : Z) :
  0 <= z < Z.of_nat (List.length sorted) ->
  index sorted (Fin z) = Num (nth (Z.to_nat z) sorted nan).
Proof.
  intros H. unfold index.
  destruct (Z.ltb_spec z 0); [lia|].
  destruct (nth_error sorted (Z.to_nat z)) as [x|] eqn:E.
  - erewrite nth_error_nth by eassumption. reflexivity.
  - apply nth_error_None in E. lia.
Qed.

End PercentileFacts.

(** C2: [percentile] returns NaN on the empty collection; on a
    collection of [N > 0] samples, when the ceiling of the product
    [p / 100 * N] (both operations in binary64, as the code computes
    them) is the integer [c], it returns the sample at index
    [clamp(c - 1, 0, N - 1)]; an infinite product selects the last or
    the first sample.  For the sorted samples 1, ..., 10 this gives
    p50 = 5, p90 = 9 and p99 = 10. *)
Theorem percentile_nearest_rank (sorted : list float) (p : float) :
  let N := Z.of_nat (List.length sorted) in
  let product := (p / 100 * JS.number_of_Z N)%float in
  Metrics.percentile [] p = Metrics.Num nan /\
  (forall c, sorted <> [] -> Metrics.Math_ceil product = Metrics.Fin c ->
     Metrics.percentile sorted p
     = Metrics.Num
         (nth (Z.to_nat (Spec.clamp (c - 1) 0 (N - 1))) sorted nan)) /\
  (sorted <> [] -> Metrics.Math_ceil product = Metrics.PosInf ->
     Metrics.percentile sorted p
     = Metrics.Num (nth (Z.to_nat (N - 1)) sorted nan)) /\
  (sorted <> [] -> Metrics.Math_ceil product = Metrics.NegInf ->
     Metrics.percentile sorted p = Metrics.Num (nth 0 sorted nan)) /\
  Metrics.percentile [1; 2; 3; 4; 5; 6; 7; 8; 9; 10]%float 50
    = Metrics.Num 5 /\
  Metrics.percentile [1; 2; 3; 4; 5; 6; 7; 8; 9; 10]%float 90
    = Metrics.Num 9 /\
  Metrics.percentile [1; 2; 3; 4; 5; 6; 7; 8; 9; 10]%float 99
    = Metrics.Num 10.
Proof.
  cbv zeta.
  assert (Hlen : sorted <> [] -> (0 < Z.of_nat (List.length sorted))%Z).
  { destruct sorted; [congruence | cbn [List.length]; lia]. }
  assert (Hne : sorted <> [] -> Nat.eqb (List.length sorted) 0 = false).
  { intros H. apply Nat.eqb_neq. specialize (Hlen H). lia. }
  split; [reflexivity|].
  split; [|split; [|split]].
  - intros c H Hc. specialize (Hlen H).
    unfold Metrics.percentile. rewrite (Hne H), Hc.
    cbn [Metrics.pred Metrics.Math_max Metrics.Math_min].
    rewrite min_max_clamp by lia.
    apply index_in_range.
    pose proof (@clamp_bounds (c - 1) (Z.of_nat (List.length sorted) - 1)).
    lia.
  - intros H Hc. specialize (Hlen H).
    unfold Metrics.percentile. rewrite (Hne H), Hc.
    cbn [Metrics.pred Metrics.Math_max Metrics.Math_min].
    apply index_in_range. lia.
  - intros H Hc. specialize (Hlen H).
    unfold Metrics.percentile. rewrite (Hne H), Hc.
    cbn [Metrics.pred Metrics.Math_max Metrics.Math_min].
    rewrite Z.min_r by lia.
    apply (@index_in_range sorted 0%Z). lia.
  - repeat split; vm_compute; reflexivity.
Qed.

Lemma percentile_nearest_rank_witness :
  Metrics.percentile [3; 5; 8; 13]%float 75
  = Metrics.Num (nth (Z.to_nat (Spec.clamp (3 - 1) 0 (4 - 1)))
                     [3; 5; 8; 13]%float nan).
Proof.
  apply (proj1 (proj2 (percentile_nearest_rank [3; 5; 8; 13]%float 75))).
  - discriminate.
  - vm_compute. reflexivity.
Defined.

(* ================================================================== *)
(** ** The worker pool: invariants of the later revision *)
(* ================================================================== *)

Section ListFacts.

Import JS Common.

Lemma Array_pop_none {A} (q : list A) : Array_pop q = None -> q = [].
Proof.
  unfold Array_pop. destruct (rev q) eqn:E; [|discriminate].
  intros _. rewrite <- (rev_involutive q), E. reflexivity.
Qed.

Lemma Array_pop_some {A} (q q' : list A) (x : A) :
  Array_pop q = Some (x, q') -> q = q' ++ [x].
Proof.
  unfold Array_pop. destruct (rev q) eqn:E; [discriminate|].
  intros H. injection H as <- <-.
  rewrite <- (rev_involutive q), E. reflexivity.
Qed.

Lemma set_nth_length {A} (l : list A) :
  forall n x, List.length (set_nth n x l) = List.length l.
Proof.
  induction l as [|y l IH]; intros [|n] x; cbn; auto.
Qed.

(** Replacing the [n]-th element exchanges its contribution to any
    count over a [flat_map]. *)
Lemma count_flat_map_set_nth {A} (f : A -> list nat) (d : A) (l : list A) :
  forall n y x, n < List.length l ->
    Spec.count (flat_map f (set_nth n y l)) x + Spec.count (f (nth n l d)) x
    = Spec.count (flat_map f l) x + Spec.count (f y) x.
Proof.
  induction l as [|z l IH]; intros [|n] y x H; cbn in *; try lia.
  - rewrite !count_occ_app. lia.
  - rewrite !count_occ_app. specialize (IH n y x). lia.
Qed.

Lemma list_sum_set_nth {A} (f : A -> nat) (d : A) (l : list A) :
  forall n y, n < List.length l ->
    list_sum (map f (set_nth n y l)) + f (nth n l d)
    = list_sum (map f l) + f y.
Proof.
  induction l as [|z l IH]; intros [|n] y H; cbn [List.length] in H;
    try lia; cbn [set_nth map nth];
    change (list_sum (?a :: ?r)) with (a + list_sum r).
  - lia.
  - specialize (IH n y). lia.
Qed.

Lemma In_set_nth {A} (l : list A) :
  forall n y x, In x (set_nth n y l) -> x = y \/ In x l.
Proof.
  induction l as [|z l IH]; intros [|n] y x H; cbn in *; auto.
  - destruct H as [H|H]; auto.
  - destruct H as [H|H]; auto. destruct (IH _ _ _ H); auto.
Qed.

Lemma Forall_set_nth {A} (P : A -> Prop) (l : list A) :
  forall n y, Forall P l -> P y -> Forall P (set_nth n y l).
Proof.
  intros n y Hl Hy. apply Forall_forall. intros x Hx.
  destruct (In_set_nth _ _ _ _ Hx) as [->|Hin]; [assumption|].
  rewrite Forall_forall in Hl. auto.
Qed.

Lemma count_In (l : list nat) (x : nat) : In x l <-> 0 < Spec.count l x.
Proof. apply count_occ_In. Qed.

End ListFacts.

Section HistoryFacts.

Import Common Spec.

Lemma counted_app h h' : counted (h ++ h') = counted h ++ counted h'.
Proof. apply flat_map_app. Qed.

Lemma successes_app h h' : successes (h ++ h') = successes h ++ successes h'.
Proof. apply flat_map_app. Qed.

Lemma failures_app h h' : failures (h ++ h') = failures h ++ failures h'.
Proof. apply flat_map_app. Qed.

Lemma claims_app h h' : claims (h ++ h') = claims h ++ claims h'.
Proof. apply flat_map_app. Qed.

Lemma sampled_app h h' : sampled (h ++ h') = sampled h ++ sampled h'.
Proof. apply flat_map_app. Qed.

Lemma invoked_app h h' : invoked (h ++ h') = invoked h ++ invoked h'.
Proof. apply flat_map_app. Qed.

End HistoryFacts.

Create Rewrite HintDb history.

#[local] Hint Rewrite counted_app successes_app failures_app claims_app
  sampled_app invoked_app : history.

(** Unfold the store updates and read the history of the result. *)
Ltac store_simpl :=
  cbn [Bench.queue Bench.ok Bench.fail Bench.errors Bench.callDurations
       Bench.rand Bench.console Bench.invocations Bench.history
       Bench.set_queue Bench.incr_ok Bench.incr_fail Bench.push_error
       Bench.push_duration Bench.set_rand Bench.log Bench.incr_invocations
       Bench.record Bench.catch Bench.mismatch Bench.success Bench.sample
       fst snd] in *.

(** Split conjunctions, and nothing else. *)
Ltac conjuncts := repeat match goal with |- _ /\ _ => split end.

Ltac history_simpl :=
  autorewrite with history in *;
  cbn [Spec.counted Spec.successes Spec.failures Spec.claims Spec.sampled
       Spec.invoked flat_map app map fst snd] in *;
  rewrite ?app_nil_r in *.

Section RunnerFacts.

Import JS Common Spec.

Variable mode : string.
Variable progress : bool.
Variable scrypt : primitive.
Variable elapsed : nat -> float.
Variable cfg : params.

#[local] Abbreviation Core := (Spec.Core scrypt elapsed cfg).
#[local] Abbreviation awaits := (Spec.awaits scrypt elapsed cfg).
#[local] Abbreviation completed := (Spec.completed scrypt elapsed cfg).
#[local] Abbreviation runOnce := (Bench.runOnce mode scrypt elapsed cfg).
#[local] Abbreviation loop := (Bench.loop mode progress scrypt elapsed cfg).
#[local] Abbreviation resume :=
  (Bench.resume mode progress scrypt elapsed cfg).

(** [runOnce] written out. *)
Lemma runOnce_eq (i : nat) (s : Bench.store) :
  exists pwd salt t,
    mkInput mode i (Bench.rand s) = (pwd, salt, t) /\
    runOnce i s
    = (Bench.invocations s,
       promise_of elapsed cfg
         (scrypt (Bench.invocations s) pwd salt (keyLen cfg) (opts cfg))
         i (Bench.invocations s),
       Bench.record (Invoked (Bench.invocations s) i pwd salt)
         (Bench.incr_invocations (Bench.set_rand t s))).
Proof.
  unfold Bench.runOnce.
  destruct (mkInput mode i (Bench.rand s)) as [[pwd salt] t].
  exists pwd, salt, t. split; [reflexivity|].
  f_equal. f_equal.
  assert (variants (variant_of cfg) scrypt (Bench.invocations s) pwd salt
            (keyLen cfg) (opts cfg)
          = adapt (scrypt (Bench.invocations s) pwd salt
                     (keyLen cfg) (opts cfg))) as ->.
  { destruct (variant_of cfg); reflexivity. }
  unfold promise_of, adapt.
  destruct (scrypt (Bench.invocations s) pwd salt (keyLen cfg) (opts cfg))
    as [[e|] dk [|]|];
    rewrite ?withTimeout_first, ?withTimeout_late, ?withTimeout_never;
    reflexivity.
Qed.

Lemma completed_mono (h evs : list hevent) (k : nat) (ms : float) :
  completed h k ms -> completed (h ++ evs) k ms.
Proof.
  intros [Hms (i & pwd & salt & dk & Hin & Hb)]. split; [exact Hms|].
  exists i, pwd, salt, dk. split; [|exact Hb].
  apply in_or_app. now left.
Qed.

Lemma awaits_mono (h evs : list hevent) (wk : Bench.worker) :
  awaits h wk -> awaits (h ++ evs) wk.
Proof.
  destruct wk as [i k pr|i a k pr|]; cbn; auto;
    intros (pwd & salt & Hin & Hpr); exists pwd, salt;
    (split; [apply in_or_app; now left | exact Hpr]).
Qed.

(** An invocation leaves the counters alone and is pending afterwards. *)
Lemma core_runOnce s held pending i k pr s' :
  Core s held pending -> runOnce i s = (k, pr, s') ->
  Core s' held (k :: pending) /\
  (exists pwd salt,
      Bench.history s' = Bench.history s ++ [Invoked k i pwd salt] /\
      pr = promise_of elapsed cfg
             (scrypt k pwd salt (keyLen cfg) (opts cfg)) i k) /\
  Bench.queue s' = Bench.queue s.
Proof.
  intros C H. destruct (runOnce_eq i s) as (pwd & salt & t & _ & E).
  rewrite E in H. injection H as <- <- <-.
  split; [|split; [exists pwd, salt; split; reflexivity | reflexivity]].
  destruct C. constructor; store_simpl; history_simpl; auto.
  - intros k ms Hin. apply completed_mono. auto.
  - intros x. cbn [count_occ].
    destruct (Nat.eq_dec (Bench.invocations s) x) as [<-|Hne];
      [|apply core_ids0].
    assert (~ In (Bench.invocations s)
              (map fst (sampled (Bench.history s)) ++ pending)) as Hn.
    { intros Hin. apply core_fresh0 in Hin. lia. }
    rewrite (count_occ_not_In Nat.eq_dec) in Hn.
    rewrite count_occ_app in Hn. lia.
  - intros x Hin. apply in_app_or in Hin.
    destruct Hin as [Hin|[<-|Hin]]; [| lia |];
      (assert (x < Bench.invocations s); [|lia]);
      apply core_fresh0; apply in_or_app; auto.
  - rewrite core_invoked0, seq_S. reflexivity.
Qed.

(** A pending invocation may be forgotten. *)
Lemma core_drop s held pending k :
  Core s held (k :: pending) -> Core s held pending.
Proof.
  intros C. destruct C. constructor; auto.
  - intros x. specialize (core_ids0 x). cbn [count_occ] in core_ids0.
    destruct (Nat.eq_dec k x); lia.
  - intros x Hin. apply core_fresh0. apply in_app_or in Hin.
    apply in_or_app. destruct Hin; [left | right; right]; assumption.
Qed.

(** The sample of a completed pending invocation is appended. *)
Lemma core_sample s held pending k ms :
  Core s held (k :: pending) -> completed (Bench.history s) k ms ->
  Core (Bench.sample k ms s) held pending.
Proof.
  intros C Hc. destruct C. constructor; store_simpl; history_simpl; auto.
  - rewrite core_samples0, map_app. reflexivity.
  - intros k' ms' Hin. apply completed_mono. apply in_app_or in Hin.
    destruct Hin as [Hin|[Heq|[]]]; [auto|]. injection Heq as <- <-. exact Hc.
  - intros x. specialize (core_ids0 x).
    rewrite map_app, count_occ_app. cbn [map fst count_occ] in *.
    destruct (Nat.eq_dec k x); lia.
  - intros x Hin. apply core_fresh0. rewrite map_app in Hin.
    apply in_or_app. apply in_app_or in Hin.
    destruct Hin as [Hin|Hin]; [|now right; right].
    apply in_app_or in Hin. destruct Hin as [Hin|[<-|[]]];
      [now left | right; now left].
Qed.

(** Counting a held index, as a success or as a failure. *)
Lemma core_success s held pending i :
  Core s (i :: held) pending -> Core (Bench.success i s) held pending.
Proof.
  intros C. destruct C. constructor; store_simpl; history_simpl; auto.
  - intros x. specialize (core_once0 x). rewrite count_occ_app.
    cbn [count_occ] in *. destruct (Nat.eq_dec i x); lia.
  - rewrite length_app. cbn [List.length]. lia.
  - intros k ms Hin. apply completed_mono. auto.
Qed.

Lemma core_failure s held pending i e :
  Core s (i :: held) pending ->
  Core (Bench.record (Counted i false)
          (Bench.push_error e (Bench.incr_fail s))) held pending.
Proof.
  intros C. destruct C. constructor; store_simpl; history_simpl; auto.
  - intros x. specialize (core_once0 x). rewrite count_occ_app.
    cbn [count_occ] in *. destruct (Nat.eq_dec i x); lia.
  - rewrite length_app. cbn [List.length]. lia.
  - rewrite length_app. cbn [List.length]. lia.
  - intros k ms Hin. apply completed_mono. auto.
Qed.

Lemma core_log s held pending line :
  Core s held pending -> Core (Bench.log line s) held pending.
Proof. intros C. destruct C. constructor; store_simpl; auto. Qed.

(** Popping an index moves it from the queue to the worker. *)
Lemma core_claim s held pending w i q :
  Core s held pending -> Bench.queue s = q ++ [i] ->
  Core (Bench.record (Claimed w i) (Bench.set_queue q s)) (i :: held) pending.
Proof.
  intros C Hq. destruct C. constructor; store_simpl; history_simpl; auto.
  - intros x. specialize (core_once0 x).
    rewrite Hq, count_occ_app in core_once0.
    cbn [count_occ] in *. destruct (Nat.eq_dec i x); lia.
  - rewrite <- core_claims0, Hq, map_app, rev_app_distr, <- app_assoc.
    reflexivity.
  - intros k ms Hin. apply completed_mono. auto.
Qed.

(** What one pass from the loop test to the next [await] does. *)
Lemma core_loop w s held pending wk s' :
  Core s held pending -> loop w s = (wk, s') ->
  Core s' (idx wk ++ held) (ids wk ++ pending) /\
  awaits (Bench.history s') wk /\
  (exists evs, Bench.history s' = Bench.history s ++ evs) /\
  2 * List.length (Bench.queue s') + weight wk
  = 2 * List.length (Bench.queue s) /\
  (wk = Bench.Returned -> Bench.queue s' = []).
Proof.
  intros C. unfold Bench.loop.
  destruct (Array_pop (Bench.queue s)) as [[i q]|] eqn:Hpop.
  - apply Array_pop_some in Hpop.
    pose proof (@core_claim _ _ _ w _ _ C Hpop) as C1.
    set (s1 := Bench.record (Claimed w i) (Bench.set_queue q s)) in *.
    set (s2 := if progress && Nat.eqb (i mod logEvery (iterations cfg)) 0
               then Bench.log (progress_line (variant_of cfg) w i) s1
               else s1).
    assert (C2 : Core s2 (i :: held) pending).
    { subst s2. destruct (progress && _); [apply core_log|]; exact C1. }
    assert (H2 : Bench.history s2 = Bench.history s ++ [Claimed w i]
                 /\ Bench.queue s2 = q).
    { subst s2 s1. destruct (progress && _); split; reflexivity. }
    destruct H2 as [Hh2 Hq2].
    destruct (runOnce i s2) as [[k pr] s3] eqn:Hrun.
    intros H. injection H as <- <-.
    edestruct core_runOnce as (C3 & (pwd & salt & Hh3 & Hpr) & Hq3);
      [exact C2 | exact Hrun |].
    cbn [idx ids weight app]. conjuncts.
    + exact C3.
    + exists pwd, salt. split; [|exact Hpr].
      rewrite Hh3. apply in_or_app. right. now left.
    + eexists. rewrite Hh3, Hh2, <- app_assoc. reflexivity.
    + rewrite Hq3, Hq2, Hpop, length_app. cbn [List.length]. lia.
    + discriminate.
  - apply Array_pop_none in Hpop.
    intros H. injection H as <- <-. cbn [idx ids weight app].
    conjuncts;
      [exact C | exact I | exists []; now rewrite app_nil_r | lia | auto].
Qed.

Lemma promise_fulfilled b i k a :
  promise_of elapsed cfg b i k = Some (Fulfilled a) ->
  exists dk, b = CallsBack None dk false /\ a = (dk, elapsed k).
Proof.
  unfold promise_of. destruct b as [[e|] dk [|]|]; try discriminate.
  intros H. injection H as <-. now exists dk.
Qed.

Lemma promise_settled b i k : promise_of elapsed cfg b i k <> None.
Proof. unfold promise_of. destruct b as [[e|] dk [|]|]; discriminate. Qed.

(** The end of a loop body: the index has been counted in [s1], and
    the worker goes back to the loop test. *)
Lemma core_next w s s1 held pending wk' s' :
  Core s1 held pending ->
  (exists evs, Bench.history s1 = Bench.history s ++ evs) ->
  Bench.queue s1 = Bench.queue s ->
  loop w s1 = (wk', s') ->
  Core s' (idx wk' ++ held) (ids wk' ++ pending) /\
  awaits (Bench.history s') wk' /\
  (exists evs, Bench.history s' = Bench.history s ++ evs) /\
  2 * List.length (Bench.queue s') + weight wk'
  = 2 * List.length (Bench.queue s) /\
  (wk' = Bench.Returned -> Bench.queue s' = []).
Proof.
  intros C1 (evs & Hh) Hq Hloop.
  destruct (core_loop _ C1 Hloop) as (C' & Ha & (evs' & Hh') & Hm & Hr).
  conjuncts; auto.
  - exists (evs ++ evs'). rewrite Hh', Hh, app_assoc. reflexivity.
  - rewrite <- Hq. exact Hm.
Qed.

(** What resuming a worker does to the invariant and to the number of
    resumptions still to come. *)
Lemma core_resume w wk s held pending wk' s' :
  Core s (idx wk ++ held) (ids wk ++ pending) ->
  awaits (Bench.history s) wk ->
  resume w wk s = (wk', s') ->
  Core s' (idx wk' ++ held) (ids wk' ++ pending) /\
  awaits (Bench.history s') wk' /\
  (exists evs, Bench.history s' = Bench.history s ++ evs) /\
  2 * List.length (Bench.queue s') + weight wk'
    + (if Bench.settled_await wk then 1 else 0)
  <= 2 * List.length (Bench.queue s) + weight wk /\
  (wk' = Bench.Returned -> wk = Bench.Returned \/ Bench.queue s' = []) /\
  List.length (Bench.queue s') <= List.length (Bench.queue s).
Proof.
  intros C Ha H.
  assert (Hstay : (wk', s') = (wk, s) ->
    Core s' (idx wk' ++ held) (ids wk' ++ pending) /\
    awaits (Bench.history s') wk' /\
    (exists evs, Bench.history s' = Bench.history s ++ evs) /\
    2 * List.length (Bench.queue s') + weight wk' <=
    2 * List.length (Bench.queue s) + weight wk /\
    (wk' = Bench.Returned -> wk = Bench.Returned \/ Bench.queue s' = []) /\
    List.length (Bench.queue s') <= List.length (Bench.queue s)).
  { intros E. injection E as -> ->. conjuncts; auto.
    exists []. now rewrite app_nil_r. }
  destruct wk as [i k [[a|e]|]|i a k [[b|e]|]|];
    cbn [Bench.resume Bench.settled_await idx ids weight app] in *;
    try (symmetry in H; specialize (Hstay H); rewrite Nat.add_0_r; tauto).
  - (* first call fulfilled *)
    destruct Ha as (pwd & salt & Hin & Hpr).
    symmetry in Hpr. apply promise_fulfilled in Hpr.
    destruct Hpr as (dk & Hb & ->). cbn [snd] in H.
    assert (Hc : completed (Bench.history s) k (elapsed k)).
    { split; [reflexivity|]. now exists i, pwd, salt, dk. }
    pose proof (core_sample C Hc) as C1.
    destruct (String.eqb mode "sequential").
    + destruct (runOnce i (Bench.sample k (elapsed k) s))
        as [[k2 pr2] s2] eqn:Hrun.
      injection H as <- <-.
      edestruct core_runOnce as (C2 & (pwd2 & salt2 & Hh2 & Hpr2) & Hq2);
        [exact C1 | exact Hrun |].
      cbn [idx ids weight app]. conjuncts.
      * exact C2.
      * exists pwd2, salt2. split; [|exact Hpr2].
        rewrite Hh2. apply in_or_app. right. now left.
      * eexists. rewrite Hh2. store_simpl. rewrite <- app_assoc. reflexivity.
      * rewrite Hq2. store_simpl. lia.
      * discriminate.
      * rewrite Hq2. store_simpl. lia.
    + edestruct core_next as (C' & Ha' & Hh' & Hm & Hr);
        [apply core_success; exact C1 | | | exact H |].
      * eexists. store_simpl. rewrite <- app_assoc. reflexivity.
      * reflexivity.
      * conjuncts; auto; lia.
  - (* first call rejected *)
    edestruct core_next as (C' & Ha' & Hh' & Hm & Hr);
      [apply core_failure; apply core_drop in C; exact C | | | exact H |].
    + eexists. store_simpl. reflexivity.
    + reflexivity.
    + conjuncts; auto; lia.
  - (* second call fulfilled *)
    destruct Ha as (pwd & salt & Hin & Hpr).
    symmetry in Hpr. apply promise_fulfilled in Hpr.
    destruct Hpr as (dk & Hb & ->). cbn [snd fst] in H.
    assert (Hc : completed (Bench.history s) k (elapsed k)).
    { split; [reflexivity|]. now exists i, pwd, salt, dk. }
    pose proof (core_sample C Hc) as C1.
    destruct (negb (Buffer_equals (fst a) dk)).
    + edestruct core_next as (C' & Ha' & Hh' & Hm & Hr);
        [apply core_failure; exact C1 | | | exact H |].
      * eexists. store_simpl. rewrite <- app_assoc. reflexivity.
      * reflexivity.
      * conjuncts; auto; lia.
    + edestruct core_next as (C' & Ha' & Hh' & Hm & Hr);
        [apply core_success; exact C1 | | | exact H |].
      * eexists. store_simpl. rewrite <- app_assoc. reflexivity.
      * reflexivity.
      * conjuncts; auto; lia.
  - (* second call rejected *)
    edestruct core_next as (C' & Ha' & Hh' & Hm & Hr);
      [apply core_failure; apply core_drop in C; exact C | | | exact H |].
    + eexists. store_simpl. reflexivity.
    + reflexivity.
    + conjuncts; auto; lia.
Qed.

(** [Core] reads the held indices and the pending invocations only
    through their counts. *)
Lemma core_equiv s held pending held' pending' :
  (forall x, count held x = count held' x) ->
  (forall x, count pending x = count pending' x) ->
  Core s held pending -> Core s held' pending'.
Proof.
  intros Hh Hp C. destruct C. constructor; auto.
  - intros x. rewrite <- Hh. apply core_once0.
  - intros x. rewrite <- Hp. apply core_ids0.
  - intros x Hin. apply core_fresh0.
    apply in_or_app. apply in_app_or in Hin. destruct Hin as [Hin|Hin]; auto.
    right. apply count_In. rewrite Hp. now apply count_In.
Qed.

#[local] Abbreviation Inv := (Spec.Inv scrypt elapsed cfg).
#[local] Abbreviation step := (Bench.step mode progress scrypt elapsed cfg).
#[local] Abbreviation spawn := (Bench.spawn mode progress scrypt elapsed cfg).

Lemma resumable_spec (pool : list Bench.worker) (w : nat) :
  In w (Bench.resumable pool) ->
  w < List.length pool /\
  Bench.settled_await (nth w pool Bench.Returned) = true.
Proof.
  unfold Bench.resumable. rewrite filter_In, in_seq. intros [H1 H2].
  split; [lia | exact H2].
Qed.

(** A resumption keeps the invariant and uses up one unit of the
    measure when the worker could be resumed. *)
Lemma step_inv (w : nat) (st : list Bench.worker * Bench.store) :
  Inv st -> w < List.length (fst st) ->
  Inv (step w st) /\
  measure (step w st)
    + (if Bench.settled_await (nth w (fst st) Bench.Returned) then 1 else 0)
  <= measure st.
Proof.
  destruct st as [pool s]. cbn [fst snd]. intros [C A R] Hw.
  cbn [fst snd] in *. unfold Bench.step. cbn [fst snd].
  set (wk := nth w pool Bench.Returned) in *.
  destruct (resume w wk s) as [wk' s'] eqn:Hres.
  assert (Hwk : In wk pool) by (apply nth_In; exact Hw).
  assert (Awk : awaits (Bench.history s) wk).
  { rewrite Forall_forall in A. auto. }
  set (held := flat_map idx (set_nth w Bench.Returned pool)).
  set (pending := flat_map ids (set_nth w Bench.Returned pool)).
  assert (C0 : Core s (idx wk ++ held) (ids wk ++ pending)).
  { eapply core_equiv; [| |exact C]; intros x; rewrite count_occ_app.
    - pose proof (count_flat_map_set_nth idx Bench.Returned pool
                    Bench.Returned x Hw) as E.
      fold wk in E. cbn [idx count_occ] in E. subst held. lia.
    - pose proof (count_flat_map_set_nth ids Bench.Returned pool
                    Bench.Returned x Hw) as E.
      fold wk in E. cbn [ids count_occ] in E. subst pending. lia. }
  destruct (core_resume _ _ _ _ C0 Awk Hres)
    as (C' & A' & (evs & Hh) & Hm & Hr & Hq).
  split.
  - constructor; cbn [fst snd].
    + eapply core_equiv; [| |exact C']; intros x; rewrite count_occ_app.
      * pose proof (count_flat_map_set_nth idx Bench.Returned pool
                      Bench.Returned x Hw) as E.
        pose proof (count_flat_map_set_nth idx Bench.Returned pool
                      wk' x Hw) as E'.
        fold wk in E, E'. cbn [idx count_occ] in E. subst held. lia.
      * pose proof (count_flat_map_set_nth ids Bench.Returned pool
                      Bench.Returned x Hw) as E.
        pose proof (count_flat_map_set_nth ids Bench.Returned pool
                      wk' x Hw) as E'.
        fold wk in E, E'. cbn [ids count_occ] in E. subst pending. lia.
    + apply Forall_set_nth; [|exact A'].
      eapply Forall_impl; [|exact A]. intros wk0 H0.
      rewrite Hh. now apply awaits_mono.
    + intros Hne Hin. apply In_set_nth in Hin.
      assert (Hq0 : Bench.queue s <> []).
      { intros E. rewrite E in Hq. destruct (Bench.queue s'); cbn in Hq;
          [congruence | lia]. }
      destruct Hin as [E|Hin]; [|exact (R Hq0 Hin)].
      symmetry in E. destruct (Hr E) as [E'|E']; [|congruence].
      apply (R Hq0). rewrite <- E'. exact Hwk.
  - unfold measure. cbn [fst snd].
    pose proof (list_sum_set_nth weight Bench.Returned pool wk' Hw) as E.
    fold wk in E. lia.
Qed.

Lemma core_init (t : float) : Core (Bench.init cfg t) [] [].
Proof.
  constructor; cbn; unfold range; auto using app_nil_r; try lia;
    intros; contradiction.
Qed.

(** Starting the workers keeps the invariant and moves indices from
    the queue to the workers without changing the measure. *)
Lemma spawn_core (ws : list nat) :
  forall s held pending pool s',
    Core s held pending -> spawn ws s = (pool, s') ->
    Core s' (flat_map idx pool ++ held) (flat_map ids pool ++ pending) /\
    Forall (awaits (Bench.history s')) pool /\
    (exists evs, Bench.history s' = Bench.history s ++ evs) /\
    2 * List.length (Bench.queue s') + list_sum (map weight pool)
    = 2 * List.length (Bench.queue s) /\
    (In Bench.Returned pool -> Bench.queue s' = []) /\
    List.length pool = List.length ws.
Proof.
  induction ws as [|w ws IH]; intros s held pending pool s' C H;
    cbn [Bench.spawn] in H.
  - injection H as <- <-. cbn. conjuncts; auto; try lia;
      try contradiction.
    exists []. now rewrite app_nil_r.
  - destruct (loop w s) as [wk s1] eqn:Hloop.
    destruct (spawn ws s1) as [wks s2] eqn:Hsp.
    injection H as <- <-.
    destruct (core_loop _ C Hloop) as (C1 & A1 & (evs1 & Hh1) & Hm1 & Hr1).
    destruct (IH _ _ _ _ _ C1 Hsp) as (C2 & A2 & (evs2 & Hh2) & Hm2 & Hr2 & Hl).
    cbn [flat_map map List.length].
    change (list_sum (weight wk :: map weight wks))
      with (weight wk + list_sum (map weight wks)).
    conjuncts.
    + eapply core_equiv; [| |exact C2]; intros x;
        rewrite !count_occ_app; lia.
    + constructor; [|exact A2]. rewrite Hh2. now apply awaits_mono.
    + exists (evs1 ++ evs2). rewrite Hh2, Hh1, app_assoc. reflexivity.
    + lia.
    + intros [E|Hin]; [|auto].
      specialize (Hr1 E). rewrite Hr1 in Hm2. cbn [List.length] in Hm2.
      destruct (Bench.queue s2); [reflexivity | cbn [List.length] in Hm2; lia].
    + now rewrite Hl.
Qed.

Lemma spawn_inv (t : float) :
  let st := spawn (range (concurrency cfg)) (Bench.init cfg t) in
  Inv st /\ measure st = 2 * iterations cfg /\
  List.length (fst st) = concurrency cfg.
Proof.
  cbv zeta.
  destruct (spawn (range (concurrency cfg)) (Bench.init cfg t))
    as [pool s] eqn:Hsp.
  destruct (spawn_core _ (core_init t) Hsp) as (C & A & _ & Hm & Hr & Hl).
  rewrite !app_nil_r in C. cbn [fst snd]. conjuncts.
  - constructor; cbn [fst snd]; auto.
  - unfold measure. cbn [fst snd]. rewrite Hm. cbn [Bench.init Bench.queue].
    unfold range. now rewrite length_seq.
  - rewrite Hl. unfold range. apply length_seq.
Qed.

#[local] Abbreviation run := (Bench.run mode progress scrypt elapsed cfg).

Lemma step_length (w : nat) (st : list Bench.worker * Bench.store) :
  List.length (fst (step w st)) = List.length (fst st).
Proof.
  unfold Bench.step.
  destruct (resume w (nth w (fst st) Bench.Returned) (snd st)).
  cbn [fst]. apply set_nth_length.
Qed.

(** With fuel for every resumption still to come, the pool runs until
    no worker can be resumed. *)
Lemma run_inv (sched : nat -> nat) (fuel : nat) :
  forall n st, Inv st -> measure st <= fuel ->
    Inv (run sched fuel n st) /\
    Bench.resumable (fst (run sched fuel n st)) = [] /\
    List.length (fst (run sched fuel n st)) = List.length (fst st).
Proof.
  induction fuel as [|fuel IH]; intros n st HI Hm; cbn [Bench.run].
  - conjuncts; auto.
    destruct (Bench.resumable (fst st)) as [|w0 ws] eqn:E; [reflexivity|].
    assert (Hin : In w0 (Bench.resumable (fst st))) by (rewrite E; now left).
    apply resumable_spec in Hin. destruct Hin as [Hw Hs].
    destruct (step_inv HI Hw) as [_ Hd]. rewrite Hs in Hd. lia.
  - destruct (Bench.resumable (fst st)) as [|w0 ws] eqn:E; [auto|].
    set (w := nth (sched n mod List.length (w0 :: ws)) (w0 :: ws) w0).
    assert (Hin : In w (Bench.resumable (fst st))).
    { rewrite E. apply nth_In. apply Nat.mod_upper_bound. discriminate. }
    apply resumable_spec in Hin. destruct Hin as [Hw Hs].
    destruct (step_inv HI Hw) as [HI' Hd]. rewrite Hs in Hd.
    destruct (IH (S n) (step w st) HI') as (H1 & H2 & H3); [lia|].
    conjuncts; auto. rewrite H3. apply step_length.
Qed.

(** A worker that is suspended under the invariant can be resumed. *)
Lemma awaits_settled (h : list hevent) (wk : Bench.worker) :
  awaits h wk -> wk <> Bench.Returned -> Bench.settled_await wk = true.
Proof.
  destruct wk as [i k pr|i a k pr|]; cbn; try congruence;
    intros (pwd & salt & _ & ->) _;
    destruct (promise_of elapsed cfg
                (scrypt k pwd salt (keyLen cfg) (opts cfg)) i k) eqn:E;
    try reflexivity; now apply promise_settled in E.
Qed.

Lemma quiet_joined (st : list Bench.worker * Bench.store) :
  Inv st -> Bench.resumable (fst st) = [] ->
  Forall (fun wk => wk = Bench.Returned) (fst st).
Proof.
  intros [_ A _] Hq. apply Forall_forall. intros wk Hin.
  destruct (In_nth _ _ Bench.Returned Hin) as (w & Hw & Hnth).
  destruct wk as [i k pr|i a k pr|]; [exfalso|exfalso|reflexivity].
  all: rewrite Forall_forall in A; specialize (A _ Hin);
    apply awaits_settled in A; [|discriminate];
    assert (Hr : In w (Bench.resumable (fst st)));
    [ unfold Bench.resumable; rewrite filter_In, in_seq, Hnth;
      split; [lia | exact A]
    | rewrite Hq in Hr; destruct Hr ].
Qed.

#[local] Abbreviation drain :=
  (Bench.drain mode progress scrypt elapsed cfg).

(** The batch always drains: in the final state the invariant holds
    and every worker has returned. *)
Lemma drain_final (sched : nat -> nat) (t : float) :
  Inv (drain sched t) /\
  Forall (fun wk => wk = Bench.Returned) (fst (drain sched t)) /\
  List.length (fst (drain sched t)) = concurrency cfg.
Proof.
  unfold Bench.drain.
  destruct (spawn_inv t) as (HI & Hm & Hl).
  destruct (@run_inv sched (2 * iterations cfg) 0 _ HI) as (HI' & Hq & Hl');
    [lia|].
  conjuncts; auto.
  - apply quiet_joined; assumption.
  - rewrite Hl'. exact Hl.
Qed.

Lemma returned_joined (pool : list Bench.worker) :
  Forall (fun wk => wk = Bench.Returned) pool ->
  Bench.joined pool = true /\ flat_map idx pool = [] /\ flat_map ids pool = [].
Proof.
  induction 1 as [|wk pool -> _ (IH1 & IH2 & IH3)]; cbn; auto.
Qed.

Lemma outcomes_length (h : list hevent) :
  List.length (successes h) + List.length (failures h)
  = List.length (counted h).
Proof.
  induction h as [|ev h IH]; [reflexivity|].
  change (ev :: h) with ([ev] ++ h). history_simpl.
  rewrite !length_app.
  destruct ev as [w i|k i pwd salt|k ms|i [|]]; cbn; lia.
Qed.

(** What the invariant says once every worker has returned. *)
Lemma final_counts (st : list Bench.worker * Bench.store) :
  Inv st -> Forall (fun wk => wk = Bench.Returned) (fst st) ->
  0 < List.length (fst st) ->
  Bench.queue (snd st) = [] /\
  Bench.ok (snd st) + Bench.fail (snd st) = iterations cfg /\
  Permutation (counted (Bench.history (snd st))) (seq 0 (iterations cfg)) /\
  map snd (claims (Bench.history (snd st))) = rev (seq 0 (iterations cfg)).
Proof.
  intros [C A R] HF Hpos.
  destruct (returned_joined HF) as (_ & Hi & Hk). rewrite Hi, Hk in C.
  assert (Hq : Bench.queue (snd st) = []).
  { destruct (Bench.queue (snd st)) as [|x q] eqn:E; [reflexivity|].
    exfalso. apply R; [discriminate|].
    destruct (fst st) as [|wk pool]; [cbn in Hpos; lia|].
    inversion HF; subst. now left. }
  destruct C. rewrite Hq in *.
  assert (HP : Permutation (counted (Bench.history (snd st)))
                           (seq 0 (iterations cfg))).
  { apply (Permutation_count_occ Nat.eq_dec). intros x.
    specialize (core_once0 x). cbn [count_occ] in core_once0. lia. }
  conjuncts; auto.
  - rewrite core_ok0, core_fail0, outcomes_length.
    rewrite (Permutation_length HP). apply length_seq.
  - cbn [app] in core_claims0. rewrite <- core_claims0.
    now rewrite rev_involutive.
Qed.

(** The stable insertion sort rearranges and nothing more. *)
Lemma insert_perm (x : float) (l : list float) :
  Permutation (Metrics.insert x l) (x :: l).
Proof.
  induction l as [|y l IH]; cbn [Metrics.insert]; [reflexivity|].
  destruct (0 <? x - y)%float; [|reflexivity].
  rewrite IH. apply perm_swap.
Qed.

Lemma sort_perm (l : list float) : Permutation (Metrics.sort l) l.
Proof.
  induction l as [|x l IH]; cbn; [constructor|].
  rewrite insert_perm. now constructor.
Qed.

(** The loop test and the next invocation leave the counters alone. *)
Lemma loop_counters (w : nat) (s s' : Bench.store) (wk : Bench.worker) :
  loop w s = (wk, s') ->
  Bench.ok s' = Bench.ok s /\ Bench.fail s' = Bench.fail s /\
  Bench.errors s' = Bench.errors s /\
  Bench.callDurations s' = Bench.callDurations s /\
  (wk = Bench.Returned <-> Bench.queue s = []) /\
  (forall i k pr, wk = Bench.AwaitFirst i k pr ->
                  Bench.queue s = Bench.queue s' ++ [i]) /\
  (forall i a k pr, wk <> Bench.AwaitSecond i a k pr).
Proof.
  unfold Bench.loop.
  destruct (Array_pop (Bench.queue s)) as [[i q]|] eqn:Hpop.
  - apply Array_pop_some in Hpop.
    match goal with
    | |- context [runOnce i ?s2] =>
        destruct (runOnce_eq i s2) as (pwd & salt & t & _ & E);
        assert (Hs2 : Bench.ok s2 = Bench.ok s /\ Bench.fail s2 = Bench.fail s
                      /\ Bench.errors s2 = Bench.errors s
                      /\ Bench.callDurations s2 = Bench.callDurations s
                      /\ Bench.queue s2 = q)
          by (destruct (progress && _); conjuncts; reflexivity)
    end.
    rewrite E. intros H. injection H as <- <-. store_simpl.
    destruct Hs2 as (-> & -> & -> & -> & ->). conjuncts; auto.
    + split; [discriminate|]. rewrite Hpop. intros H.
      now apply app_eq_nil in H.
    + intros i' k pr H. injection H as <- _ _. exact Hpop.
    + discriminate.
  - apply Array_pop_none in Hpop. intros H. injection H as <- <-.
    conjuncts; auto; try discriminate. tauto.
Qed.

End RunnerFacts.

(* ================================================================== *)
(** ** The two revisions run in lockstep *)
(* ================================================================== *)

Ltac v1_simpl :=
  cbn [BenchV1.queue BenchV1.ok BenchV1.fail BenchV1.errors BenchV1.rand
       BenchV1.console BenchV1.invocations BenchV1.set_queue BenchV1.incr_ok
       BenchV1.incr_fail BenchV1.push_error BenchV1.set_rand BenchV1.log
       BenchV1.incr_invocations BenchV1.catch BenchV1.mismatch] in *.

Section Lockstep.

Import JS Common Spec.

Variable mode : string.
Variable progress : bool.
Variable scrypt : primitive.
Variable elapsed : nat -> float.
Variable cfg : params.

Lemma Forall2_nth {A B} (R : A -> B -> Prop) (l1 : list A) (l2 : list B)
    (d1 : A) (d2 : B) :
  Forall2 R l1 l2 -> R d1 d2 -> forall n, R (nth n l1 d1) (nth n l2 d2).
Proof.
  intros H Hd. induction H as [|x y l1 l2 Hxy _ IH]; intros [|n]; cbn; auto.
Qed.

Lemma Forall2_set_nth {A B} (R : A -> B -> Prop) (l1 : list A) (l2 : list B)
    (x : A) (y : B) :
  Forall2 R l1 l2 -> R x y ->
  forall n, Forall2 R (set_nth n x l1) (set_nth n y l2).
Proof.
  intros H Hxy. induction H as [|x' y' l1 l2 Hxy' Hl IH]; intros [|n]; cbn;
    constructor; auto.
Qed.

Lemma same_store_sample s1 s2 k ms :
  same_store s1 s2 -> same_store s1 (Bench.sample k ms s2).
Proof. unfold same_store. store_simpl. tauto. Qed.

Lemma same_store_success s1 s2 i :
  same_store s1 s2 -> same_store (BenchV1.incr_ok s1) (Bench.success i s2).
Proof. unfold same_store. store_simpl. v1_simpl. intuition congruence. Qed.

Lemma same_store_catch s1 s2 i e1 e2 :
  same_store s1 s2 ->
  same_store (BenchV1.catch i e1 s1) (Bench.catch i e2 s2).
Proof.
  unfold same_store. store_simpl. v1_simpl. rewrite !map_app. cbn [map kind].
  intuition congruence.
Qed.

Lemma same_store_mismatch s1 s2 i dk1 dk2 a b :
  same_store s1 s2 ->
  same_store (BenchV1.mismatch i dk1 dk2 s1) (Bench.mismatch i a b s2).
Proof.
  unfold same_store. store_simpl. v1_simpl. rewrite !map_app. cbn [map kind].
  intuition congruence.
Qed.

(** The guard settles the same way under either label. *)
Lemma same_guard (op : Timeout.operation Buffer) (l1 l2 : string) (k : nat) :
  same_promise
    (Timeout.withTimeout op 60000 l1)
    (match Timeout.withTimeout op 60000 l2 with
     | Some (Fulfilled dk) => Some (Fulfilled (dk, elapsed k))
     | Some (Rejected e) => Some (Rejected e)
     | None => None
     end).
Proof.
  destruct op as [[dk|e]|[dk|e]|];
    rewrite ?withTimeout_first, ?withTimeout_late, ?withTimeout_never;
    cbn; auto.
Qed.

Lemma sim_runOnce i s1 s2 (l1 : string) :
  same_store s1 s2 ->
  exists k op s1' pr s2',
    BenchV1.runOnce mode scrypt cfg i s1 = (k, op, s1') /\
    Bench.runOnce mode scrypt elapsed cfg i s2 = (k, pr, s2') /\
    same_store s1' s2' /\
    same_promise (Timeout.withTimeout op 60000 l1) pr.
Proof.
  intros (Hq & Hok & Hf & He & Hr & Hc & Hi).
  unfold BenchV1.runOnce, Bench.runOnce. rewrite Hr, Hi.
  destruct (mkInput mode i (Bench.rand s2)) as [[pwd salt] t].
  do 5 eexists. split; [reflexivity|]. split; [reflexivity|]. split.
  - unfold same_store. store_simpl. v1_simpl. intuition congruence.
  - apply same_guard.
Qed.

Lemma sim_loop w s1 s2 :
  same_store s1 s2 ->
  exists wk1 s1' wk2 s2',
    BenchV1.loop mode progress scrypt cfg w s1 = (wk1, s1') /\
    Bench.loop mode progress scrypt elapsed cfg w s2 = (wk2, s2') /\
    same_worker wk1 wk2 /\ same_store s1' s2'.
Proof.
  intros H. pose proof H as (Hq & _).
  unfold BenchV1.loop, Bench.loop. rewrite Hq.
  destruct (Array_pop (Bench.queue s2)) as [[i q]|].
  - match goal with
    | |- context [BenchV1.runOnce _ _ _ i ?a] =>
        match goal with
        | |- context [Bench.runOnce _ _ _ _ i ?b] =>
            assert (H2 : same_store a b)
        end
    end.
    { destruct H as (Hq' & Hok & Hf & He & Hr & Hc & Hi).
      destruct (progress && _); unfold same_store; store_simpl; v1_simpl;
        intuition congruence. }
    destruct (sim_runOnce i (BenchV1.label cfg i "#1") H2)
      as (k & op & s1' & pr & s2' & E1 & E2 & Hs & Hp).
    rewrite E1, E2. do 4 eexists. split; [reflexivity|].
    split; [reflexivity|]. cbn. auto.
  - do 4 eexists. split; [reflexivity|]. split; [reflexivity|]. cbn. auto.
Qed.

Lemma sim_resume w wk1 wk2 s1 s2 :
  same_worker wk1 wk2 -> same_store s1 s2 ->
  exists wk1' s1' wk2' s2',
    BenchV1.resume mode progress scrypt cfg w wk1 s1 = (wk1', s1') /\
    Bench.resume mode progress scrypt elapsed cfg w wk2 s2 = (wk2', s2') /\
    same_worker wk1' wk2' /\ same_store s1' s2'.
Proof.
  intros Hw Hs.
  assert (Hstay : exists wk1' s1' wk2' s2',
             (wk1, s1) = (wk1', s1') /\ (wk2, s2) = (wk2', s2') /\
             same_worker wk1' wk2' /\ same_store s1' s2').
  { do 4 eexists. split; [reflexivity|]. split; [reflexivity|]. auto. }
  destruct wk1 as [i1 k1 [[dk1|e1]|]|i1 d1 k1 [[dk1|e1]|]|];
    destruct wk2 as [i2 k2 [[a2|e2]|]|i2 b2 k2 [[a2|e2]|]|];
    cbn [same_worker same_promise] in Hw; try tauto;
    cbn [BenchV1.resume Bench.resume]; try exact Hstay.
  - (* first call fulfilled *)
    destruct Hw as (<- & <- & ->).
    destruct (String.eqb mode "sequential").
    + destruct (@sim_runOnce i1 s1 (Bench.sample k1 (snd a2) s2)
                  (BenchV1.label cfg i1 "#2"))
        as (k & op & s1' & pr & s2' & E1 & E2 & Hs' & Hp);
        [now apply same_store_sample|].
      rewrite E1, E2. do 4 eexists. split; [reflexivity|].
      split; [reflexivity|]. cbn. auto.
    + apply sim_loop. apply same_store_success. now apply same_store_sample.
  - (* first call rejected *)
    destruct Hw as (<- & <- & _).
    apply sim_loop. now apply same_store_catch.
  - (* second call fulfilled *)
    destruct Hw as (<- & -> & <- & ->).
    destruct (negb (Buffer_equals (fst b2) (fst a2))).
    + apply sim_loop. apply same_store_mismatch. now apply same_store_sample.
    + apply sim_loop. apply same_store_success. now apply same_store_sample.
  - (* second call rejected *)
    destruct Hw as (<- & _ & <- & _).
    apply sim_loop. now apply same_store_catch.
Qed.

Lemma same_settled wk1 wk2 :
  same_worker wk1 wk2 ->
  BenchV1.settled_await wk1 = Bench.settled_await wk2.
Proof.
  destruct wk1 as [i1 k1 [[dk1|e1]|]|i1 d1 k1 [[dk1|e1]|]|];
    destruct wk2 as [i2 k2 [[a2|e2]|]|i2 b2 k2 [[a2|e2]|]|];
    cbn; tauto.
Qed.

Lemma same_resumable pool1 pool2 :
  Forall2 same_worker pool1 pool2 ->
  BenchV1.resumable pool1 = Bench.resumable pool2.
Proof.
  intros H. unfold BenchV1.resumable, Bench.resumable.
  rewrite (Forall2_length H). apply filter_ext. intros w.
  apply same_settled. apply Forall2_nth; [exact H | exact I].
Qed.

Lemma sim_step w st1 st2 :
  same_state st1 st2 ->
  same_state (BenchV1.step mode progress scrypt cfg w st1)
             (Bench.step mode progress scrypt elapsed cfg w st2).
Proof.
  intros [Hp Hs]. unfold BenchV1.step, Bench.step.
  destruct (@sim_resume w (nth w (fst st1) BenchV1.Returned)
              (nth w (fst st2) Bench.Returned) (snd st1) (snd st2))
    as (wk1' & s1' & wk2' & s2' & E1 & E2 & Hw & Hs');
    [apply Forall2_nth; [exact Hp | exact I] | exact Hs |].
  rewrite E1, E2. split; cbn [fst snd]; [|exact Hs'].
  now apply Forall2_set_nth.
Qed.

Lemma sim_spawn (ws : list nat) :
  forall s1 s2, same_store s1 s2 ->
    same_state (BenchV1.spawn mode progress scrypt cfg ws s1)
               (Bench.spawn mode progress scrypt elapsed cfg ws s2).
Proof.
  induction ws as [|w ws IH]; intros s1 s2 Hs; cbn [BenchV1.spawn Bench.spawn].
  - split; [constructor | exact Hs].
  - destruct (sim_loop w Hs) as (wk1 & s1' & wk2 & s2' & E1 & E2 & Hw & Hs').
    rewrite E1, E2. specialize (IH _ _ Hs').
    destruct (BenchV1.spawn mode progress scrypt cfg ws s1') as [p1 t1].
    destruct (Bench.spawn mode progress scrypt elapsed cfg ws s2') as [p2 t2].
    destruct IH as [Hp Ht]. split; cbn [fst snd] in *; [|exact Ht].
    now constructor.
Qed.

Lemma sim_run (sched : nat -> nat) (fuel : nat) :
  forall n st1 st2, same_state st1 st2 ->
    same_state (BenchV1.run mode progress scrypt cfg sched fuel n st1)
               (Bench.run mode progress scrypt elapsed cfg sched fuel n st2).
Proof.
  induction fuel as [|fuel IH]; intros n st1 st2 H;
    cbn [BenchV1.run Bench.run]; [exact H|].
  rewrite (same_resumable (proj1 H)).
  destruct (Bench.resumable (fst st2)) as [|w0 ws]; [exact H|].
  apply IH. now apply sim_step.
Qed.

Lemma sim_drain (sched : nat -> nat) (t : float) :
  same_state (BenchV1.drain mode progress scrypt cfg sched t)
             (Bench.drain mode progress scrypt elapsed cfg sched t).
Proof.
  unfold BenchV1.drain, Bench.drain. apply sim_run. apply sim_spawn.
  unfold same_store. cbn. tauto.
Qed.

End Lockstep.

Lemma same_joined (pool1 : list BenchV1.worker) (pool2 : list Bench.worker) :
  Forall2 Spec.same_worker pool1 pool2 ->
  BenchV1.joined pool1 = Bench.joined pool2.
Proof.
  unfold BenchV1.joined, Bench.joined.
  induction 1 as [|wk1 wk2 p1 p2 Hw _ IH]; cbn [forallb]; [reflexivity|].
  rewrite IH. destruct wk1, wk2; cbn in Hw; tauto.
Qed.

(* ================================================================== *)
(** ** Properties of a whole batch *)
(* ================================================================== *)

Lemma Buffer_equals_spec (u : JS.Buffer) :
  forall v, JS.Buffer_equals u v = true <-> u = v.
Proof.
  induction u as [|x u IH]; intros [|y v]; cbn; split; try congruence.
  - intros H. apply andb_true_iff in H. destruct H as [H1 H2].
    apply Byte.byte_dec_bl in H1. apply IH in H2. congruence.
  - intros H. injection H as -> ->. apply andb_true_iff. split.
    + now apply Byte.byte_dec_lb.
    + now apply IH.
Qed.

(** C1: when at least one worker is started, after the join
    [ok + fail] equals [iterations], whatever the primitive does and in
    whatever order the workers are resumed: the indices popped are
    [iterations - 1, ..., 0], each once, and the indices counted, each
    by one increment of [ok] or of [fail], are a rearrangement of
    [0, ..., iterations - 1].  Both revisions return such a result. *)
Theorem batch_counts_every_index (mode : string) (progress : bool)
    (scrypt : Common.primitive) (elapsed : nat -> float)
    (cfg : Common.params) (sched : nat -> nat) (t tStart tEnd : float)
    (start finish : Z) :
  0 < Common.concurrency cfg ->
  let s := snd (Bench.drain mode progress scrypt elapsed cfg sched t) in
  let h := Bench.history s in
  Bench.ok s + Bench.fail s = Common.iterations cfg /\
  Permutation (Spec.counted h) (seq 0 (Common.iterations cfg)) /\
  Bench.ok s = List.length (Spec.successes h) /\
  Bench.fail s = List.length (Spec.failures h) /\
  map snd (Spec.claims h) = rev (seq 0 (Common.iterations cfg)) /\
  (exists r,
      Bench.runBatch mode progress scrypt elapsed cfg sched t tStart tEnd
      = Some r /\
      Bench.res_ok r + Bench.res_fail r = Common.iterations cfg) /\
  (exists r,
      BenchV1.runBatch mode progress scrypt cfg sched t start finish
      = Some r /\
      BenchV1.res_ok r + BenchV1.res_fail r = Common.iterations cfg).
Proof.
  intros Hc. cbv zeta.
  destruct (drain_final mode progress scrypt elapsed cfg sched t)
    as (HI & HF & Hl).
  destruct (final_counts HI HF) as (Hq & Hsum & HP & Hcl); [lia|].
  destruct (returned_joined HF) as (Hj & _).
  pose proof (sim_drain mode progress scrypt elapsed cfg sched t) as [Hp Hs].
  pose proof (same_joined Hp) as Hj1.
  pose proof HI as [C _ _]. destruct C.
  conjuncts; auto.
  - unfold Bench.runBatch.
    destruct (Bench.drain mode progress scrypt elapsed cfg sched t)
      as [pool s]. cbn [fst snd] in *. rewrite Hj.
    eexists. split; [reflexivity|]. exact Hsum.
  - unfold BenchV1.runBatch.
    destruct (BenchV1.drain mode progress scrypt cfg sched t) as [pool1 s1].
    cbn [fst snd] in *. rewrite Hj1, Hj.
    eexists. split; [reflexivity|]. cbn.
    destruct Hs as (_ & -> & -> & _). exact Hsum.
Qed.

Lemma batch_counts_every_index_witness :
  let s := snd (Bench.drain "sequential" true Scenario.failing_at_2
                  Scenario.stopwatch (Scenario.batch 4 4)
                  Scenario.round_robin 0%float) in
  Bench.ok s + Bench.fail s = 4.
Proof.
  apply (batch_counts_every_index "sequential" true Scenario.failing_at_2
           Scenario.stopwatch (Scenario.batch 4 4) Scenario.round_robin
           0%float 0%float 1000%float 0%Z 1000%Z).
  cbn. lia.
Defined.

(** C9: the collection that [percentile] reads is the sorted copy of
    [callDurations], and every sample in it is the time measured around
    one invocation of its own: the samples are matched, one to one,
    with distinct invocations on record, each of which called back in
    time and without an error.  An invocation that timed out or failed
    is matched by no sample. *)
Theorem samples_are_completed_calls (mode : string) (progress : bool)
    (scrypt : Common.primitive) (elapsed : nat -> float)
    (cfg : Common.params) (sched : nat -> nat) (t tStart tEnd : float) :
  let s := snd (Bench.drain mode progress scrypt elapsed cfg sched t) in
  let h := Bench.history s in
  let sorted := Metrics.sort (Bench.callDurations s) in
  (exists r,
      Bench.runBatch mode progress scrypt elapsed cfg sched t tStart tEnd
      = Some r /\
      Bench.res_p50 r = Metrics.percentile sorted 50 /\
      Bench.res_p90 r = Metrics.percentile sorted 90 /\
      Bench.res_p99 r = Metrics.percentile sorted 99) /\
  Permutation sorted (map snd (Spec.sampled h)) /\
  Bench.callDurations s = map snd (Spec.sampled h) /\
  NoDup (map fst (Spec.sampled h)) /\
  NoDup (Spec.invoked h) /\
  Forall (fun sample =>
            snd sample = elapsed (fst sample) /\
            exists i pwd salt dk,
              In (Common.Invoked (fst sample) i pwd salt) h /\
              scrypt (fst sample) pwd salt
                     (Common.keyLen cfg) (Common.opts cfg)
              = Common.CallsBack None dk false)
         (Spec.sampled h).
Proof.
  cbv zeta.
  destruct (drain_final mode progress scrypt elapsed cfg sched t)
    as (HI & HF & Hl).
  destruct (returned_joined HF) as (Hj & _ & Hk).
  pose proof HI as [C _ _]. rewrite Hk in C.
  destruct C as [_ _ _ _ _ core_samples0 core_completed0 core_ids0 _
                   core_invoked0].
  conjuncts.
  - unfold Bench.runBatch.
    destruct (Bench.drain mode progress scrypt elapsed cfg sched t)
      as [pool s]. cbn [fst snd] in *. rewrite Hj.
    eexists. split; [reflexivity|]. cbn. auto.
  - rewrite <- core_samples0. apply sort_perm.
  - exact core_samples0.
  - apply (NoDup_count_occ Nat.eq_dec). intros x.
    specialize (core_ids0 x). cbn [count_occ] in core_ids0. lia.
  - rewrite core_invoked0. apply seq_NoDup.
  - apply Forall_forall. intros [k ms] Hin.
    exact (core_completed0 k ms Hin).
Qed.

(** C10: given the same primitive, the same mode and the same order of
    resumptions, the two revisions both complete and return the same
    [ok], the same [fail], and failure records of the same types for
    the same indices in the same order; they report the same variant,
    concurrency and iterations. *)
Theorem revisions_agree (mode : string) (progress : bool)
    (scrypt : Common.primitive) (elapsed : nat -> float)
    (cfg : Common.params) (sched : nat -> nat) (t tStart tEnd : float)
    (start finish : Z) :
  exists r1 r2,
    BenchV1.runBatch mode progress scrypt cfg sched t start finish = Some r1 /\
    Bench.runBatch mode progress scrypt elapsed cfg sched t tStart tEnd
    = Some r2 /\
    BenchV1.res_ok r1 = Bench.res_ok r2 /\
    BenchV1.res_fail r1 = Bench.res_fail r2 /\
    map Spec.kind (BenchV1.res_errors r1)
    = map Spec.kind (Bench.res_errors r2) /\
    BenchV1.res_variant r1 = Bench.res_variant r2 /\
    BenchV1.res_concurrency r1 = Bench.res_concurrency r2 /\
    BenchV1.res_iterations r1 = Bench.res_iterations r2.
Proof.
  destruct (drain_final mode progress scrypt elapsed cfg sched t)
    as (HI & HF & Hl).
  destruct (returned_joined HF) as (Hj & _).
  pose proof (sim_drain mode progress scrypt elapsed cfg sched t) as [Hp Hs].
  pose proof (same_joined Hp) as Hj1.
  unfold BenchV1.runBatch, Bench.runBatch.
  destruct (BenchV1.drain mode progress scrypt cfg sched t) as [pool1 s1].
  destruct (Bench.drain mode progress scrypt elapsed cfg sched t)
    as [pool2 s2].
  cbn [fst snd] in *. rewrite Hj1, Hj.
  destruct Hs as (_ & Hok & Hf & He & _).
  do 2 eexists. split; [reflexivity|]. split; [reflexivity|].
  cbn. conjuncts; auto.
Qed.

Lemma string_app_assoc (s1 s2 s3 : string) :
  ((s1 ++ s2) ++ s3 = s1 ++ (s2 ++ s3))%string.
Proof.
  induction s1 as [|c s1 IH]; cbn [String.append]; [reflexivity|].
  now rewrite IH.
Qed.

(** What one pass of the earlier revision's loop leaves untouched. *)
Lemma v1_loop_counters (mode : string) (progress : bool)
    (scrypt : Common.primitive) (cfg : Common.params) (w : nat)
    (s s' : BenchV1.store) (wk : BenchV1.worker) :
  BenchV1.loop mode progress scrypt cfg w s = (wk, s') ->
  BenchV1.ok s' = BenchV1.ok s /\ BenchV1.fail s' = BenchV1.fail s /\
  BenchV1.errors s' = BenchV1.errors s /\
  match wk with
  | BenchV1.AwaitFirst i _ _ => BenchV1.queue s = BenchV1.queue s' ++ [i]
  | BenchV1.AwaitSecond _ _ _ _ => False
  | BenchV1.Returned => BenchV1.queue s = []
  end.
Proof.
  unfold BenchV1.loop.
  destruct (JS.Array_pop (BenchV1.queue s)) as [[i q]|] eqn:Hpop.
  - apply Array_pop_some in Hpop.
    match goal with
    | |- context [BenchV1.runOnce _ _ _ i ?s2] =>
        assert (Hs2 : BenchV1.ok s2 = BenchV1.ok s
                      /\ BenchV1.fail s2 = BenchV1.fail s
                      /\ BenchV1.errors s2 = BenchV1.errors s
                      /\ BenchV1.queue s2 = q)
          by (destruct (progress && _); conjuncts; reflexivity);
        unfold BenchV1.runOnce;
        destruct (Common.mkInput mode i (BenchV1.rand s2)) as [[pwd salt] t]
    end.
    intros H. injection H as <- <-. v1_simpl.
    destruct Hs2 as (-> & -> & -> & ->). conjuncts; auto.
  - apply Array_pop_none in Hpop. intros H. injection H as <- <-.
    conjuncts; auto.
Qed.

(** The earlier revision's batch completes, with one entry of [errors]
    per failure. *)
Lemma v1_runBatch_total (mode : string) (progress : bool)
    (scrypt : Common.primitive) (cfg : Common.params) (sched : nat -> nat)
    (t : float) (start finish : Z) :
  exists r,
    BenchV1.runBatch mode progress scrypt cfg sched t start finish = Some r /\
    List.length (BenchV1.res_errors r) = BenchV1.res_fail r.
Proof.
  destruct (drain_final mode progress scrypt (fun _ => 0%float) cfg sched t)
    as (HI & HF & Hl).
  destruct (returned_joined HF) as (Hj & _).
  pose proof (sim_drain mode progress scrypt (fun _ => 0%float) cfg sched t)
    as [Hp Hs].
  pose proof (same_joined Hp) as Hj1.
  pose proof HI as [C _ _].
  destruct C as [_ _ _ core_errors0 _ _ _ _ _ _].
  unfold BenchV1.runBatch.
  destruct (BenchV1.drain mode progress scrypt cfg sched t) as [pool1 s1].
  destruct (Bench.drain mode progress scrypt (fun _ => 0%float) cfg sched t)
    as [pool2 s2].
  cbn [fst snd] in *. rewrite Hj1, Hj.
  destruct Hs as (_ & _ & Hf & He & _).
  eexists. split; [reflexivity|]. cbn [BenchV1.res_errors BenchV1.res_fail].
  rewrite Hf, <- core_errors0.
  rewrite <- (length_map Spec.kind (BenchV1.errors s1)), He.
  apply length_map.
Qed.

(** C4: an invocation that rejects, or that the guard times out, is
    caught where it is awaited: [fail] grows by one, [ok] and the
    samples are untouched, one [{type: "error", i, msg, code}] entry is
    appended, and the worker goes back to the loop test, where it
    claims the next index if there is one.  An invocation that calls
    back late or never is such a rejection, with the timeout message.
    Nothing escapes the worker: whatever the primitive does and in
    whatever order workers are resumed, the batch completes and returns
    a result with one entry of [errors] per failure.  The earlier
    revision does the same: its [catch] block appends the same entry,
    with the message and the code of the error, its guards reject with
    the timeout message that ends in [#1] or [#2], and its batch
    completes with one entry per failure. *)
Theorem failures_are_contained (mode : string) (progress : bool)
    (scrypt : Common.primitive) (elapsed : nat -> float)
    (cfg : Common.params) (sched : nat -> nat) (t tStart tEnd : float)
    (w i k : nat) (a : Bench.timed) (e : js_error) (err : option js_error)
    (dk : JS.Buffer) (s : Bench.store) (v : BenchV1.store)
    (start finish : Z) :
  let caught (r : Bench.worker * Bench.store) :=
    r = Bench.loop mode progress scrypt elapsed cfg w (Bench.catch i e s) /\
    Bench.fail (snd r) = S (Bench.fail s) /\
    Bench.ok (snd r) = Bench.ok s /\
    Bench.callDurations (snd r) = Bench.callDurations s /\
    Bench.errors (snd r)
    = Bench.errors s ++ [Common.Error i (message e) (code e)] /\
    match fst r with
    | Bench.AwaitFirst i' _ _ => Bench.queue s = Bench.queue (snd r) ++ [i']
    | Bench.AwaitSecond _ _ _ _ => False
    | Bench.Returned => Bench.queue s = []
    end in
  let label := (Common.variant_name (Common.variant_of cfg)
                ++ " i=" ++ JS.decimal i)%string in
  let caught1 (r : BenchV1.worker * BenchV1.store) :=
    r = BenchV1.loop mode progress scrypt cfg w (BenchV1.catch i e v) /\
    BenchV1.fail (snd r) = S (BenchV1.fail v) /\
    BenchV1.ok (snd r) = BenchV1.ok v /\
    BenchV1.errors (snd r)
    = BenchV1.errors v ++ [Common.Error i (message e) (code e)] /\
    match fst r with
    | BenchV1.AwaitFirst i' _ _ =>
        BenchV1.queue v = BenchV1.queue (snd r) ++ [i']
    | BenchV1.AwaitSecond _ _ _ _ => False
    | BenchV1.Returned => BenchV1.queue v = []
    end in
  let guard1 (b : Common.behaviour) (tag : string) :=
    Timeout.withTimeout (Common.adapt b) 60000 (label ++ " " ++ tag) in
  caught (Bench.resume mode progress scrypt elapsed cfg w
            (Bench.AwaitFirst i k (Some (Rejected e))) s) /\
  caught (Bench.resume mode progress scrypt elapsed cfg w
            (Bench.AwaitSecond i a k (Some (Rejected e))) s) /\
  (exists pwd salt t',
      Common.mkInput mode i (Bench.rand s) = (pwd, salt, t') /\
      snd (fst (Bench.runOnce mode scrypt elapsed cfg i s))
      = Spec.promise_of elapsed cfg
          (scrypt (Bench.invocations s) pwd salt
             (Common.keyLen cfg) (Common.opts cfg))
          i (Bench.invocations s)) /\
  Spec.promise_of elapsed cfg Common.NeverCallsBack i k
  = Some (Rejected (Timeout.timeout_error 60000 label)) /\
  Spec.promise_of elapsed cfg (Common.CallsBack err dk true) i k
  = Some (Rejected (Timeout.timeout_error 60000 label)) /\
  Spec.promise_of elapsed cfg (Common.CallsBack (Some e) dk false) i k
  = Some (Rejected e) /\
  message (Timeout.timeout_error 60000 label)
  = Some ("timeout after 60000ms: " ++ label)%string /\
  (exists r,
      Bench.runBatch mode progress scrypt elapsed cfg sched t tStart tEnd
      = Some r /\
      List.length (Bench.res_errors r) = Bench.res_fail r) /\
  caught1 (BenchV1.resume mode progress scrypt cfg w
             (BenchV1.AwaitFirst i k (Some (Rejected e))) v) /\
  caught1 (BenchV1.resume mode progress scrypt cfg w
             (BenchV1.AwaitSecond i dk k (Some (Rejected e))) v) /\
  (exists pwd salt t',
      Common.mkInput mode i (BenchV1.rand v) = (pwd, salt, t') /\
      snd (fst (BenchV1.runOnce mode scrypt cfg i v))
      = Common.adapt
          (scrypt (BenchV1.invocations v) pwd salt
             (Common.keyLen cfg) (Common.opts cfg))) /\
  BenchV1.label cfg i "#1" = (label ++ " #1")%string /\
  BenchV1.label cfg i "#2" = (label ++ " #2")%string /\
  (forall tag,
      guard1 Common.NeverCallsBack tag
      = Some (Rejected (Timeout.timeout_error 60000 (label ++ " " ++ tag))) /\
      guard1 (Common.CallsBack err dk true) tag
      = Some (Rejected (Timeout.timeout_error 60000 (label ++ " " ++ tag))) /\
      guard1 (Common.CallsBack (Some e) dk false) tag = Some (Rejected e) /\
      guard1 (Common.CallsBack None dk false) tag = Some (Fulfilled dk) /\
      message (Timeout.timeout_error 60000 (label ++ " " ++ tag))
      = Some ("timeout after 60000ms: " ++ label ++ " " ++ tag)%string) /\
  (exists r,
      BenchV1.runBatch mode progress scrypt cfg sched t start finish
      = Some r /\
      List.length (BenchV1.res_errors r) = BenchV1.res_fail r).
Proof.
  cbv zeta.
  assert (Hcaught1 : forall wk,
    BenchV1.resume mode progress scrypt cfg w wk v
    = BenchV1.loop mode progress scrypt cfg w (BenchV1.catch i e v) ->
    let r := BenchV1.resume mode progress scrypt cfg w wk v in
    r = BenchV1.loop mode progress scrypt cfg w (BenchV1.catch i e v) /\
    BenchV1.fail (snd r) = S (BenchV1.fail v) /\
    BenchV1.ok (snd r) = BenchV1.ok v /\
    BenchV1.errors (snd r)
    = BenchV1.errors v ++ [Common.Error i (message e) (code e)] /\
    match fst r with
    | BenchV1.AwaitFirst i' _ _ =>
        BenchV1.queue v = BenchV1.queue (snd r) ++ [i']
    | BenchV1.AwaitSecond _ _ _ _ => False
    | BenchV1.Returned => BenchV1.queue v = []
    end).
  { intros wk E. cbv zeta. rewrite E.
    destruct (BenchV1.loop mode progress scrypt cfg w (BenchV1.catch i e v))
      as [wk' s'] eqn:Hl.
    destruct (v1_loop_counters _ _ _ _ _ _ Hl) as (Hok & Hf & He & Hq).
    cbn [fst snd]. conjuncts; auto. }
  assert (Hcaught : forall wk,
    Bench.resume mode progress scrypt elapsed cfg w wk s
    = Bench.loop mode progress scrypt elapsed cfg w (Bench.catch i e s) ->
    let r := Bench.resume mode progress scrypt elapsed cfg w wk s in
    r = Bench.loop mode progress scrypt elapsed cfg w (Bench.catch i e s) /\
    Bench.fail (snd r) = S (Bench.fail s) /\
    Bench.ok (snd r) = Bench.ok s /\
    Bench.callDurations (snd r) = Bench.callDurations s /\
    Bench.errors (snd r)
    = Bench.errors s ++ [Common.Error i (message e) (code e)] /\
    match fst r with
    | Bench.AwaitFirst i' _ _ => Bench.queue s = Bench.queue (snd r) ++ [i']
    | Bench.AwaitSecond _ _ _ _ => False
    | Bench.Returned => Bench.queue s = []
    end).
  { intros wk E. cbv zeta. rewrite E.
    destruct (Bench.loop mode progress scrypt elapsed cfg w
                (Bench.catch i e s)) as [wk' s'] eqn:Hl.
    destruct (loop_counters _ _ _ _ _ _ _ Hl)
      as (Hok & Hf & He & Hd & Hr & Hn & Hs).
    cbn [fst snd]. conjuncts; auto.
    destruct wk' as [i' k' pr'|i' a' k' pr'|].
    - exact (Hn _ _ _ eq_refl).
    - exact (Hs _ _ _ _ eq_refl).
    - now apply Hr. }
  conjuncts.
  1-6: apply (Hcaught (Bench.AwaitFirst i k (Some (Rejected e)))); reflexivity.
  1-6: apply (Hcaught (Bench.AwaitSecond i a k (Some (Rejected e))));
    reflexivity.
  - destruct (runOnce_eq mode scrypt elapsed cfg i s)
      as (pwd & salt & t' & Hm & E).
    exists pwd, salt, t'. split; [exact Hm|]. rewrite E. reflexivity.
  - reflexivity.
  - destruct err; reflexivity.
  - reflexivity.
  - reflexivity.
  - destruct (drain_final mode progress scrypt elapsed cfg sched t)
      as (HI & HF & Hl).
    destruct (returned_joined HF) as (Hj & _).
    pose proof HI as [C _ _].
    destruct C as [_ _ _ core_errors0 _ _ _ _ _ _].
    unfold Bench.runBatch.
    destruct (Bench.drain mode progress scrypt elapsed cfg sched t)
      as [pool s0]. cbn [fst snd] in *. rewrite Hj.
    eexists. split; [reflexivity|]. exact core_errors0.
  - apply (Hcaught1 (BenchV1.AwaitFirst i k (Some (Rejected e))));
      reflexivity.
  - apply (Hcaught1 (BenchV1.AwaitFirst i k (Some (Rejected e))));
      reflexivity.
  - apply (Hcaught1 (BenchV1.AwaitFirst i k (Some (Rejected e))));
      reflexivity.
  - apply (Hcaught1 (BenchV1.AwaitFirst i k (Some (Rejected e))));
      reflexivity.
  - apply (Hcaught1 (BenchV1.AwaitFirst i k (Some (Rejected e))));
      reflexivity.
  - apply (Hcaught1 (BenchV1.AwaitSecond i dk k (Some (Rejected e))));
      reflexivity.
  - apply (Hcaught1 (BenchV1.AwaitSecond i dk k (Some (Rejected e))));
      reflexivity.
  - apply (Hcaught1 (BenchV1.AwaitSecond i dk k (Some (Rejected e))));
      reflexivity.
  - apply (Hcaught1 (BenchV1.AwaitSecond i dk k (Some (Rejected e))));
      reflexivity.
  - apply (Hcaught1 (BenchV1.AwaitSecond i dk k (Some (Rejected e))));
      reflexivity.
  - unfold BenchV1.runOnce.
    destruct (Common.mkInput mode i (BenchV1.rand v)) as [[pwd salt] t'].
    exists pwd, salt, t'. split; [reflexivity|]. cbn [fst snd].
    destruct (Common.variant_of cfg); reflexivity.
  - unfold BenchV1.label. now rewrite !string_app_assoc.
  - unfold BenchV1.label. now rewrite !string_app_assoc.
  - intros tag. conjuncts; try reflexivity.
  - apply v1_runBatch_total.
Qed.

(** C3: in sequential mode the sample of the first call is appended
    when that call resolves, before the second call for the same index,
    with the same input, is made; when the second call resolves with a
    different key, its sample is appended too, before the comparison;
    then [fail] grows by one, [ok] does not move, one
    [{type: "mismatch", i, a, b}] entry with the first sixteen hex
    digits of each key is appended and no further sample; the worker
    goes back to the loop test.  The earlier revision, which keeps no
    samples, counts the failure and appends the same entry. *)
Theorem mismatch_counts_one_failure (progress : bool)
    (scrypt : Common.primitive) (elapsed : nat -> float)
    (cfg : Common.params) (w i k : nat) (a b : Bench.timed)
    (s : Bench.store) (v : BenchV1.store) :
  fst a <> fst b ->
  let first :=
    Bench.resume "sequential" progress scrypt elapsed cfg w
      (Bench.AwaitFirst i k (Some (Fulfilled a))) s in
  let second :=
    Bench.resume "sequential" progress scrypt elapsed cfg w
      (Bench.AwaitSecond i a k (Some (Fulfilled b))) s in
  (exists pr2, fst first = Bench.AwaitSecond i a (Bench.invocations s) pr2) /\
  Bench.callDurations (snd first) = Bench.callDurations s ++ [snd a] /\
  Bench.history (snd first)
  = (Bench.history s ++ [Common.Sampled k (snd a)])
    ++ [Common.Invoked (Bench.invocations s) i
          (JS.Buffer_from ("pwd-" ++ JS.decimal i)%string)
          (JS.Buffer_from ("salt-" ++ JS.decimal i)%string)] /\
  Bench.ok (snd first) = Bench.ok s /\
  Bench.fail (snd first) = Bench.fail s /\
  Bench.errors (snd first) = Bench.errors s /\
  second
  = Bench.loop "sequential" progress scrypt elapsed cfg w
      (Bench.mismatch i a b (Bench.sample k (snd b) s)) /\
  Bench.callDurations (snd second) = Bench.callDurations s ++ [snd b] /\
  Bench.fail (snd second) = S (Bench.fail s) /\
  Bench.ok (snd second) = Bench.ok s /\
  Bench.errors (snd second)
  = Bench.errors s
    ++ [Common.Mismatch i
          (JS.slice0 16 (JS.Buffer_toString_hex (fst a)))
          (JS.slice0 16 (JS.Buffer_toString_hex (fst b)))] /\
  let first1 :=
    BenchV1.resume "sequential" progress scrypt cfg w
      (BenchV1.AwaitFirst i k (Some (Fulfilled (fst a)))) v in
  let second1 :=
    BenchV1.resume "sequential" progress scrypt cfg w
      (BenchV1.AwaitSecond i (fst a) k (Some (Fulfilled (fst b)))) v in
  fst first1
  = BenchV1.AwaitSecond i (fst a) (BenchV1.invocations v)
      (Timeout.withTimeout
         (Common.adapt
            (scrypt (BenchV1.invocations v)
               (JS.Buffer_from ("pwd-" ++ JS.decimal i)%string)
               (JS.Buffer_from ("salt-" ++ JS.decimal i)%string)
               (Common.keyLen cfg) (Common.opts cfg)))
         60000 (BenchV1.label cfg i "#2")) /\
  BenchV1.ok (snd first1) = BenchV1.ok v /\
  BenchV1.fail (snd first1) = BenchV1.fail v /\
  BenchV1.errors (snd first1) = BenchV1.errors v /\
  second1
  = BenchV1.loop "sequential" progress scrypt cfg w
      (BenchV1.mismatch i (fst a) (fst b) v) /\
  BenchV1.fail (snd second1) = S (BenchV1.fail v) /\
  BenchV1.ok (snd second1) = BenchV1.ok v /\
  BenchV1.errors (snd second1)
  = BenchV1.errors v
    ++ [Common.Mismatch i
          (JS.slice0 16 (JS.Buffer_toString_hex (fst a)))
          (JS.slice0 16 (JS.Buffer_toString_hex (fst b)))].
Proof.
  intros Hne. cbv zeta.
  assert (Heq : JS.Buffer_equals (fst a) (fst b) = false).
  { destruct (JS.Buffer_equals (fst a) (fst b)) eqn:E; [|reflexivity].
    apply Buffer_equals_spec in E. congruence. }
  assert (Hv1 :
    let first1 :=
      BenchV1.resume "sequential" progress scrypt cfg w
        (BenchV1.AwaitFirst i k (Some (Fulfilled (fst a)))) v in
    let second1 :=
      BenchV1.resume "sequential" progress scrypt cfg w
        (BenchV1.AwaitSecond i (fst a) k (Some (Fulfilled (fst b)))) v in
    fst first1
    = BenchV1.AwaitSecond i (fst a) (BenchV1.invocations v)
        (Timeout.withTimeout
           (Common.adapt
              (scrypt (BenchV1.invocations v)
                 (JS.Buffer_from ("pwd-" ++ JS.decimal i)%string)
                 (JS.Buffer_from ("salt-" ++ JS.decimal i)%string)
                 (Common.keyLen cfg) (Common.opts cfg)))
           60000 (BenchV1.label cfg i "#2")) /\
    BenchV1.ok (snd first1) = BenchV1.ok v /\
    BenchV1.fail (snd first1) = BenchV1.fail v /\
    BenchV1.errors (snd first1) = BenchV1.errors v /\
    second1
    = BenchV1.loop "sequential" progress scrypt cfg w
        (BenchV1.mismatch i (fst a) (fst b) v) /\
    BenchV1.fail (snd second1) = S (BenchV1.fail v) /\
    BenchV1.ok (snd second1) = BenchV1.ok v /\
    BenchV1.errors (snd second1)
    = BenchV1.errors v
      ++ [Common.Mismatch i
            (JS.slice0 16 (JS.Buffer_toString_hex (fst a)))
            (JS.slice0 16 (JS.Buffer_toString_hex (fst b)))]).
  { cbv zeta.
    cbn [BenchV1.resume String.eqb Ascii.eqb Bool.eqb]. rewrite Heq.
    cbn [negb].
    unfold BenchV1.runOnce.
    cbn [Common.mkInput String.eqb Ascii.eqb Bool.eqb fst snd].
    destruct (BenchV1.loop "sequential" progress scrypt cfg w
                (BenchV1.mismatch i (fst a) (fst b) v))
      as [wk' s'] eqn:Hl.
    destruct (v1_loop_counters _ _ _ _ _ _ Hl) as (Hok & Hf & He & _).
    cbn [fst snd]. conjuncts; auto.
    destruct (Common.variant_of cfg); reflexivity. }
  cbn [Bench.resume String.eqb Ascii.eqb Bool.eqb]. rewrite Heq. cbn [negb].
  destruct (runOnce_eq "sequential" scrypt elapsed cfg i
              (Bench.sample k (snd a) s)) as (pwd & salt & t & Hm & E).
  cbn [Common.mkInput String.eqb Ascii.eqb Bool.eqb] in Hm.
  injection Hm as <- <- <-. rewrite E. cbn [fst snd].
  destruct (Bench.loop "sequential" progress scrypt elapsed cfg w
              (Bench.mismatch i a b (Bench.sample k (snd b) s)))
    as [wk' s'] eqn:Hl.
  destruct (loop_counters _ _ _ _ _ _ _ Hl) as (Hok & Hf & He & Hd & _).
  cbn [fst snd]. cbv zeta in Hv1.
  destruct Hv1 as (V1 & V2 & V3 & V4 & V5 & V6 & V7 & V8).
  conjuncts; auto.
  eexists. reflexivity.
Qed.

Lemma mismatch_counts_one_failure_witness :
  let s := Bench.init (Scenario.batch 1 1) 0%float in
  let a := (["a"%byte], 1%float) in
  let b := (["b"%byte], 2%float) in
  Bench.fail
    (snd (Bench.resume "sequential" false Scenario.steady Scenario.stopwatch
            (Scenario.batch 1 1) 0
            (Bench.AwaitSecond 0 a 1 (Some (Fulfilled b))) s))
  = S (Bench.fail s).
Proof.
  cbv zeta.
  refine (proj1 (proj2 (proj2 (proj2 (proj2 (proj2 (proj2 (proj2 (proj2
    (@mismatch_counts_one_failure false Scenario.steady Scenario.stopwatch
       (Scenario.batch 1 1) 0 0 1 (["a"%byte], 1%float) (["b"%byte], 2%float)
       (Bench.init (Scenario.batch 1 1) 0%float)
       (BenchV1.init (Scenario.batch 1 1) 0%float) _)))))))))).
  cbn. discriminate.
Defined.


(* ================================================================== *)
(** ** Concrete runs *)
(* ================================================================== *)

(** The first outputs of [mulberry32(1337)], as 32-bit numerators. *)
Example mulberry32_1337 :
  let '(a, t1) := Prng.next_word (Prng.mulberry32 1337%float) in
  let '(b, t2) := Prng.next_word t1 in
  let '(c, _) := Prng.next_word t2 in
  [a; b; c] = [792042790; 815997621; 3480950701]%Z.
Proof. vm_compute. reflexivity. Qed.

(** The counter of the generator is a double: beyond 2^53 the
    increment is rounded. *)
Example counter_rounds :
  (9007199254740992 + 1831565813 = 9007201086306804)%float.
Proof. vm_compute. reflexivity. Qed.

(** The rank is computed in binary64: for [p = 7] on 100 samples the
    product is just above 7 and its ceiling is 8. *)
Example rank_is_binary64 :
  Metrics.Math_ceil (7 / 100 * 100)%float = Metrics.Fin 8.
Proof. vm_compute. reflexivity. Qed.

(** One index, one worker, a primitive whose second derivation
    differs from the first: one mismatch entry, [fail = 1], [ok = 0],
    and the samples of both calls; the earlier revision ends with the
    same entry. *)
Example run_drifting :
  let s := snd (Bench.drain "sequential" false Scenario.drifting
                  Scenario.stopwatch (Scenario.batch 1 1)
                  Scenario.round_robin 0%float) in
  let v := snd (BenchV1.drain "sequential" false Scenario.drifting
                  (Scenario.batch 1 1) Scenario.round_robin 0%float) in
  Bench.errors s
  = [Common.Mismatch 0 "007077642d307361" "017077642d307361"] /\
  Bench.fail s = 1 /\
  Bench.ok s = 0 /\
  Bench.callDurations s = [Scenario.stopwatch 0; Scenario.stopwatch 1] /\
  BenchV1.errors v = Bench.errors s /\
  BenchV1.fail v = 1 /\
  BenchV1.ok v = 0.
Proof. cbv zeta. conjuncts; vm_compute; reflexivity. Qed.

(** What the template literal prints for a deadline: all the digits of
    an integer below 2^53, the shortest digits of the Number value
    beyond, the exponent form from 10^21 on. *)
Example Number_toString_examples :
  JS.Number_toString 60000 = "60000"%string /\
  JS.Number_toString 9007199254740993 = "9007199254740992"%string /\
  JS.Number_toString (2 ^ 64) = "18446744073709552000"%string /\
  JS.Number_toString (10 ^ 21) = "1e+21"%string /\
  JS.Number_toString (2 ^ 70) = "1.1805916207174113e+21"%string /\
  JS.Number_toString (2 ^ 1024) = "Infinity"%string.
Proof. conjuncts; vm_compute; reflexivity. Qed.

(** Four iterations, one worker, a primitive that always succeeds:
    [ok = 4], [fail = 0], eight samples. *)
Example run_steady :
  let s := snd (Bench.drain "sequential" true Scenario.steady
                  Scenario.stopwatch (Scenario.batch 1 4)
                  Scenario.round_robin 0%float) in
  Bench.ok s = 4 /\ Bench.fail s = 0 /\
  List.length (Bench.callDurations s) = 8.
Proof. vm_compute. auto. Qed.

(** Four iterations, four workers, the primitive fails for index 2:
    [ok = 3], [fail = 1], one error entry for index 2. *)
Example run_failing_at_2 :
  let s := snd (Bench.drain "sequential" true Scenario.failing_at_2
                  Scenario.stopwatch (Scenario.batch 4 4)
                  Scenario.round_robin 0%float) in
  Bench.ok s = 3 /\ Bench.fail s = 1 /\
  Bench.errors s = [Common.Error 2 (Some "boom"%string) (Some "ERR_X"%string)].
Proof. vm_compute. auto. Qed.

(** A primitive that never calls back: every index is a failure with
    the timeout message, and the batch completes. *)
Example run_hanging :
  let r := Bench.runBatch "random" false Scenario.hanging Scenario.stopwatch
             (Scenario.batch 3 2) Scenario.round_robin 1337%float
             0%float 120000%float in
  option_map Bench.res_ok r = Some 0 /\
  option_map Bench.res_fail r = Some 2 /\
  option_map Bench.res_errors r
  = Some [Common.Error 1
            (Some "timeout after 60000ms: callback i=1"%string) None;
          Common.Error 0
            (Some "timeout after 60000ms: callback i=0"%string) None].
Proof. vm_compute. auto. Qed.

(** Without workers nothing is counted: the join of an empty pool
    completes at once and the queue is left as it was. *)
Example run_without_workers :
  let s := snd (Bench.drain "sequential" false Scenario.steady
                  Scenario.stopwatch (Scenario.batch 0 3)
                  Scenario.round_robin 0%float) in
  Bench.ok s + Bench.fail s = 0 /\ Bench.queue s = [0; 1; 2].
Proof. vm_compute. auto. Qed.

(* ================================================================== *)
(** ** Induction over a batch *)
(* ================================================================== *)

Section BatchInduction.

Import JS Common.

Variable mode : string.
Variable progress : bool.
Variable scrypt : primitive.
Variable elapsed : nat -> float.
Variable cfg : params.

(** A property [P] of the store, a property [Q] of each worker, and a
    quantity [g] of the store that, with the share [f] of each worker,
    never grows. *)
Variable P : Bench.store -> Prop.
Variable Q : Bench.worker -> Prop.
Variable g : Bench.store -> Z.
Variable f : Bench.worker -> Z.

Hypothesis loop_keeps : forall w s wk s',
  P s -> Bench.loop mode progress scrypt elapsed cfg w s = (wk, s') ->
  P s' /\ Q wk /\ (g s' + f wk <= g s)%Z.

Hypothesis resume_keeps : forall w wk s wk' s',
  P s -> Q wk -> Bench.settled_await wk = true ->
  Bench.resume mode progress scrypt elapsed cfg w wk s = (wk', s') ->
  P s' /\ Q wk' /\ (g s' + f wk' <= g s + f wk)%Z.

#[local] Abbreviation total := (Extra.total f).

Lemma total_set_nth (pool : list Bench.worker) :
  forall w wk, w < List.length pool ->
    (total (set_nth w wk pool) + f (nth w pool Bench.Returned)
     = total pool + f wk)%Z.
Proof.
  unfold Extra.total.
  induction pool as [|x pool IH]; intros [|w] wk H; cbn [List.length] in H;
    try lia; cbn [set_nth map nth fold_right].
  - lia.
  - specialize (IH w wk). lia.
Qed.

Lemma spawn_keeps (ws : list nat) :
  forall s, P s ->
    let st := Bench.spawn mode progress scrypt elapsed cfg ws s in
    P (snd st) /\ Forall Q (fst st) /\ (g (snd st) + total (fst st) <= g s)%Z.
Proof.
  induction ws as [|w ws IH]; intros s HP; cbn [Bench.spawn].
  - cbn. conjuncts; auto. lia.
  - destruct (Bench.loop mode progress scrypt elapsed cfg w s)
      as [wk s1] eqn:Hl.
    edestruct loop_keeps as (HP1 & HQ & Hg); [exact HP | exact Hl |].
    specialize (IH s1 HP1). cbv zeta in IH.
    destruct (Bench.spawn mode progress scrypt elapsed cfg ws s1)
      as [wks s2].
    cbn [fst snd] in *. destruct IH as (HP2 & HQ2 & Hg2).
    conjuncts; auto.
    unfold Extra.total in *. cbn [map fold_right]. lia.
Qed.

Lemma run_keeps (sched : nat -> nat) (fuel : nat) :
  forall n st B,
    P (snd st) -> Forall Q (fst st) -> (g (snd st) + total (fst st) <= B)%Z ->
    let st' := Bench.run mode progress scrypt elapsed cfg sched fuel n st in
    P (snd st') /\ Forall Q (fst st') /\ (g (snd st') + total (fst st') <= B)%Z.
Proof.
  induction fuel as [|fuel IH]; intros n st B HP HQ Hg; cbn [Bench.run];
    [cbv zeta; auto|].
  destruct (Bench.resumable (fst st)) as [|w0 ws] eqn:E; [cbv zeta; auto|].
  set (w := nth (sched n mod List.length (w0 :: ws)) (w0 :: ws) w0).
  assert (Hin : In w (Bench.resumable (fst st))).
  { rewrite E. apply nth_In. apply Nat.mod_upper_bound. discriminate. }
  apply resumable_spec in Hin. destruct Hin as [Hw Hs].
  apply IH; unfold Bench.step;
    destruct (Bench.resume mode progress scrypt elapsed cfg w
                (nth w (fst st) Bench.Returned) (snd st))
      as [wk' s'] eqn:Hr;
    assert (HQw : Q (nth w (fst st) Bench.Returned))
      by (rewrite Forall_forall in HQ; apply HQ; now apply nth_In);
    (edestruct resume_keeps as (HP' & HQ' & Hg');
       [exact HP | exact HQw | exact Hs | exact Hr |]);
    cbn [fst snd].
  - exact HP'.
  - now apply Forall_set_nth.
  - pose proof (@total_set_nth (fst st) w wk' Hw). lia.
Qed.

Lemma drain_keeps (sched : nat -> nat) (t : float) :
  P (Bench.init cfg t) ->
  let st := Bench.drain mode progress scrypt elapsed cfg sched t in
  P (snd st) /\ Forall Q (fst st) /\
  (g (snd st) + total (fst st) <= g (Bench.init cfg t))%Z.
Proof.
  intros HP. unfold Bench.drain.
  pose proof (spawn_keeps (range (concurrency cfg)) HP) as H.
  cbv zeta in H. destruct H as (HP1 & HQ1 & Hg1).
  apply run_keeps; assumption.
Qed.

End BatchInduction.

Section Effects.

Import JS Common.

Variable mode : string.
Variable progress : bool.
Variable scrypt : primitive.
Variable elapsed : nat -> float.
Variable cfg : params.

(** What [runOnce] changes. *)
Lemma runOnce_effect (i : nat) (s : Bench.store) :
  exists pwd salt t,
    mkInput mode i (Bench.rand s) = (pwd, salt, t) /\
    let '(k, pr, s') := Bench.runOnce mode scrypt elapsed cfg i s in
    k = Bench.invocations s /\
    pr = Spec.promise_of elapsed cfg
           (scrypt k pwd salt (keyLen cfg) (opts cfg)) i k /\
    Bench.queue s' = Bench.queue s /\
    Bench.ok s' = Bench.ok s /\
    Bench.fail s' = Bench.fail s /\
    Bench.errors s' = Bench.errors s /\
    Bench.callDurations s' = Bench.callDurations s /\
    Bench.rand s' = t /\
    Bench.invocations s' = S (Bench.invocations s) /\
    Bench.history s' = Bench.history s ++ [Invoked k i pwd salt].
Proof.
  destruct (runOnce_eq mode scrypt elapsed cfg i s)
    as (pwd & salt & t & Hm & E).
  exists pwd, salt, t. split; [exact Hm|]. rewrite E.
  conjuncts; reflexivity.
Qed.

(** What one pass from the loop test to the next [await] changes:
    nothing when the queue is empty; otherwise the last index is
    popped and one invocation for it is made. *)
Lemma loop_effect (w : nat) (s : Bench.store) :
  let '(wk, s') := Bench.loop mode progress scrypt elapsed cfg w s in
  (Bench.queue s = [] /\ wk = Bench.Returned /\ s' = s) \/
  (exists i pwd salt t,
      Bench.queue s = Bench.queue s' ++ [i] /\
      mkInput mode i (Bench.rand s) = (pwd, salt, t) /\
      wk = Bench.AwaitFirst i (Bench.invocations s)
             (Spec.promise_of elapsed cfg
                (scrypt (Bench.invocations s) pwd salt
                        (keyLen cfg) (opts cfg))
                i (Bench.invocations s)) /\
      Bench.ok s' = Bench.ok s /\
      Bench.fail s' = Bench.fail s /\
      Bench.errors s' = Bench.errors s /\
      Bench.callDurations s' = Bench.callDurations s /\
      Bench.rand s' = t /\
      Bench.invocations s' = S (Bench.invocations s) /\
      Bench.history s'
      = Bench.history s
        ++ [Claimed w i; Invoked (Bench.invocations s) i pwd salt]).
Proof.
  unfold Bench.loop.
  destruct (Array_pop (Bench.queue s)) as [[i q]|] eqn:Hpop.
  - apply Array_pop_some in Hpop.
    match goal with
    | |- context [Bench.runOnce _ _ _ _ i ?s2] =>
        assert (Hs2 : Bench.ok s2 = Bench.ok s /\ Bench.fail s2 = Bench.fail s
                      /\ Bench.errors s2 = Bench.errors s
                      /\ Bench.callDurations s2 = Bench.callDurations s
                      /\ Bench.queue s2 = q /\ Bench.rand s2 = Bench.rand s
                      /\ Bench.invocations s2 = Bench.invocations s
                      /\ Bench.history s2 = Bench.history s ++ [Claimed w i])
          by (destruct (progress && _); conjuncts; reflexivity);
        destruct (runOnce_effect i s2) as (pwd & salt & t & Hm & E);
        destruct (Bench.runOnce mode scrypt elapsed cfg i s2)
          as [[k pr] s3]
    end.
    destruct Hs2 as (H1 & H2 & H3 & H4 & H5 & H6 & H7 & H8).
    destruct E as (-> & -> & E1 & E2 & E3 & E4 & E5 & E6 & E7 & E8).
    right. exists i, pwd, salt, t. rewrite H6 in Hm. rewrite H7 in *.
    conjuncts; try congruence.
    rewrite E8, H8, <- app_assoc. reflexivity.
  - apply Array_pop_none in Hpop. left. auto.
Qed.

End Effects.

(* ================================================================== *)
(** ** Further properties of a batch *)
(* ================================================================== *)

Lemma counted_split (h : list Common.hevent) :
  Permutation (Spec.counted h) (Spec.successes h ++ Spec.failures h).
Proof.
  induction h as [|ev h IH]; [constructor|].
  change (ev :: h) with ([ev] ++ h). history_simpl.
  destruct ev as [w i|k i pwd salt|k ms|i [|]]; cbn; auto.
  apply Permutation_cons_app. exact IH.
Qed.

Section Failures.

Import JS Common.

Variable mode : string.
Variable progress : bool.
Variable scrypt : primitive.
Variable elapsed : nat -> float.
Variable cfg : params.

Let listed (s : Bench.store) : Prop :=
  map Extra.err_index (Bench.errors s) = Spec.failures (Bench.history s).

Lemma listed_loop w s wk s' :
  listed s -> Bench.loop mode progress scrypt elapsed cfg w s = (wk, s') ->
  listed s'.
Proof.
  intros H Hl. pose proof (loop_effect mode progress scrypt elapsed cfg w s) as E.
  rewrite Hl in E. unfold listed in *.
  destruct E as [(_ & _ & ->)|(i & pwd & salt & t & _ & _ & _ & _ & _ & He
                              & _ & _ & _ & Hh)]; [exact H|].
  rewrite He, Hh. history_simpl. exact H.
Qed.

Lemma listed_resume w wk s wk' s' :
  listed s ->
  Bench.resume mode progress scrypt elapsed cfg w wk s = (wk', s') ->
  listed s'.
Proof.
  intros H Hr.
  assert (Hcount : forall s1,
    listed s1 ->
    Bench.loop mode progress scrypt elapsed cfg w s1 = (wk', s') -> listed s')
    by (intros s1; apply listed_loop).
  destruct wk as [i k [[a|e]|]|i a k [[b|e]|]|]; cbn [Bench.resume] in Hr;
    try (injection Hr as <- <-; exact H).
  - destruct (String.eqb mode "sequential").
    + pose proof (runOnce_effect mode scrypt elapsed cfg i
                    (Bench.sample k (snd a) s)) as (pwd & salt & t & _ & E).
      destruct (Bench.runOnce mode scrypt elapsed cfg i
                  (Bench.sample k (snd a) s)) as [[k2 pr2] s2].
      injection Hr as <- <-.
      destruct E as (_ & _ & _ & _ & _ & He & _ & _ & _ & Hh).
      unfold listed in *. rewrite He, Hh. store_simpl. history_simpl.
      exact H.
    + apply (Hcount (Bench.success i (Bench.sample k (snd a) s)));
        [|exact Hr].
      unfold listed in *. store_simpl. history_simpl. exact H.
  - apply (Hcount (Bench.catch i e s)); [|exact Hr].
    unfold listed in *. store_simpl. history_simpl.
    rewrite map_app, H. reflexivity.
  - destruct (negb (Buffer_equals (fst a) (fst b))).
    + apply (Hcount (Bench.mismatch i a b (Bench.sample k (snd b) s)));
        [|exact Hr].
      unfold listed in *. store_simpl. history_simpl.
      rewrite map_app, H. reflexivity.
    + apply (Hcount (Bench.success i (Bench.sample k (snd b) s)));
        [|exact Hr].
      unfold listed in *. store_simpl. history_simpl. exact H.
  - apply (Hcount (Bench.catch i e s)); [|exact Hr].
    unfold listed in *. store_simpl. history_simpl.
    rewrite map_app, H. reflexivity.
Qed.

Lemma listed_drain (sched : nat -> nat) (t : float) :
  listed (snd (Bench.drain mode progress scrypt elapsed cfg sched t)).
Proof.
  apply (@drain_keeps mode progress scrypt elapsed cfg listed
           (fun _ => True) (fun _ => 0%Z) (fun _ => 0%Z)).
  - intros w s wk s' H Hl.
    conjuncts; [eapply listed_loop; eauto | exact I | lia].
  - intros w wk s wk' s' H _ _ Hr.
    conjuncts; [eapply listed_resume; eauto | exact I | lia].
  - reflexivity.
Qed.

End Failures.

(** X1: after a batch with at least one worker, the entries of [errors]
    are about exactly the failed indices: each index of the batch is
    either counted as a success or has exactly one entry, and no index
    has both. *)
Theorem errors_list_failed_indices (mode : string) (progress : bool)
    (scrypt : Common.primitive) (elapsed : nat -> float)
    (cfg : Common.params) (sched : nat -> nat) (t : float) :
  0 < Common.concurrency cfg ->
  let s := snd (Bench.drain mode progress scrypt elapsed cfg sched t) in
  let failed := map Extra.err_index (Bench.errors s) in
  failed = Spec.failures (Bench.history s) /\
  Permutation (Spec.successes (Bench.history s) ++ failed)
              (seq 0 (Common.iterations cfg)) /\
  NoDup (Spec.successes (Bench.history s) ++ failed) /\
  NoDup failed /\
  Forall (fun i => i < Common.iterations cfg) failed.
Proof.
  intros Hc. cbv zeta.
  pose proof (listed_drain mode progress scrypt elapsed cfg sched t) as HL.
  destruct (drain_final mode progress scrypt elapsed cfg sched t)
    as (HI & HF & Hl).
  destruct (final_counts HI HF) as (_ & _ & HP & _); [lia|].
  rewrite HL.
  assert (HP' : Permutation
                  (Spec.successes (Bench.history
                     (snd (Bench.drain mode progress scrypt elapsed cfg
                             sched t)))
                   ++ Spec.failures (Bench.history
                     (snd (Bench.drain mode progress scrypt elapsed cfg
                             sched t))))
                  (seq 0 (Common.iterations cfg))).
  { rewrite <- counted_split. exact HP. }
  assert (HN : NoDup
                 (Spec.successes (Bench.history
                    (snd (Bench.drain mode progress scrypt elapsed cfg
                            sched t)))
                  ++ Spec.failures (Bench.history
                    (snd (Bench.drain mode progress scrypt elapsed cfg
                            sched t))))).
  { eapply Permutation_NoDup; [symmetry; exact HP' | apply seq_NoDup]. }
  conjuncts; auto.
  - apply NoDup_app_remove_l in HN. exact HN.
  - apply Forall_forall. intros i Hi.
    assert (Hin : In i (seq 0 (Common.iterations cfg))).
    { eapply Permutation_in; [exact HP'|]. apply in_or_app. now right. }
    apply in_seq in Hin. lia.
Qed.

Lemma errors_list_failed_indices_witness :
  let s := snd (Bench.drain "sequential" true Scenario.failing_at_2
                  Scenario.stopwatch (Scenario.batch 4 4)
                  Scenario.round_robin 0%float) in
  NoDup (map Extra.err_index (Bench.errors s)).
Proof.
  cbv zeta.
  refine (proj1 (proj2 (proj2 (proj2
    (@errors_list_failed_indices "sequential" true Scenario.failing_at_2
       Scenario.stopwatch (Scenario.batch 4 4) Scenario.round_robin
       0%float _))))).
  cbn. lia.
Defined.

Section Faultless.

Import JS Common.

Variable progress : bool.
Variable scrypt : primitive.
Variable elapsed : nat -> float.
Variable cfg : params.

(** The primitive derives the key from its arguments alone, in time
    and without an error. *)
Variable derive : Buffer -> Buffer -> Buffer.
Hypothesis faultless : forall k pwd salt,
  scrypt k pwd salt (keyLen cfg) (opts cfg)
  = CallsBack None (derive pwd salt) false.

Let key (i : nat) : Buffer :=
  derive (Buffer_from ("pwd-" ++ decimal i)) (Buffer_from ("salt-" ++ decimal i)).

Let clean (s : Bench.store) : Prop :=
  Bench.fail s = 0 /\ Bench.errors s = [].

Let on_course (wk : Bench.worker) : Prop :=
  match wk with
  | Bench.AwaitFirst i k pr => exists ms, pr = Some (Fulfilled (key i, ms))
  | Bench.AwaitSecond i a k pr =>
      fst a = key i /\ exists ms, pr = Some (Fulfilled (key i, ms))
  | Bench.Returned => True
  end.

(** Samples still owed before the counts balance: one for a worker at
    its second [await]. *)
Let owed (wk : Bench.worker) : Z :=
  match wk with
  | Bench.AwaitSecond _ _ _ _ => 1%Z
  | _ => 0%Z
  end.

Let surplus (s : Bench.store) : Z :=
  (Z.of_nat (List.length (Bench.callDurations s))
   - 2 * Z.of_nat (Bench.ok s))%Z.

Lemma faultless_loop w s wk s' :
  clean s ->
  Bench.loop "sequential" progress scrypt elapsed cfg w s = (wk, s') ->
  clean s' /\ on_course wk /\ (surplus s' - owed wk = surplus s)%Z.
Proof.
  intros [Hf He] Hl.
  pose proof (loop_effect "sequential" progress scrypt elapsed cfg w s) as E.
  rewrite Hl in E. unfold clean, surplus.
  destruct E as [(_ & -> & ->)|(i & pwd & salt & t & _ & Hm & -> & E1 & E2
                               & E3 & E4 & _)].
  - cbn. conjuncts; auto. lia.
  - cbn [mkInput String.eqb Ascii.eqb Bool.eqb] in Hm.
    injection Hm as <- <- <-. rewrite E1, E2, E3, E4, faultless.
    cbn [on_course owed Spec.promise_of]. conjuncts; auto; [|lia].
    eexists. reflexivity.
Qed.

Lemma faultless_resume w wk s wk' s' :
  clean s -> on_course wk -> Bench.settled_await wk = true ->
  Bench.resume "sequential" progress scrypt elapsed cfg w wk s = (wk', s') ->
  clean s' /\ on_course wk' /\
  (surplus s' - owed wk' = surplus s - owed wk)%Z.
Proof.
  intros Hc Hq Hs Hr.
  destruct wk as [i k [[a|e]|]|i a k [[b|e]|]|]; cbn in Hs; try discriminate;
    cbn [on_course] in Hq.
  - destruct Hq as (ms & Hq). injection Hq as ->.
    cbn [Bench.resume String.eqb Ascii.eqb Bool.eqb] in Hr.
    pose proof (runOnce_effect "sequential" scrypt elapsed cfg i
                  (Bench.sample k (snd (key i, ms)) s))
      as (pwd & salt & t & Hm & E).
    destruct (Bench.runOnce "sequential" scrypt elapsed cfg i
                (Bench.sample k (snd (key i, ms)) s)) as [[k2 pr2] s2].
    injection Hr as <- <-.
    cbn [mkInput String.eqb Ascii.eqb Bool.eqb] in Hm.
    injection Hm as <- <- <-.
    destruct E as (-> & -> & _ & E1 & E2 & E3 & E4 & _).
    destruct Hc as [Hf He]. unfold clean, surplus.
    rewrite E1, E2, E3, E4, faultless. store_simpl.
    cbn [on_course owed Spec.promise_of fst]. rewrite length_app.
    cbn [List.length].
    conjuncts; auto; [eexists; reflexivity | lia].
  - destruct Hq as (ms & Hq). discriminate.
  - destruct Hq as (Ha & ms & Hq). injection Hq as ->.
    cbn [Bench.resume fst snd] in Hr. rewrite Ha in Hr.
    assert (Heq : Buffer_equals (key i) (key i) = true)
      by now apply Buffer_equals_spec.
    rewrite Heq in Hr. cbn [negb] in Hr.
    edestruct faultless_loop as (Hc' & Hq' & Hg'); [|exact Hr|].
    + destruct Hc as [Hf He]. split; assumption.
    + conjuncts; auto. unfold surplus in *. store_simpl.
      rewrite length_app in Hg'. cbn [List.length owed] in *. lia.
  - destruct Hq as (_ & ms & Hq). discriminate.
Qed.

Lemma faultless_drain (sched : nat -> nat) (t : float) :
  let st := Bench.drain "sequential" progress scrypt elapsed cfg sched t in
  clean (snd st) /\
  (surplus (snd st) = Extra.total owed (fst st))%Z.
Proof.
  cbv zeta.
  pose proof (@drain_keeps "sequential" progress scrypt elapsed cfg
                clean on_course surplus (fun wk => (- owed wk)%Z)) as H1.
  pose proof (@drain_keeps "sequential" progress scrypt elapsed cfg
                clean on_course (fun s => (- surplus s)%Z) owed) as H2.
  assert (Hneg : forall pool,
             Extra.total (fun wk => (- owed wk)%Z) pool
             = (- Extra.total owed pool)%Z).
  { unfold Extra.total. induction pool as [|x pool IH];
      cbn [map fold_right]; [reflexivity | lia]. }
  assert (Hinit : clean (Bench.init cfg t)) by (split; reflexivity).
  destruct H1 with (sched := sched) (t := t) as (Hc & _ & Hg1); auto.
  { intros w s wk s' Hs Hl.
    destruct (@faultless_loop w s wk s' Hs Hl) as (? & ? & ?).
    conjuncts; auto. lia. }
  { intros w wk s wk' s' Hs Hq Hsa Hr.
    destruct (@faultless_resume w wk s wk' s' Hs Hq Hsa Hr) as (? & ? & ?).
    conjuncts; auto. lia. }
  destruct H2 with (sched := sched) (t := t) as (_ & _ & Hg2); auto.
  { intros w s wk s' Hs Hl.
    destruct (@faultless_loop w s wk s' Hs Hl) as (? & ? & ?).
    conjuncts; auto. lia. }
  { intros w wk s wk' s' Hs Hq Hsa Hr.
    destruct (@faultless_resume w wk s wk' s' Hs Hq Hsa Hr) as (? & ? & ?).
    conjuncts; auto. lia. }
  split; [exact Hc|]. rewrite Hneg in Hg1.
  unfold surplus in *.
  cbn [Bench.init Bench.callDurations Bench.ok List.length] in *. lia.
Qed.

End Faultless.

(** X2: in sequential mode, when the primitive derives the key from its
    arguments alone, in time and without an error, a batch with at
    least one worker ends with [ok = iterations], [fail = 0], no entry
    in [errors] and two latency samples per index, in whatever order
    the workers are resumed; both revisions report these counts. *)
Theorem faultless_batch_succeeds (progress : bool)
    (scrypt : Common.primitive) (elapsed : nat -> float)
    (cfg : Common.params) (sched : nat -> nat) (t tStart tEnd : float)
    (start finish : Z) (derive : JS.Buffer -> JS.Buffer -> JS.Buffer) :
  0 < Common.concurrency cfg ->
  (forall k pwd salt,
      scrypt k pwd salt (Common.keyLen cfg) (Common.opts cfg)
      = Common.CallsBack None (derive pwd salt) false) ->
  let s := snd (Bench.drain "sequential" progress scrypt elapsed cfg
                  sched t) in
  Bench.ok s = Common.iterations cfg /\
  Bench.fail s = 0 /\
  Bench.errors s = [] /\
  List.length (Bench.callDurations s) = 2 * Common.iterations cfg /\
  (exists r,
      Bench.runBatch "sequential" progress scrypt elapsed cfg sched t
        tStart tEnd = Some r /\
      Bench.res_ok r = Common.iterations cfg /\
      Bench.res_fail r = 0 /\ Bench.res_errors r = []) /\
  (exists r,
      BenchV1.runBatch "sequential" progress scrypt cfg sched t start finish
      = Some r /\
      BenchV1.res_ok r = Common.iterations cfg /\ BenchV1.res_fail r = 0).
Proof.
  intros Hc Hdet. cbv zeta.
  pose proof (@faultless_drain progress scrypt elapsed cfg derive Hdet sched t)
    as H.
  cbv zeta in H. destruct H as ((Hf & He) & Hsur).
  destruct (drain_final "sequential" progress scrypt elapsed cfg sched t)
    as (HI & HF & Hl).
  destruct (final_counts HI HF) as (_ & Hsum & _); [lia|].
  destruct (returned_joined HF) as (Hj & _).
  pose proof (sim_drain "sequential" progress scrypt elapsed cfg sched t)
    as [Hp Hs].
  pose proof (same_joined Hp) as Hj1.
  assert (Hz : Extra.total
                 (fun wk => match wk with
                            | Bench.AwaitSecond _ _ _ _ => 1%Z
                            | _ => 0%Z
                            end)
                 (fst (Bench.drain "sequential" progress scrypt elapsed cfg
                         sched t)) = 0%Z).
  { clear - HF. unfold Extra.total.
    induction HF as [|wk pool -> _ IH]; cbn [map fold_right];
      [reflexivity | lia]. }
  rewrite Hz in Hsur.
  assert (Hok : Bench.ok (snd (Bench.drain "sequential" progress scrypt
                                 elapsed cfg sched t))
                = Common.iterations cfg) by lia.
  conjuncts; auto.
  - lia.
  - unfold Bench.runBatch.
    destruct (Bench.drain "sequential" progress scrypt elapsed cfg sched t)
      as [pool s]. cbn [fst snd] in *. rewrite Hj.
    eexists. split; [reflexivity|]. cbn. auto.
  - unfold BenchV1.runBatch.
    destruct (BenchV1.drain "sequential" progress scrypt cfg sched t)
      as [pool1 s1].
    cbn [fst snd] in *. rewrite Hj1, Hj.
    eexists. split; [reflexivity|]. cbn.
    destruct Hs as (_ & -> & -> & _). auto.
Qed.

Lemma faultless_batch_succeeds_witness :
  Bench.ok (snd (Bench.drain "sequential" true Scenario.steady
                   Scenario.stopwatch (Scenario.batch 3 5)
                   Scenario.round_robin 0%float)) = 5.
Proof.
  refine (proj1
    (@faultless_batch_succeeds true Scenario.steady Scenario.stopwatch
       (Scenario.batch 3 5) Scenario.round_robin 0%float 0%float 1000%float
       0%Z 1000%Z (fun pwd salt => pwd ++ salt) _ _)).
  - cbn. lia.
  - reflexivity.
Defined.

Section Inputs.

Import JS Common.

Variable mode : string.
Variable progress : bool.
Variable scrypt : primitive.
Variable elapsed : nat -> float.
Variable cfg : params.
Variable t0 : float.

Hypothesis single_call : String.eqb mode "sequential" = false.

(** The invocations made so far, followed by those the queue still
    holds, are the invocations planned at the start. *)
Let planned (s : Bench.store) : Prop :=
  let rest := Extra.plan mode (rev (Bench.queue s)) (Bench.invocations s)
                (Bench.rand s) in
  let all := Extra.plan mode (rev (seq 0 (iterations cfg))) 0 t0 in
  Extra.invocations_of (Bench.history s) ++ fst rest = fst all /\
  snd rest = snd all.

Lemma invocations_of_app h h' :
  Extra.invocations_of (h ++ h')
  = Extra.invocations_of h ++ Extra.invocations_of h'.
Proof. apply filter_app. Qed.

Lemma planned_loop w s wk s' :
  planned s -> Bench.loop mode progress scrypt elapsed cfg w s = (wk, s') ->
  planned s'.
Proof.
  intros H Hl.
  pose proof (loop_effect mode progress scrypt elapsed cfg w s) as E.
  rewrite Hl in E. unfold planned in *. cbv zeta in *.
  destruct E as [(_ & _ & ->)|(i & pwd & salt & t & Hq & Hm & _ & _ & _ & _
                              & _ & Hr & Hi & Hh)]; [exact H|].
  rewrite Hq, rev_app_distr in H. cbn [rev app Extra.plan] in H.
  rewrite Hm in H. rewrite Hr, Hi, Hh, invocations_of_app.
  destruct (Extra.plan mode (rev (Bench.queue s')) (S (Bench.invocations s)) t)
    as [evs t2].
  cbn [fst snd Extra.invocations_of filter] in *.
  rewrite <- app_assoc. exact H.
Qed.

Lemma planned_resume w wk s wk' s' :
  planned s ->
  Bench.resume mode progress scrypt elapsed cfg w wk s = (wk', s') ->
  planned s'.
Proof.
  intros H Hr.
  assert (Hnext : forall s1,
    planned s1 ->
    Bench.loop mode progress scrypt elapsed cfg w s1 = (wk', s') -> planned s')
    by (intros s1; apply planned_loop).
  assert (Hsame : forall s1 evs,
    Bench.queue s1 = Bench.queue s -> Bench.rand s1 = Bench.rand s ->
    Bench.invocations s1 = Bench.invocations s ->
    Bench.history s1 = Bench.history s ++ evs ->
    Extra.invocations_of evs = [] -> planned s1).
  { intros s1 evs E1 E2 E3 E4 E5. unfold planned in *.
    rewrite E1, E2, E3, E4, invocations_of_app, E5, app_nil_r. exact H. }
  destruct wk as [i k [[a|e]|]|i a k [[b|e]|]|]; cbn [Bench.resume] in Hr;
    try (injection Hr as <- <-; exact H).
  - rewrite single_call in Hr.
    apply (Hnext (Bench.success i (Bench.sample k (snd a) s))); [|exact Hr].
    eapply Hsame; [reflexivity | reflexivity | reflexivity
                  | store_simpl; rewrite <- ?app_assoc; reflexivity
                  | reflexivity].
  - apply (Hnext (Bench.catch i e s)); [|exact Hr].
    eapply Hsame; [reflexivity | reflexivity | reflexivity
                  | store_simpl; rewrite <- ?app_assoc; reflexivity
                  | reflexivity].
  - destruct (negb (Buffer_equals (fst a) (fst b))).
    + apply (Hnext (Bench.mismatch i a b (Bench.sample k (snd b) s)));
        [|exact Hr].
      eapply Hsame; [reflexivity | reflexivity | reflexivity
                    | store_simpl; rewrite <- ?app_assoc; reflexivity
                    | reflexivity].
    + apply (Hnext (Bench.success i (Bench.sample k (snd b) s)));
        [|exact Hr].
      eapply Hsame; [reflexivity | reflexivity | reflexivity
                    | store_simpl; rewrite <- ?app_assoc; reflexivity
                    | reflexivity].
  - apply (Hnext (Bench.catch i e s)); [|exact Hr].
    eapply Hsame; [reflexivity | reflexivity | reflexivity
                  | store_simpl; rewrite <- ?app_assoc; reflexivity
                  | reflexivity].
Qed.

Lemma planned_drain (sched : nat -> nat) :
  planned (snd (Bench.drain mode progress scrypt elapsed cfg sched t0)).
Proof.
  apply (@drain_keeps mode progress scrypt elapsed cfg planned
           (fun _ => True) (fun _ => 0%Z) (fun _ => 0%Z)).
  - intros w s wk s' H Hl.
    conjuncts; [eapply planned_loop; eauto | exact I | lia].
  - intros w wk s wk' s' H _ _ Hr.
    conjuncts; [eapply planned_resume; eauto | exact I | lia].
  - unfold planned. cbn [Bench.init Bench.queue Bench.invocations Bench.rand
                         Bench.history Extra.invocations_of filter app].
    unfold range. auto.
Qed.

End Inputs.

Lemma plan_length (mode : string) (indices : list nat) :
  forall k t, List.length (fst (Extra.plan mode indices k t))
              = List.length indices.
Proof.
  induction indices as [|i rest IH]; intros k t; cbn [Extra.plan];
    [reflexivity|].
  destruct (Common.mkInput mode i t) as [[pwd salt] t1].
  specialize (IH (S k) t1).
  destruct (Extra.plan mode rest (S k) t1) as [evs t2].
  cbn [fst List.length] in *. now rewrite IH.
Qed.

Lemma invoked_length (h : list Common.hevent) :
  List.length (Spec.invoked h) = List.length (Extra.invocations_of h).
Proof.
  induction h as [|ev h IH]; [reflexivity|].
  change (ev :: h) with ([ev] ++ h).
  rewrite invocations_of_app, invoked_app, !length_app, IH.
  destruct ev; reflexivity.
Qed.

(** X3: in a mode with one call per index (every mode but sequential,
    random among them), with at least one worker, the invocations of a
    batch are the planned ones: index [iterations - 1] first, down to
    0, each with the inputs that [mkInput] draws in that order from the
    generator as it stood when the batch began.  Neither the order of
    resumptions, nor the number of workers, nor what the primitive does
    changes the arguments of any invocation or the generator's state
    after the batch. *)
Theorem inputs_do_not_depend_on_schedule (mode : string) (progress : bool)
    (scrypt : Common.primitive) (elapsed : nat -> float)
    (cfg : Common.params) (sched : nat -> nat) (t : float) :
  String.eqb mode "sequential" = false ->
  0 < Common.concurrency cfg ->
  let s := snd (Bench.drain mode progress scrypt elapsed cfg sched t) in
  let all := Extra.plan mode (rev (seq 0 (Common.iterations cfg))) 0 t in
  Extra.invocations_of (Bench.history s) = fst all /\
  Bench.rand s = snd all /\
  Bench.invocations s = Common.iterations cfg.
Proof.
  intros Hm Hc. cbv zeta.
  pose proof (@planned_drain mode progress scrypt elapsed cfg t Hm sched)
    as [H1 H2].
  destruct (drain_final mode progress scrypt elapsed cfg sched t)
    as (HI & HF & Hl).
  destruct (final_counts HI HF) as (Hq & _); [lia|].
  rewrite Hq in H1, H2. cbn [rev Extra.plan fst snd] in H1, H2.
  rewrite app_nil_r in H1. conjuncts; auto.
  pose proof HI as [C _ _].
  destruct C as [_ _ _ _ _ _ _ _ _ core_invoked0].
  pose proof (invoked_length
                (Bench.history
                   (snd (Bench.drain mode progress scrypt elapsed cfg
                           sched t)))) as Hlen.
  rewrite core_invoked0, H1, length_seq, plan_length, length_rev, length_seq
    in Hlen.
  exact Hlen.
Qed.

Lemma inputs_do_not_depend_on_schedule_witness :
  Bench.invocations
    (snd (Bench.drain "random" false Scenario.hanging Scenario.stopwatch
            (Scenario.batch 2 3) Scenario.round_robin 1337%float)) = 3.
Proof.
  refine (proj2 (proj2
    (@inputs_do_not_depend_on_schedule "random" false Scenario.hanging
       Scenario.stopwatch (Scenario.batch 2 3) Scenario.round_robin
       1337%float _ _))).
  - reflexivity.
  - cbn. lia.
Defined.

(* ================================================================== *)
(** ** Random inputs *)
(* ================================================================== *)

Section RandomInputs.

Import JS Common.

Lemma advance_add (m : nat) :
  forall n t, Extra.advance (m + n) t = Extra.advance n (Extra.advance m t).
Proof. induction m as [|m IH]; intros n t; cbn; auto. Qed.

Lemma top_bytes_length (n : nat) :
  forall t, List.length (Extra.top_bytes n t) = n.
Proof.
  induction n as [|n IH]; intros t; cbn [Extra.top_bytes]; [reflexivity|].
  destruct (Prng.next_word t) as [u t']. cbn [List.length]. now rewrite IH.
Qed.

(** [Math.floor(x * 256)] for [x = u / 2^32] is [u >>> 24]. *)
Lemma floor_scaled (u : Z) :
  Qfloor (Qmake u (Pos.pow 2 32) * 256)%Q = Z.shiftr u 24.
Proof.
  unfold Qfloor, Qmult. cbn [Qnum Qden inject_Z].
  rewrite Z.shiftr_div_pow2 by lia.
  change (Z.pos (2 ^ 32 * 1)) with (2 ^ 24 * 256)%Z.
  rewrite Z.div_mul_cancel_r by lia. reflexivity.
Qed.

Lemma randBuf_top_bytes (n : nat) :
  forall t, randBuf n t = (Extra.top_bytes n t, Extra.advance n t).
Proof.
  induction n as [|n IH]; intros t; cbn [randBuf Extra.top_bytes Extra.advance];
    [reflexivity|].
  unfold Prng.next. destruct (Prng.next_word t) as [u t'] eqn:E.
  cbn [snd]. rewrite IH, floor_scaled. reflexivity.
Qed.

Lemma byte_of_Z_value (z : Z) :
  (0 <= z < 256)%Z -> Byte.to_N (byte_of_Z z) = Z.to_N z.
Proof.
  intros H. unfold byte_of_Z. rewrite Z.mod_small by exact H.
  destruct (Byte.of_N (Z.to_N z)) as [b|] eqn:E.
  - now apply Byte.to_of_N.
  - apply Byte.of_N_None_iff in E. lia.
Qed.

End RandomInputs.

(** X4: [randBuf(len)] returns [len] bytes and draws [len] numbers from
    the generator; each byte is the top eight bits of the 32-bit word
    behind the number drawn for it, without wrap-around, so the other
    24 bits of every word are discarded; and a buffer of [m + n] bytes
    is the [m]-byte buffer followed by the [n]-byte buffer drawn
    next. *)
Theorem randBuf_bytes (m n : nat) (t : float) :
  List.length (fst (Common.randBuf n t)) = n /\
  snd (Common.randBuf n t) = Extra.advance n t /\
  fst (Common.randBuf (S n) t)
  = Common.byte_of_Z (Z.shiftr (fst (Prng.next_word t)) 24)
    :: fst (Common.randBuf n (snd (Prng.next_word t))) /\
  Byte.to_N (Common.byte_of_Z (Z.shiftr (fst (Prng.next_word t)) 24))
  = Z.to_N (Z.shiftr (fst (Prng.next_word t)) 24) /\
  (Z.shiftr (fst (Prng.next_word t)) 24 < 256)%Z /\
  fst (Common.randBuf (m + n) t)
  = fst (Common.randBuf m t)
    ++ fst (Common.randBuf n (snd (Common.randBuf m t))).
Proof.
  assert (Hword : (0 <= Z.shiftr (fst (Prng.next_word t)) 24 < 256)%Z).
  { unfold Prng.next_word. cbn [fst].
    pose proof (mix_range (JS.truncate (t + 1831565813)%float)) as H.
    rewrite Z.shiftr_div_pow2 by lia. split.
    - apply Z.div_pos; lia.
    - apply Z.div_lt_upper_bound; lia. }
  conjuncts.
  - rewrite randBuf_top_bytes. apply top_bytes_length.
  - now rewrite randBuf_top_bytes.
  - rewrite !randBuf_top_bytes. cbn [fst Extra.top_bytes].
    destruct (Prng.next_word t) as [u t']. reflexivity.
  - now apply byte_of_Z_value.
  - lia.
  - rewrite !randBuf_top_bytes. cbn [fst snd]. revert t Hword.
    induction m as [|m IH]; intros t _; [reflexivity|].
    cbn [Nat.add Extra.top_bytes Extra.advance]. unfold Prng.next.
    destruct (Prng.next_word t) as [u t'] eqn:E. cbn [snd app].
    f_equal. apply IH.
    unfold Prng.next_word. cbn [fst].
    pose proof (mix_range (JS.truncate (t' + 1831565813)%float)) as H.
    rewrite Z.shiftr_div_pow2 by lia. split.
    + apply Z.div_pos; lia.
    + apply Z.div_lt_upper_bound; lia.
Qed.

(** X5: in random mode [mkInput(i)] returns a password of
    [16 + i mod 16] bytes and a salt of [16 + (7 i) mod 16] bytes, each
    between 16 and 31 bytes long, the password drawn first and the salt
    from where the password stopped, and leaves the generator
    [32 + i mod 16 + (7 i) mod 16] draws further on: unlike in
    sequential mode, a second call for the same index continues the
    stream instead of repeating the pair. *)
Theorem mkInput_random (i : nat) (t : float) :
  let pwd_len := 16 + i mod 16 in
  let salt_len := 16 + (i * 7) mod 16 in
  Common.mkInput "random" i t
  = (Extra.top_bytes pwd_len t,
     Extra.top_bytes salt_len (Extra.advance pwd_len t),
     Extra.advance (pwd_len + salt_len) t) /\
  List.length (fst (fst (Common.mkInput "random" i t))) = pwd_len /\
  List.length (snd (fst (Common.mkInput "random" i t))) = salt_len /\
  16 <= pwd_len <= 31 /\ 16 <= salt_len <= 31 /\
  fst (Common.mkInput "random" i
         (snd (Common.mkInput "random" i t)))
  = (Extra.top_bytes pwd_len (Extra.advance (pwd_len + salt_len) t),
     Extra.top_bytes salt_len
       (Extra.advance pwd_len (Extra.advance (pwd_len + salt_len) t))).
Proof.
  cbv zeta.
  assert (E : forall t0,
    Common.mkInput "random" i t0
    = (Extra.top_bytes (16 + i mod 16) t0,
       Extra.top_bytes (16 + (i * 7) mod 16)
         (Extra.advance (16 + i mod 16) t0),
       Extra.advance (16 + i mod 16 + (16 + (i * 7) mod 16)) t0)).
  { intros t0. unfold Common.mkInput.
    change (String.eqb "random" "random") with true. cbv iota.
    rewrite randBuf_top_bytes. cbv iota beta.
    rewrite randBuf_top_bytes.
    now rewrite (advance_add (16 + i mod 16) (16 + (i * 7) mod 16) t0). }
  pose proof (Nat.mod_upper_bound i 16) as H1.
  pose proof (Nat.mod_upper_bound (i * 7) 16) as H2.
  rewrite !E. cbn [fst snd]. rewrite !top_bytes_length.
  conjuncts; auto; lia.
Qed.

(* ================================================================== *)
(** ** Counting invocations *)
(* ================================================================== *)

Section Invocations.

Import JS Common.

Variable mode : string.
Variable progress : bool.
Variable scrypt : primitive.
Variable elapsed : nat -> float.
Variable cfg : params.

Let cpi : Z := Z.of_nat (Extra.callsPerIter mode).

(** Invocations made, plus those the queued indices may still need. *)
Let budget (s : Bench.store) : Z :=
  (Z.of_nat (Bench.invocations s)
   + cpi * Z.of_nat (List.length (Bench.queue s)))%Z.

(** Invocations a suspended worker may still make for its index. *)
Let due (wk : Bench.worker) : Z :=
  match wk with
  | Bench.AwaitFirst _ _ _ => (cpi - 1)%Z
  | _ => 0%Z
  end.

Lemma cpi_cases :
  (String.eqb mode "sequential" = true /\ cpi = 2%Z) \/
  (String.eqb mode "sequential" = false /\ cpi = 1%Z).
Proof.
  unfold cpi, Extra.callsPerIter.
  destruct (String.eqb mode "sequential"); [left | right]; auto.
Qed.

Lemma budget_loop w s wk s' :
  Bench.loop mode progress scrypt elapsed cfg w s = (wk, s') ->
  (budget s' + due wk = budget s)%Z.
Proof.
  intros Hl.
  pose proof (loop_effect mode progress scrypt elapsed cfg w s) as E.
  rewrite Hl in E. unfold budget.
  destruct E as [(_ & -> & ->)|(i & pwd & salt & t & Hq & _ & -> & _ & _ & _
                               & _ & _ & Hi & _)].
  - cbn [due]. lia.
  - rewrite Hq, Hi, length_app. cbn [List.length due]. lia.
Qed.

Lemma budget_resume w wk s wk' s' :
  Bench.resume mode progress scrypt elapsed cfg w wk s = (wk', s') ->
  (budget s' + due wk' <= budget s + due wk)%Z.
Proof.
  intros Hr.
  assert (Hnext : forall s1,
    budget s1 = budget s ->
    Bench.loop mode progress scrypt elapsed cfg w s1 = (wk', s') ->
    (budget s' + due wk' <= budget s + due wk)%Z).
  { intros s1 E Hl. apply budget_loop in Hl. rewrite E in Hl.
    destruct cpi_cases as [[_ Hc]|[_ Hc]]; destruct wk; cbn [due]; lia. }
  destruct wk as [i k [[a|e]|]|i a k [[b|e]|]|]; cbn [Bench.resume] in Hr;
    try (injection Hr as <- <-; lia);
    try (eapply Hnext; [|exact Hr]; reflexivity).
  - destruct cpi_cases as [[Hm Hc]|[Hm Hc]]; rewrite Hm in Hr.
    + pose proof (runOnce_effect mode scrypt elapsed cfg i
                    (Bench.sample k (snd a) s)) as (pwd & salt & t & _ & E).
      destruct (Bench.runOnce mode scrypt elapsed cfg i
                  (Bench.sample k (snd a) s)) as [[k2 pr2] s2].
      injection Hr as <- <-.
      destruct E as (_ & _ & Hq & _ & _ & _ & _ & _ & Hi & _).
      unfold budget. rewrite Hq, Hi. store_simpl. cbn [due]. lia.
    + eapply Hnext; [|exact Hr]. reflexivity.
  - destruct (negb (Buffer_equals (fst a) (fst b)));
      (eapply Hnext; [|exact Hr]; reflexivity).
Qed.

Lemma budget_drain (sched : nat -> nat) (t : float) :
  let st := Bench.drain mode progress scrypt elapsed cfg sched t in
  (budget (snd st) + Extra.total due (fst st)
   <= cpi * Z.of_nat (iterations cfg))%Z.
Proof.
  cbv zeta.
  destruct (@drain_keeps mode progress scrypt elapsed cfg
              (fun _ => True) (fun _ => True) budget due)
    with (sched := sched) (t := t) as (_ & _ & H).
  - intros w s wk s' _ Hl. apply budget_loop in Hl.
    conjuncts; auto. lia.
  - intros w wk s wk' s' _ _ _ Hr. apply budget_resume in Hr.
    conjuncts; auto.
  - exact I.
  - unfold budget in H at 2.
    cbn [Bench.init Bench.invocations Bench.queue] in H.
    unfold range in H. rewrite length_seq in H. lia.
Qed.

End Invocations.

(** X6: after a batch with at least one worker there are at most as many
    latency samples as invocations, and at most as many invocations as
    the [totalCalls] of the metrics, [ok * callsPerIter + fail *
    callsPerIter], which is [callsPerIter * iterations] however many
    calls were really made: the call throughput counts two calls for an
    index of sequential mode even when its first call failed. *)
Theorem totalCalls_bounds_invocations (mode : string) (progress : bool)
    (scrypt : Common.primitive) (elapsed : nat -> float)
    (cfg : Common.params) (sched : nat -> nat) (t : float) :
  0 < Common.concurrency cfg ->
  let s := snd (Bench.drain mode progress scrypt elapsed cfg sched t) in
  let callsPerIter := if String.eqb mode "sequential" then 2 else 1 in
  let totalCalls := Bench.ok s * callsPerIter + Bench.fail s * callsPerIter in
  List.length (Bench.callDurations s) <= Bench.invocations s /\
  Bench.invocations s <= totalCalls /\
  totalCalls = callsPerIter * Common.iterations cfg.
Proof.
  intros Hc. cbv zeta.
  pose proof (budget_drain mode progress scrypt elapsed cfg sched t) as HB.
  cbv zeta in HB.
  destruct (drain_final mode progress scrypt elapsed cfg sched t)
    as (HI & HF & Hl).
  destruct (final_counts HI HF) as (Hq & Hsum & _); [lia|].
  destruct (returned_joined HF) as (_ & _ & Hk).
  pose proof HI as [C _ _]. rewrite Hk in C.
  destruct C as [_ _ _ _ _ core_samples0 _ core_ids0 core_fresh0 _].
  assert (Hz : forall g0 : Bench.worker -> Z,
             g0 Bench.Returned = 0%Z ->
             Extra.total g0
               (fst (Bench.drain mode progress scrypt elapsed cfg sched t))
             = 0%Z).
  { intros g0 Hg0. clear - HF Hg0. unfold Extra.total.
    induction HF as [|wk pool -> _ IH]; cbn [map fold_right];
      [reflexivity | lia]. }
  rewrite Hz in HB by reflexivity. rewrite Hq in HB.
  cbn [List.length] in HB. unfold Extra.callsPerIter in HB.
  conjuncts.
  - assert (Hle :
      List.length
        (map fst (Spec.sampled (Bench.history
           (snd (Bench.drain mode progress scrypt elapsed cfg sched t)))))
      <= List.length
           (seq 0 (Bench.invocations
              (snd (Bench.drain mode progress scrypt elapsed cfg sched t))))).
    { apply NoDup_incl_length.
      - apply (NoDup_count_occ Nat.eq_dec). intros x.
        specialize (core_ids0 x). cbn [count_occ] in core_ids0. lia.
      - intros x Hx. apply in_seq. split; [lia|]. cbn [Nat.add].
        apply core_fresh0. rewrite app_nil_r. exact Hx. }
    rewrite length_map, length_seq in Hle.
    rewrite core_samples0, length_map. exact Hle.
  - destruct (String.eqb mode "sequential"); nia.
  - destruct (String.eqb mode "sequential"); nia.
Qed.

Lemma totalCalls_bounds_invocations_witness :
  let s := snd (Bench.drain "sequential" true Scenario.failing_at_2
                  Scenario.stopwatch (Scenario.batch 4 4)
                  Scenario.round_robin 0%float) in
  Bench.invocations s <= Bench.ok s * 2 + Bench.fail s * 2.
Proof.
  cbv zeta.
  refine (proj1 (proj2
    (@totalCalls_bounds_invocations "sequential" true Scenario.failing_at_2
       Scenario.stopwatch (Scenario.batch 4 4) Scenario.round_robin
       0%float _))).
  cbn. lia.
Defined.

(* ================================================================== *)
(** ** The order of binary64 numbers *)
(* ================================================================== *)

Section FloatOrder.

Ltac compare_cases :=
  repeat match goal with
         | |- context [Z.compare ?a ?b] => destruct (Z.compare_spec a b)
         | H : context [Z.compare ?a ?b] |- _ => destruct (Z.compare_spec a b)
         | |- context [Pos.compare ?a ?b] => destruct (Pos.compare_spec a b)
         | H : context [Pos.compare ?a ?b] |- _ =>
             destruct (Pos.compare_spec a b)
         end.

Lemma SFleb_refl (f : spec_float) : f <> S754_nan -> SFleb f f = true.
Proof.
  destruct f as [s|s| |s m e]; intros H; try congruence; try reflexivity.
  - destruct s; reflexivity.
  - unfold SFleb, SFcompare. change (Pos.compare_cont Eq m m) with (m ?= m)%positive.
    rewrite Z.compare_refl, Pos.compare_refl. destruct s; reflexivity.
Qed.

Lemma SFleb_total (f1 f2 : spec_float) :
  f1 <> S754_nan -> f2 <> S754_nan ->
  SFltb f1 f2 = false -> SFleb f2 f1 = true.
Proof.
  unfold SFltb, SFleb, SFcompare.
  destruct f1 as [s1|s1| |s1 m1 e1], f2 as [s2|s2| |s2 m2 e2];
    intros H1 H2; try congruence;
    try destruct s1; try destruct s2; try reflexivity; try discriminate;
    change (Pos.compare_cont Eq m1 m2) with (m1 ?= m2)%positive;
    change (Pos.compare_cont Eq m2 m1) with (m2 ?= m1)%positive;
    cbn; compare_cases; cbn; try reflexivity; try discriminate; lia.
Qed.

Lemma SFltb_leb (f1 f2 : spec_float) :
  SFltb f1 f2 = true -> SFleb f1 f2 = true.
Proof.
  unfold SFltb, SFleb. destruct (SFcompare f1 f2) as [[| |]|];
    try discriminate; reflexivity.
Qed.

Lemma SFleb_trans (f1 f2 f3 : spec_float) :
  SFleb f1 f2 = true -> SFleb f2 f3 = true -> SFleb f1 f3 = true.
Proof.
  unfold SFleb, SFcompare.
  destruct f1 as [s1|s1| |s1 m1 e1], f2 as [s2|s2| |s2 m2 e2],
           f3 as [s3|s3| |s3 m3 e3];
    try destruct s1; try destruct s2; try destruct s3;
    try reflexivity; try discriminate;
    change (Pos.compare_cont Eq m1 m2) with (m1 ?= m2)%positive;
    change (Pos.compare_cont Eq m2 m3) with (m2 ?= m3)%positive;
    change (Pos.compare_cont Eq m1 m3) with (m1 ?= m3)%positive;
    cbn; compare_cases; cbn; try reflexivity; try discriminate; lia.
Qed.

Lemma not_nan_spec (x : float) :
  is_nan x = false <-> Prim2SF x <> S754_nan.
Proof.
  unfold is_nan. rewrite eqb_spec. unfold SFeqb. split.
  - intros H E. rewrite E in H. discriminate.
  - intros H. destruct (Prim2SF x) as [s|s| |s m e] eqn:E; try congruence.
    + reflexivity.
    + destruct s; reflexivity.
    + unfold SFcompare.
      change (Pos.compare_cont Eq m m) with (m ?= m)%positive.
      rewrite Z.compare_refl, Pos.compare_refl. destruct s; reflexivity.
Qed.

Lemma leb_refl (x : float) : is_nan x = false -> (x <=? x)%float = true.
Proof. rewrite not_nan_spec, leb_spec. apply SFleb_refl. Qed.

Lemma leb_total (x y : float) :
  is_nan x = false -> is_nan y = false ->
  (x <? y)%float = false -> (y <=? x)%float = true.
Proof. rewrite !not_nan_spec, ltb_spec, leb_spec. apply SFleb_total. Qed.

Lemma ltb_leb (x y : float) :
  (x <? y)%float = true -> (x <=? y)%float = true.
Proof. rewrite ltb_spec, leb_spec. apply SFltb_leb. Qed.

Lemma leb_trans (x y z : float) :
  (x <=? y)%float = true -> (y <=? z)%float = true -> (x <=? z)%float = true.
Proof. rewrite !leb_spec. apply SFleb_trans. Qed.

Lemma eqb_refl (x : float) : is_nan x = false -> (x =? x)%float = true.
Proof. unfold is_nan. now destruct (x =? x)%float. Qed.

Lemma finite_not_nan (x : float) : is_finite x = true -> is_nan x = false.
Proof. unfold is_finite. destruct (is_nan x); [discriminate | reflexivity]. Qed.

Lemma zeros_leb (x y : float) :
  Report.is_neg_zero x = true -> Report.is_pos_zero y = true ->
  (x <=? y)%float = true /\ (y <=? x)%float = true /\
  is_nan x = false /\ is_nan y = false.
Proof.
  unfold Report.is_neg_zero, Report.is_pos_zero.
  rewrite !classify_spec, !leb_spec, !not_nan_spec.
  unfold SF64classify, SFclassify.
  destruct (Prim2SF x) as [[|]|[|]| |[|] m e]; try discriminate;
    try (destruct (Z.eqb _ _); discriminate);
    destruct (Prim2SF y) as [[|]|[|]| |[|] m' e']; try discriminate;
    try (destruct (Z.eqb _ _); discriminate).
  intros _ _. conjuncts; try reflexivity; discriminate.
Qed.

End FloatOrder.

(* ================================================================== *)
(** ** The Markdown summary *)
(* ================================================================== *)

Section Extremes.

Import Report.

Lemma max_scan (xs : list float) :
  forall hi, is_nan hi = false -> Forall (fun x => is_nan x = false) xs ->
    let r := fold_left
               (fun highest x =>
                  if is_pos_zero x && is_neg_zero highest then x
                  else if (highest <? x)%float then x else highest)
               xs hi in
    is_nan r = false /\ (hi <=? r)%float = true /\
    Forall (fun x => (x <=? r)%float = true) xs /\
    (r = hi \/ In r xs).
Proof.
  induction xs as [|x xs IH]; intros hi Hhi Hxs; cbn [fold_left].
  - conjuncts; auto. now apply leb_refl.
  - inversion Hxs as [|? ? Hx Hxs']; subst.
    set (h := if is_pos_zero x && is_neg_zero hi then x
              else if (hi <? x)%float then x else hi).
    assert (Hh : is_nan h = false /\ (hi <=? h)%float = true /\
                 (x <=? h)%float = true /\ (h = hi \/ h = x)).
    { subst h. destruct (is_pos_zero x && is_neg_zero hi) eqn:Ez.
      - apply andb_true_iff in Ez. destruct Ez as [E1 E2].
        destruct (zeros_leb hi x E2 E1) as (L1 & _).
        conjuncts; auto. now apply leb_refl.
      - destruct (hi <? x)%float eqn:El.
        + conjuncts; auto; [now apply ltb_leb | now apply leb_refl].
        + conjuncts; auto; [now apply leb_refl | now apply leb_total]. }
    destruct Hh as (H1 & H2 & H3 & H4).
    destruct (IH h H1 Hxs') as (R1 & R2 & R3 & R4). cbv zeta.
    conjuncts; auto.
    + eapply leb_trans; eassumption.
    + constructor; [eapply leb_trans; eassumption | exact R3].
    + destruct R4 as [->|R4]; [|right; now right].
      destruct H4 as [->| ->]; [now left | right; now left].
Qed.

Lemma min_scan (xs : list float) :
  forall lo, is_nan lo = false -> Forall (fun x => is_nan x = false) xs ->
    let r := fold_left
               (fun lowest x =>
                  if is_neg_zero x && is_pos_zero lowest then x
                  else if (x <? lowest)%float then x else lowest)
               xs lo in
    is_nan r = false /\ (r <=? lo)%float = true /\
    Forall (fun x => (r <=? x)%float = true) xs /\
    (r = lo \/ In r xs).
Proof.
  induction xs as [|x xs IH]; intros lo Hlo Hxs; cbn [fold_left].
  - conjuncts; auto. now apply leb_refl.
  - inversion Hxs as [|? ? Hx Hxs']; subst.
    set (h := if is_neg_zero x && is_pos_zero lo then x
              else if (x <? lo)%float then x else lo).
    assert (Hh : is_nan h = false /\ (h <=? lo)%float = true /\
                 (h <=? x)%float = true /\ (h = lo \/ h = x)).
    { subst h. destruct (is_neg_zero x && is_pos_zero lo) eqn:Ez.
      - apply andb_true_iff in Ez. destruct Ez as [E1 E2].
        destruct (zeros_leb x lo E1 E2) as (L1 & _).
        conjuncts; auto. now apply leb_refl.
      - destruct (x <? lo)%float eqn:El.
        + conjuncts; auto; [now apply ltb_leb | now apply leb_refl].
        + conjuncts; auto; [now apply leb_refl | now apply leb_total]. }
    destruct Hh as (H1 & H2 & H3 & H4).
    destruct (IH h H1 Hxs') as (R1 & R2 & R3 & R4). cbv zeta.
    conjuncts; auto.
    + eapply leb_trans; eassumption.
    + constructor; [eapply leb_trans; eassumption | exact R3].
    + destruct R4 as [->|R4]; [|right; now right].
      destruct H4 as [->| ->]; [now left | right; now left].
Qed.

Lemma below_neg_infinity (x : float) :
  (x <=? neg_infinity)%float = true -> x = neg_infinity.
Proof.
  rewrite leb_spec. intros H. apply Prim2SF_inj.
  change (Prim2SF neg_infinity) with (S754_infinity true) in *.
  destruct (Prim2SF x) as [s|s| |s m e]; cbn in H; try discriminate;
    destruct s; try discriminate; reflexivity.
Qed.

Lemma above_infinity (x : float) :
  (infinity <=? x)%float = true -> x = infinity.
Proof.
  rewrite leb_spec. intros H. apply Prim2SF_inj.
  change (Prim2SF infinity) with (S754_infinity false) in *.
  destruct (Prim2SF x) as [s|s| |s m e]; cbn in H; try discriminate;
    destruct s; try discriminate; reflexivity.
Qed.

Lemma no_nan (xs : list float) :
  Forall (fun x => is_finite x = true) xs -> existsb is_nan xs = false.
Proof.
  induction 1 as [|x xs Hx _ IH]; cbn [existsb]; [reflexivity|].
  now rewrite (finite_not_nan x Hx), IH.
Qed.

(** The largest of finitely many finite numbers is one of them and
    bounds them all. *)
Lemma Math_max_spec (xs : list float) :
  xs <> [] -> Forall (fun x => is_finite x = true) xs ->
  In (Math_max xs) xs /\
  Forall (fun x => (x <=? Math_max xs)%float = true) xs.
Proof.
  intros Hne Hfin. unfold Math_max. rewrite (no_nan Hfin).
  assert (Hnn : Forall (fun x => is_nan x = false) xs).
  { eapply Forall_impl; [|exact Hfin]. intros x. apply finite_not_nan. }
  destruct (@max_scan xs neg_infinity eq_refl Hnn) as (_ & _ & R3 & R4).
  cbv zeta in *. split; [|exact R3].
  destruct R4 as [E|Hin]; [|exact Hin].
  rewrite E in R3. destruct xs as [|x xs]; [congruence|].
  inversion R3 as [|? ? Hx _]; subst. inversion Hfin as [|? ? Hf _]; subst.
  apply below_neg_infinity in Hx. rewrite Hx in Hf. discriminate.
Qed.

Lemma Math_min_spec (xs : list float) :
  xs <> [] -> Forall (fun x => is_finite x = true) xs ->
  In (Math_min xs) xs /\
  Forall (fun x => (Math_min xs <=? x)%float = true) xs.
Proof.
  intros Hne Hfin. unfold Math_min. rewrite (no_nan Hfin).
  assert (Hnn : Forall (fun x => is_nan x = false) xs).
  { eapply Forall_impl; [|exact Hfin]. intros x. apply finite_not_nan. }
  destruct (@min_scan xs infinity eq_refl Hnn) as (_ & _ & R3 & R4).
  cbv zeta in *. split; [|exact R3].
  destruct R4 as [E|Hin]; [|exact Hin].
  rewrite E in R3. destruct xs as [|x xs]; [congruence|].
  inversion R3 as [|? ? Hx _]; subst. inversion Hfin as [|? ? Hf _]; subst.
  apply above_infinity in Hx. rewrite Hx in Hf. discriminate.
Qed.

End Extremes.

Section BestFacts.

Import Report.

Variable results : list Bench.BatchResult.
Variable key : metric.

#[local] Abbreviation vals :=
  (filter Number_isFinite (map (fun r => get r key) results)).

Lemma vals_finite :
  Forall (fun x => is_finite x = true) (map ToNumber vals).
Proof.
  apply Forall_forall. intros x Hx. apply in_map_iff in Hx.
  destruct Hx as (v & <- & Hv). apply filter_In in Hv.
  destruct Hv as [_ Hf]. destruct v; [exact Hf | discriminate].
Qed.

Lemma vals_origin (x : float) :
  In x (map ToNumber vals) ->
  exists r, In r results /\ get r key = Metrics.Num x /\ is_finite x = true.
Proof.
  intros Hx. apply in_map_iff in Hx. destruct Hx as (v & <- & Hv).
  apply filter_In in Hv. destruct Hv as [Hin Hf].
  apply in_map_iff in Hin. destruct Hin as (r & Hr & Hin).
  exists r. destruct v; [|discriminate]. cbn. auto.
Qed.

Lemma vals_member (r : Bench.BatchResult) :
  In r results -> Number_isFinite (get r key) = true ->
  In (ToNumber (get r key)) (map ToNumber vals).
Proof.
  intros Hin Hf. apply in_map. apply filter_In. split; [|exact Hf].
  apply in_map_iff. now exists r.
Qed.

Lemma vals_empty :
  Nat.eqb (List.length vals) 0 = true <->
  Forall (fun r => Number_isFinite (get r key) = false) results.
Proof.
  rewrite Nat.eqb_eq, length_zero_iff_nil. split.
  - intros E. apply Forall_forall. intros r Hin.
    destruct (Number_isFinite (get r key)) eqn:Hf; [|reflexivity].
    assert (Hm : In (get r key) vals).
    { apply filter_In. split; [|exact Hf]. apply in_map_iff. now exists r. }
    rewrite E in Hm. destruct Hm.
  - intros H. induction results as [|r rs IH]; [reflexivity|].
    inversion H as [|? ? Hr Hrs]; subst. cbn [map filter]. rewrite Hr.
    now apply IH.
Qed.

Lemma variant_eqb_refl (v : Common.variant) : variant_eqb v v = true.
Proof. destruct v; reflexivity. Qed.

End BestFacts.

(** X7: when [best] returns an object, its [bestVal] is the finite
    value of one of the results, no result has a larger finite value
    (a smaller one, when lower is better), values that are not finite
    are ignored, and [set] holds exactly the variants of the results
    whose value equals [bestVal], of which there is at least one: every
    tie is marked. *)
Theorem best_marks_extremes (results : list Bench.BatchResult)
    (key : Report.metric) (higherIsBetter : bool) (b : Report.best_of) :
  Report.best results key higherIsBetter = Some b ->
  is_finite (Report.bestVal b) = true /\
  Forall (fun r =>
            Report.Number_isFinite (Report.get r key) = false \/
            (if higherIsBetter
             then (Report.ToNumber (Report.get r key) <=? Report.bestVal b)
             else (Report.bestVal b <=? Report.ToNumber (Report.get r key)))
            %float = true)
         results /\
  Report.set b
  = map Bench.res_variant
      (filter (fun r => Report.strict_eq (Report.get r key) (Report.bestVal b))
              results) /\
  exists r,
    In r results /\
    Report.get r key = Metrics.Num (Report.bestVal b) /\
    Report.has b (Bench.res_variant r) = true.
Proof.
  unfold Report.best.
  destruct (Nat.eqb (List.length
              (filter Report.Number_isFinite
                 (map (fun r => Report.get r key) results))) 0) eqn:E;
    [discriminate|].
  intros H. injection H as <-. cbn [Report.bestVal Report.set].
  assert (Hne : map Report.ToNumber
                  (filter Report.Number_isFinite
                     (map (fun r => Report.get r key) results)) <> []).
  { intros Hnil. apply map_eq_nil in Hnil. rewrite Hnil in E. discriminate. }
  pose proof (vals_finite results key) as Hfin.
  set (bv := if higherIsBetter
             then Report.Math_max _ else Report.Math_min _) in *.
  assert (Hbv : In bv (map Report.ToNumber
                         (filter Report.Number_isFinite
                            (map (fun r => Report.get r key) results))) /\
                Forall (fun x => (if higherIsBetter then (x <=? bv)
                                  else (bv <=? x))%float = true)
                       (map Report.ToNumber
                          (filter Report.Number_isFinite
                             (map (fun r => Report.get r key) results)))).
  { subst bv. destruct higherIsBetter.
    - now apply Math_max_spec.
    - now apply Math_min_spec. }
  destruct Hbv as [Hin Hall].
  destruct (vals_origin results key bv Hin) as (r & Hr & Hg & Hf).
  conjuncts; auto.
  - apply Forall_forall. intros r' Hr'.
    destruct (Report.Number_isFinite (Report.get r' key)) eqn:Hf';
      [right | now left].
    rewrite Forall_forall in Hall. apply Hall.
    now apply vals_member.
  - exists r. conjuncts; auto.
    unfold Report.has. cbn [Report.set]. apply existsb_exists.
    exists (Bench.res_variant r). split; [|apply variant_eqb_refl].
    apply in_map. apply filter_In. split; [exact Hr|].
    rewrite Hg. cbn [Report.strict_eq]. apply eqb_refl.
    now apply finite_not_nan.
Qed.

Lemma best_marks_extremes_witness :
  Report.set (Report.mkBest 12 [Common.callback; Common.manualPromise])
  = map Bench.res_variant
      (filter (fun r =>
                 Report.strict_eq (Report.get r Report.iterThroughput) 12)
              Samples.three).
Proof.
  refine (proj1 (proj2 (proj2
    (@best_marks_extremes Samples.three Report.iterThroughput true
       (Report.mkBest 12 [Common.callback; Common.manualPromise]) _)))).
  vm_compute. reflexivity.
Defined.

Section RenderingFacts.

Import Report.

Variable toFixed : float -> nat -> string.

Lemma best_none (rs : list Bench.BatchResult) (key : metric) (hib : bool) :
  best rs key hib = None <->
  Forall (fun r => Number_isFinite (get r key) = false) rs.
Proof.
  rewrite <- vals_empty. unfold best.
  destruct (Nat.eqb _ 0); split; intros H; try reflexivity; discriminate.
Qed.

Lemma bests_of_none (rs : list Bench.BatchResult) (key : metric) :
  bests_of rs key = None <->
  Forall (fun r => Number_isFinite (get r key) = false) rs.
Proof. destruct key; apply best_none. Qed.

Lemma row_none (r : Bench.BatchResult) (bests : metric -> option best_of) :
  row toFixed r bests = None <-> exists key, bests key = None.
Proof.
  unfold row, star. split.
  - destruct (bests iterThroughput) eqn:E1; [|now exists iterThroughput].
    destruct (bests callThroughput) eqn:E2; [|now exists callThroughput].
    destruct (bests p50) eqn:E3; [|now exists p50].
    destruct (bests p90) eqn:E4; [|now exists p90].
    destruct (bests p99) eqn:E5; [|now exists p99].
    discriminate.
  - intros [key E]. destruct key; rewrite ?E;
      repeat match goal with
             | |- context [match bests ?k with _ => _ end] =>
                 destruct (bests k)
             end; try reflexivity; discriminate.
Qed.

Lemma rows_some (rs : list Bench.BatchResult)
    (bests : metric -> option best_of) :
  (forall key, bests key <> None) ->
  exists lines, rows toFixed rs bests = Some lines /\
                List.length lines = List.length rs.
Proof.
  intros H. induction rs as [|r rs (lines & IH & Hl)]; cbn [rows].
  - now exists [].
  - destruct (row toFixed r bests) as [line|] eqn:E.
    + rewrite IH. eexists. split; [reflexivity|]. cbn. now rewrite Hl.
    + apply row_none in E. destruct E as [key E]. now apply H in E.
Qed.

Lemma rows_none (rs : list Bench.BatchResult)
    (bests : metric -> option best_of) :
  rs <> [] -> (exists key, bests key = None) ->
  rows toFixed rs bests = None.
Proof.
  intros Hne H. destruct rs as [|r rs]; [congruence|]. cbn [rows].
  apply (proj2 (row_none r bests)) in H. now rewrite H.
Qed.

End RenderingFacts.

(** X8: the table of a concurrency level needs a finite value of every
    metric in at least one of its results.  When, for some metric, no
    result of the level has one (as when no batch of the level
    collected a latency sample, so that its percentiles are NaN),
    [best] returns [null], reading [bests[metric].set] throws, and the
    summary stops after the heading of that level: neither its table
    nor any later one is printed.  Otherwise the table has one row per
    result and the summary goes on to the next level. *)
Theorem summary_needs_finite_metrics (toFixed : float -> nat -> string)
    (allResults : list Bench.BatchResult) (conc : nat) (concs : list nat)
    (console : list string) :
  let rs := Report.byConc allResults conc in
  let heading :=
    String (ascii_of_nat 10) ("Concurrency " ++ JS.decimal conc) in
  rs <> [] ->
  ((exists key,
       Forall (fun r => Report.Number_isFinite (Report.get r key) = false) rs)
   /\ Report.tables toFixed allResults (conc :: concs) console
      = Report.Threw (console ++ [heading]))
  \/
  ((forall key,
       Exists (fun r => Report.Number_isFinite (Report.get r key) = true) rs)
   /\ exists lines,
        Report.rows toFixed rs (Report.bests_of rs) = Some lines /\
        List.length lines = List.length rs /\
        Report.tables toFixed allResults (conc :: concs) console
        = Report.tables toFixed allResults concs
            (console
             ++ [heading]
             ++ [Report.join (String (ascii_of_nat 10) EmptyString)
                   (Report.header ++ lines);
                 Report.notes])).
Proof.
  cbv zeta. intros Hne. cbn [Report.tables].
  assert (Hlen : Nat.eqb (List.length (Report.byConc allResults conc)) 0
                 = false).
  { apply Nat.eqb_neq. intros E. apply length_zero_iff_nil in E.
    congruence. }
  rewrite Hlen.
  assert (Hdec : (exists key,
                     Report.bests_of (Report.byConc allResults conc) key
                     = None)
                 \/ (forall key,
                       Report.bests_of (Report.byConc allResults conc) key
                       <> None)).
  { set (bests := Report.bests_of (Report.byConc allResults conc)).
    destruct (bests Report.iterThroughput) eqn:E1;
      [|left; now exists Report.iterThroughput].
    destruct (bests Report.callThroughput) eqn:E2;
      [|left; now exists Report.callThroughput].
    destruct (bests Report.p50) eqn:E3; [|left; now exists Report.p50].
    destruct (bests Report.p90) eqn:E4; [|left; now exists Report.p90].
    destruct (bests Report.p99) eqn:E5; [|left; now exists Report.p99].
    right. intros key. destruct key; congruence. }
  destruct Hdec as [[key Hk]|Hall].
  - left. split.
    + exists key. now apply bests_of_none.
    + rewrite (@rows_none toFixed _ _ Hne) by (now exists key).
      reflexivity.
  - right. split.
    + intros key. specialize (Hall key).
      apply Exists_exists.
      destruct (Exists_dec
                  (fun r => Report.Number_isFinite (Report.get r key) = true)
                  (Report.byConc allResults conc)) as [He|Hn].
      * intros r. destruct (Report.Number_isFinite (Report.get r key));
          [now left | right; discriminate].
      * now apply Exists_exists.
      * exfalso. apply Hall. apply bests_of_none. apply Forall_forall.
        intros r Hr.
        destruct (Report.Number_isFinite (Report.get r key)) eqn:Hf;
          [|reflexivity].
        exfalso. apply Hn. apply Exists_exists. now exists r.
    + destruct (@rows_some toFixed (Report.byConc allResults conc) _ Hall)
        as (lines & Hrows & Hl).
      exists lines. rewrite Hrows. conjuncts; auto.
      now rewrite <- app_assoc.
Qed.

Lemma summary_needs_finite_metrics_witness :
  Report.tables Samples.blank Samples.all_failed [10; 20] []
  = Report.Threw [String (ascii_of_nat 10) "Concurrency 10"].
Proof.
  destruct (@summary_needs_finite_metrics Samples.blank Samples.all_failed
              10 [20] []) as [[_ H]|[H _]].
  - discriminate.
  - exact H.
  - specialize (H Report.p50). apply Exists_exists in H.
    destruct H as (r & Hr & Hf).
    destruct Hr as [<-|[<-|[<-|[]]]]; discriminate.
Defined.

(* ================================================================== *)
(** ** A primitive that never succeeds *)
(* ================================================================== *)

Section NeverSucceeds.

Import JS Common.

Variable mode : string.
Variable progress : bool.
Variable scrypt : primitive.
Variable elapsed : nat -> float.
Variable cfg : params.

Hypothesis never : forall k pwd salt dk,
  scrypt k pwd salt (keyLen cfg) (opts cfg) <> CallsBack None dk false.

Let barren (s : Bench.store) : Prop :=
  Bench.ok s = 0 /\ Bench.callDurations s = [].

Let doomed (wk : Bench.worker) : Prop :=
  match wk with
  | Bench.AwaitFirst _ _ pr => forall a, pr <> Some (Fulfilled a)
  | Bench.AwaitSecond _ _ _ _ => False
  | Bench.Returned => True
  end.

Lemma barren_loop w s wk s' :
  barren s -> Bench.loop mode progress scrypt elapsed cfg w s = (wk, s') ->
  barren s' /\ doomed wk.
Proof.
  intros [Hok Hd] Hl.
  pose proof (loop_effect mode progress scrypt elapsed cfg w s) as E.
  rewrite Hl in E. unfold barren.
  destruct E as [(_ & -> & ->)|(i & pwd & salt & t & _ & _ & -> & E1 & _ & _
                               & E4 & _)].
  - cbn. auto.
  - rewrite E1, E4. conjuncts; auto. cbn [doomed]. intros a Ha.
    apply promise_fulfilled in Ha. destruct Ha as (dk & Hb & _).
    exact (never Hb).
Qed.

Lemma barren_resume w wk s wk' s' :
  barren s -> doomed wk -> Bench.settled_await wk = true ->
  Bench.resume mode progress scrypt elapsed cfg w wk s = (wk', s') ->
  barren s' /\ doomed wk'.
Proof.
  intros Hb Hq Hs Hr.
  destruct wk as [i k [[a|e]|]|i a k pr|]; cbn in Hs, Hq; try discriminate;
    try contradiction.
  - exfalso. now apply (Hq a).
  - cbn [Bench.resume] in Hr. eapply barren_loop; [|exact Hr].
    destruct Hb as [Hok Hd]. split; assumption.
Qed.

Lemma barren_drain (sched : nat -> nat) (t : float) :
  barren (snd (Bench.drain mode progress scrypt elapsed cfg sched t)).
Proof.
  destruct (@drain_keeps mode progress scrypt elapsed cfg barren doomed
              (fun _ => 0%Z) (fun _ => 0%Z))
    with (sched := sched) (t := t) as (H & _).
  - intros w s wk s' Hb Hl.
    destruct (@barren_loop w s wk s' Hb Hl). conjuncts; auto. lia.
  - intros w wk s wk' s' Hb Hq Hs Hr.
    destruct (@barren_resume w wk s wk' s' Hb Hq Hs Hr).
    conjuncts; auto. lia.
  - split; reflexivity.
  - exact H.
Qed.

End NeverSucceeds.

(** X9: when no invocation of a batch succeeds (each one fails, calls
    back after the deadline or never), a batch with at least one worker
    ends with [ok = 0] and [fail = iterations], collects no latency
    sample, and reports NaN for p50, p90 and p99: none of its
    percentiles is a finite number. *)
Theorem failed_batch_has_no_percentiles (mode : string) (progress : bool)
    (scrypt : Common.primitive) (elapsed : nat -> float)
    (cfg : Common.params) (sched : nat -> nat) (t tStart tEnd : float) :
  0 < Common.concurrency cfg ->
  (forall k pwd salt dk,
      scrypt k pwd salt (Common.keyLen cfg) (Common.opts cfg)
      <> Common.CallsBack None dk false) ->
  exists r,
    Bench.runBatch mode progress scrypt elapsed cfg sched t tStart tEnd
    = Some r /\
    Bench.res_ok r = 0 /\
    Bench.res_fail r = Common.iterations cfg /\
    Bench.res_p50 r = Metrics.Num nan /\
    Bench.res_p90 r = Metrics.Num nan /\
    Bench.res_p99 r = Metrics.Num nan /\
    Report.Number_isFinite (Report.get r Report.p50) = false /\
    Report.Number_isFinite (Report.get r Report.p90) = false /\
    Report.Number_isFinite (Report.get r Report.p99) = false.
Proof.
  intros Hc Hnever.
  pose proof (@barren_drain mode progress scrypt elapsed cfg Hnever sched t)
    as [Hok Hd].
  destruct (drain_final mode progress scrypt elapsed cfg sched t)
    as (HI & HF & Hl).
  destruct (final_counts HI HF) as (_ & Hsum & _); [lia|].
  destruct (returned_joined HF) as (Hj & _).
  unfold Bench.runBatch.
  destruct (Bench.drain mode progress scrypt elapsed cfg sched t)
    as [pool s]. cbn [fst snd] in *. rewrite Hj.
  eexists. split; [reflexivity|].
  cbn [Bench.metrics Bench.res_ok Bench.res_fail Bench.res_p50 Bench.res_p90
       Bench.res_p99 Report.get]. unfold Bench.metrics.
  cbn [Bench.res_ok Bench.res_fail Bench.res_p50 Bench.res_p90
       Bench.res_p99 Report.get].
  rewrite Hd. cbn [Metrics.sort fold_right Metrics.percentile List.length
                   Nat.eqb Report.Number_isFinite].
  conjuncts; auto. lia.
Qed.

Lemma failed_batch_has_no_percentiles_witness :
  exists r,
    Bench.runBatch "random" false Scenario.hanging Scenario.stopwatch
      (Scenario.batch 3 2) Scenario.round_robin 1337%float 0%float
      120000%float = Some r /\
    Bench.res_ok r = 0.
Proof.
  destruct (@failed_batch_has_no_percentiles "random" false Scenario.hanging
              Scenario.stopwatch (Scenario.batch 3 2) Scenario.round_robin
              1337%float 0%float 120000%float) as (r & Hr & Hok & _).
  - cbn. lia.
  - discriminate.
  - exists r. split; assumption.
Defined.

(* ================================================================== *)
(** ** The main loop *)
(* ================================================================== *)

Lemma runBatch_total (mode : string) (progress : bool)
    (scrypt : Common.primitive) (elapsed : nat -> float)
    (cfg : Common.params) (sched : nat -> nat) (t tStart tEnd : float) :
  Bench.runBatch mode progress scrypt elapsed cfg sched t tStart tEnd
  = Some (Bench.metrics mode cfg tStart tEnd
            (snd (Bench.drain mode progress scrypt elapsed cfg sched t))).
Proof.
  destruct (drain_final mode progress scrypt elapsed cfg sched t)
    as (_ & HF & _).
  destruct (returned_joined HF) as (Hj & _).
  unfold Bench.runBatch.
  destruct (Bench.drain mode progress scrypt elapsed cfg sched t)
    as [pool s]. cbn [fst snd] in *. now rewrite Hj.
Qed.

Section MainFacts.

Import JS Common.

Variable mode : string.
Variable progress : bool.
Variable iterations : nat.
Variable keyLen : nat.
Variable opts : scrypt_opts.
Variable concurrencies : list nat.
Variable scrypt_of : nat -> primitive.
Variable elapsed_of : nat -> nat -> float.
Variable sched_of : nat -> nat -> nat.
Variable tStart_of : nat -> float.
Variable tEnd_of : nat -> float.

#[local] Abbreviation inner :=
  (Main.inner mode progress iterations keyLen opts scrypt_of elapsed_of
     sched_of tStart_of tEnd_of).
#[local] Abbreviation outer :=
  (Main.outer mode progress iterations keyLen opts concurrencies scrypt_of
     elapsed_of sched_of tStart_of tEnd_of).

(** A property that every result of [runBatch] has, for the variant and
    the concurrency it was called with. *)
Variable holds : variant -> nat -> Bench.BatchResult -> Prop.

Hypothesis holds_of_batch : forall n t v c,
  In c concurrencies ->
  holds v c
    (Bench.metrics mode (mkParams v c iterations keyLen opts)
       (tStart_of n) (tEnd_of n)
       (snd (Bench.drain mode progress (scrypt_of n) (elapsed_of n)
               (mkParams v c iterations keyLen opts) (sched_of n) t))).

Lemma inner_results (v : variant) (cs : list nat) :
  incl cs concurrencies ->
  forall n t acc,
  exists t' rs,
    inner v cs (n, t, acc) = Some (n + List.length cs, t', acc ++ rs) /\
    Forall2 (holds v) cs rs.
Proof.
  induction cs as [|c cs IH]; intros Hincl n t acc; cbn [Main.inner].
  - exists t, []. rewrite Nat.add_0_r, app_nil_r. split; [reflexivity|].
    constructor.
  - rewrite runBatch_total.
    match goal with
    | |- context [inner v cs (S n, ?t1, acc ++ [?r])] =>
        destruct (IH (fun x Hx => Hincl x (or_intror Hx)) (S n) t1
                    (acc ++ [r])) as (t' & rs & E & HF);
        exists t', (r :: rs)
    end.
    rewrite E. cbn [List.length]. rewrite <- app_assoc, Nat.add_succ_r.
    split; [reflexivity|]. constructor; [|exact HF].
    apply holds_of_batch. apply Hincl. now left.
Qed.

Lemma outer_results (vs : list variant) :
  forall n t acc,
  exists n' t' rs,
    outer vs (n, t, acc) = Some (n', t', acc ++ rs) /\
    Forall2 (fun p r => holds (fst p) (snd p) r)
            (flat_map (fun v => map (pair v) concurrencies) vs) rs.
Proof.
  induction vs as [|v vs IH]; intros n t acc; cbn [Main.outer flat_map].
  - exists n, t, []. rewrite app_nil_r. split; [reflexivity|]. constructor.
  - destruct (@inner_results v concurrencies (incl_refl _) n t acc)
      as (t1 & rs1 & E1 & H1).
    rewrite E1.
    destruct (IH (n + List.length concurrencies) t1 (acc ++ rs1))
      as (n' & t' & rs2 & E2 & H2).
    exists n', t', (rs1 ++ rs2). rewrite E2, <- app_assoc.
    split; [reflexivity|]. apply Forall2_app; [|exact H2].
    clear - H1. induction H1; cbn [map]; constructor; auto.
Qed.

Lemma allResults_results (seed : float) :
  exists rs,
    Main.allResults mode progress iterations keyLen opts concurrencies
      scrypt_of elapsed_of sched_of tStart_of tEnd_of seed = Some rs /\
    Forall2 (fun p r => holds (fst p) (snd p) r)
            (flat_map (fun v => map (pair v) concurrencies) Main.order) rs.
Proof.
  unfold Main.allResults.
  destruct (outer_results Main.order 0 (Prng.mulberry32 seed) [])
    as (n' & t' & rs & E & H).
  rewrite E. exists rs. split; [reflexivity | exact H].
Qed.

End MainFacts.

Lemma filter_pairs (v : Common.variant) (conc : nat) (cs : list nat) :
  map fst (filter (fun p => Nat.eqb (snd p) conc) (map (pair v) cs))
  = repeat v (count_occ Nat.eq_dec cs conc).
Proof.
  induction cs as [|c cs IH]; [reflexivity|].
  cbn [map filter snd count_occ].
  destruct (Nat.eq_dec c conc) as [->|Hne].
  - rewrite Nat.eqb_refl. cbn [map fst repeat]. now rewrite IH.
  - apply Nat.eqb_neq in Hne. rewrite Hne. exact IH.
Qed.

Lemma byConc_variants (pairs : list (Common.variant * nat))
    (rs : list Bench.BatchResult) (conc : nat) :
  Forall2 (fun p r => Bench.res_variant r = fst p /\
                      Bench.res_concurrency r = snd p) pairs rs ->
  map Bench.res_variant (Report.byConc rs conc)
  = map fst (filter (fun p => Nat.eqb (snd p) conc) pairs).
Proof.
  unfold Report.byConc.
  induction 1 as [|p r pairs rs [Hv Hc] _ IH]; [reflexivity|].
  cbn [filter]. rewrite Hc.
  destruct (Nat.eqb (snd p) conc); cbn [map]; rewrite ?Hv, IH; reflexivity.
Qed.

(** X10: when every requested concurrency is positive, the loops of
    [main] complete and leave in [allResults] one result for every
    pair of a variant and a concurrency, three times as many as there
    are concurrencies, variant by variant in the order callback,
    utilPromisify, manualPromise and, within a variant, in the order
    requested; every result is for the configured number of iterations
    and has [ok + fail = iterations]. *)
Theorem main_runs_every_pair (mode : string) (progress : bool)
    (iterations keyLen : nat) (opts : Common.scrypt_opts)
    (concurrencies : list nat) (scrypt_of : nat -> Common.primitive)
    (elapsed_of : nat -> nat -> float) (sched_of : nat -> nat -> nat)
    (tStart_of tEnd_of : nat -> float) (seed : float) :
  Forall (fun c => 0 < c) concurrencies ->
  exists results,
    Main.allResults mode progress iterations keyLen opts concurrencies
      scrypt_of elapsed_of sched_of tStart_of tEnd_of seed = Some results /\
    map (fun r => (Bench.res_variant r, Bench.res_concurrency r)) results
    = flat_map (fun v => map (pair v) concurrencies) Main.order /\
    List.length results = 3 * List.length concurrencies /\
    Forall (fun r => Bench.res_iterations r = iterations /\
                     Bench.res_ok r + Bench.res_fail r = iterations)
           results.
Proof.
  intros Hpos.
  destruct (@allResults_results mode progress iterations keyLen opts
              concurrencies scrypt_of elapsed_of sched_of tStart_of tEnd_of
              (fun v c r =>
                 Bench.res_variant r = v /\ Bench.res_concurrency r = c /\
                 Bench.res_iterations r = iterations /\
                 Bench.res_ok r + Bench.res_fail r = iterations))
    with (seed := seed) as (rs & E & H).
  - intros n t v c Hin.
    rewrite Forall_forall in Hpos. specialize (Hpos c Hin).
    destruct (drain_final mode progress (scrypt_of n) (elapsed_of n)
                (Common.mkParams v c iterations keyLen opts) (sched_of n) t)
      as (HI & HF & Hl).
    destruct (final_counts HI HF) as (_ & Hsum & _);
      [rewrite Hl; exact Hpos|].
    unfold Bench.metrics.
    cbn [Bench.res_variant Bench.res_concurrency Bench.res_iterations
         Bench.res_ok Bench.res_fail].
    conjuncts; auto.
  - exists rs. split; [exact E|].
    assert (Hmap : map (fun r => (Bench.res_variant r,
                                  Bench.res_concurrency r)) rs
                   = flat_map (fun v => map (pair v) concurrencies)
                       Main.order).
    { clear E. induction H as [|p r ps rs' (Hv & Hc & _) _ IH];
        [reflexivity|].
      cbn [map]. rewrite IH, Hv, Hc. now destruct p. }
    conjuncts.
    + exact Hmap.
    + rewrite <- (length_map (fun r => (Bench.res_variant r,
                                        Bench.res_concurrency r))), Hmap.
      cbn [Main.order flat_map]. rewrite !length_app, !length_map.
      cbn [List.length]. lia.
    + clear E Hmap. induction H as [|p r ps rs' (_ & _ & Hi & Hs) _ IH];
        constructor; auto.
Qed.

Lemma main_runs_every_pair_witness :
  exists results,
    Main.allResults "sequential" false 2 64 Scenario.options [1; 3]
      (fun _ => Scenario.steady) (fun _ => Scenario.stopwatch)
      (fun _ => Scenario.round_robin) (fun _ => 0%float)
      (fun _ => 1000%float) 1337%float = Some results /\
    List.length results = 6.
Proof.
  destruct (@main_runs_every_pair "sequential" false 2 64 Scenario.options
              [1; 3] (fun _ => Scenario.steady) (fun _ => Scenario.stopwatch)
              (fun _ => Scenario.round_robin) (fun _ => 0%float)
              (fun _ => 1000%float) 1337%float)
    as (results & E & _ & Hl & _).
  - repeat constructor.
  - exists results. split; [exact E | exact Hl].
Defined.

(** X11: in the summary, the rows that [byConc(conc)] selects are, for
    each variant in the order callback, utilPromisify, manualPromise,
    as many as [conc] occurs among the requested concurrencies: three
    rows for a concurrency requested once, none for one that was not
    requested, and twice three for one requested twice. *)
Theorem byConc_selects_one_row_per_variant (mode : string) (progress : bool)
    (iterations keyLen : nat) (opts : Common.scrypt_opts)
    (concurrencies : list nat) (scrypt_of : nat -> Common.primitive)
    (elapsed_of : nat -> nat -> float) (sched_of : nat -> nat -> nat)
    (tStart_of tEnd_of : nat -> float) (seed : float) (conc : nat) :
  let times := count_occ Nat.eq_dec concurrencies conc in
  exists results,
    Main.allResults mode progress iterations keyLen opts concurrencies
      scrypt_of elapsed_of sched_of tStart_of tEnd_of seed = Some results /\
    map Bench.res_variant (Report.byConc results conc)
    = repeat Common.callback times ++ repeat Common.utilPromisify times
      ++ repeat Common.manualPromise times /\
    Forall (fun r => Bench.res_concurrency r = conc)
           (Report.byConc results conc).
Proof.
  cbv zeta.
  destruct (@allResults_results mode progress iterations keyLen opts
              concurrencies scrypt_of elapsed_of sched_of tStart_of tEnd_of
              (fun v c r =>
                 Bench.res_variant r = v /\ Bench.res_concurrency r = c))
    with (seed := seed) as (rs & E & H).
  - intros n t v c Hin. cbn. auto.
  - exists rs. conjuncts; [exact E | |].
    + erewrite byConc_variants by exact H.
      cbn [Main.order flat_map]. rewrite app_nil_r, !filter_app, !map_app.
      now rewrite !filter_pairs.
    + apply Forall_forall. intros r Hr. unfold Report.byConc in Hr.
      apply filter_In in Hr. destruct Hr as [_ Hr].
      now apply Nat.eqb_eq in Hr.
Qed.

(** X12: when no invocation of any batch succeeds (as with cost options
    that the primitive rejects), the loops of [main] still complete,
    but the summary throws at the first concurrency level: every
    percentile of every result is NaN, [best] finds no finite p50, and
    nothing but the heading of that level is printed. *)
Theorem summary_throws_when_nothing_succeeds (mode : string)
    (progress : bool) (iterations keyLen : nat) (opts : Common.scrypt_opts)
    (conc : nat) (rest : list nat) (scrypt_of : nat -> Common.primitive)
    (elapsed_of : nat -> nat -> float) (sched_of : nat -> nat -> nat)
    (tStart_of tEnd_of : nat -> float) (seed : float)
    (toFixed : float -> nat -> string) (console : list string) :
  (forall n k pwd salt dk,
      scrypt_of n k pwd salt keyLen opts
      <> Common.CallsBack None dk false) ->
  exists results,
    Main.allResults mode progress iterations keyLen opts (conc :: rest)
      scrypt_of elapsed_of sched_of tStart_of tEnd_of seed = Some results /\
    Report.tables toFixed results (conc :: rest) console
    = Report.Threw
        (console
         ++ [String (ascii_of_nat 10) ("Concurrency " ++ JS.decimal conc)]).
Proof.
  intros Hnever.
  destruct (@allResults_results mode progress iterations keyLen opts
              (conc :: rest) scrypt_of elapsed_of sched_of tStart_of tEnd_of
              (fun v c r =>
                 (Bench.res_variant r = v /\ Bench.res_concurrency r = c) /\
                 Report.Number_isFinite (Report.get r Report.p50) = false))
    with (seed := seed) as (rs & E & H).
  - intros n t v c Hin. split; [cbn; auto|].
    pose proof (@barren_drain mode progress (scrypt_of n) (elapsed_of n)
                  (Common.mkParams v c iterations keyLen opts)
                  (Hnever n) (sched_of n) t) as [_ Hd].
    unfold Bench.metrics. cbn [Report.get Bench.res_p50].
    rewrite Hd. reflexivity.
  - exists rs. split; [exact E|].
    assert (Hv : map Bench.res_variant (Report.byConc rs conc) <> []).
    { erewrite byConc_variants
        by (eapply Forall2_impl; [|exact H]; cbn; tauto).
      unfold Main.order. cbn [flat_map app map filter snd].
      rewrite Nat.eqb_refl. discriminate. }
    assert (Hne : Report.byConc rs conc <> []).
    { intros Hnil. apply Hv. now rewrite Hnil. }
    assert (Hnf : Forall (fun r => Report.Number_isFinite
                                     (Report.get r Report.p50) = false)
                         (Report.byConc rs conc)).
    { apply Forall_forall. intros r Hr. unfold Report.byConc in Hr.
      apply filter_In in Hr. destruct Hr as [Hr _].
      clear - H Hr. induction H as [|p r' ps rs' [_ Hf] _ IH];
        [destruct Hr|].
      destruct Hr as [<-|Hr]; auto. }
    cbn [Report.tables].
    assert (Hlen : Nat.eqb (List.length (Report.byConc rs conc)) 0 = false).
    { apply Nat.eqb_neq. intros E0. apply length_zero_iff_nil in E0.
      congruence. }
    rewrite Hlen.
    rewrite (@rows_none toFixed _ _ Hne); [reflexivity|].
    exists Report.p50. now apply bests_of_none.
Qed.

Lemma summary_throws_when_nothing_succeeds_witness :
  exists results,
    Main.allResults "sequential" false 2 64 Scenario.options [2; 1]
      (fun _ => Scenario.hanging) (fun _ => Scenario.stopwatch)
      (fun _ => Scenario.round_robin) (fun _ => 0%float)
      (fun _ => 1000%float) 1337%float = Some results /\
    Report.tables Samples.blank results [2; 1] []
    = Report.Threw [String (ascii_of_nat 10) "Concurrency 2"].
Proof.
  apply (@summary_throws_when_nothing_succeeds "sequential" false 2 64
           Scenario.options 2 [1] (fun _ => Scenario.hanging)
           (fun _ => Scenario.stopwatch) (fun _ => Scenario.round_robin)
           (fun _ => 0%float) (fun _ => 1000%float) 1337%float
           Samples.blank []).
  discriminate.
Defined.

(* ================================================================== *)
(** ** Accounting for every call *)
(* ================================================================== *)

Section Accounting.

Import JS Common.

Variable mode : string.
Variable progress : bool.
Variable scrypt : primitive.
Variable elapsed : nat -> float.
Variable cfg : params.

(** Invocations made that are neither sampled nor caught. *)
Let open_calls (s : Bench.store) : Z :=
  (Z.of_nat (Bench.invocations s)
   - Z.of_nat (List.length (Bench.callDurations s))
   - Z.of_nat (Extra.rejections (Bench.errors s)))%Z.

Lemma open_loop w s wk s' :
  Bench.loop mode progress scrypt elapsed cfg w s = (wk, s') ->
  (open_calls s' - Extra.pending wk = open_calls s)%Z.
Proof.
  intros Hl.
  pose proof (loop_effect mode progress scrypt elapsed cfg w s) as E.
  rewrite Hl in E. unfold open_calls.
  destruct E as [(_ & -> & ->)|(i & pwd & salt & t & _ & _ & -> & _ & _ & He
                               & Hd & _ & Hi & _)].
  - cbn [Extra.pending]. lia.
  - rewrite He, Hd, Hi. cbn [Extra.pending]. lia.
Qed.

Lemma open_resume w wk s wk' s' :
  Bench.settled_await wk = true ->
  Bench.resume mode progress scrypt elapsed cfg w wk s = (wk', s') ->
  (open_calls s' - Extra.pending wk' = open_calls s - Extra.pending wk)%Z.
Proof.
  intros Hs Hr.
  assert (Hnext : forall s1,
    (open_calls s1 = open_calls s - 1)%Z ->
    Bench.loop mode progress scrypt elapsed cfg w s1 = (wk', s') ->
    Extra.pending wk = 1%Z ->
    (open_calls s' - Extra.pending wk' = open_calls s - Extra.pending wk)%Z).
  { intros s1 E Hl Hp. apply open_loop in Hl. lia. }
  assert (Hsample : forall k ms s0,
    (open_calls (Bench.sample k ms s0) = open_calls s0 - 1)%Z).
  { intros k ms s0. unfold open_calls. store_simpl.
    rewrite length_app. cbn [List.length]. lia. }
  assert (Hcatch : forall i e s0,
    (open_calls (Bench.catch i e s0) = open_calls s0 - 1)%Z).
  { intros i e s0. unfold open_calls, Extra.rejections. store_simpl.
    rewrite filter_app, length_app. cbn [filter List.length]. lia. }
  assert (Hsucc : forall i s0,
    open_calls (Bench.success i s0) = open_calls s0).
  { intros i s0. unfold open_calls. store_simpl. reflexivity. }
  assert (Hmis : forall i a b s0,
    open_calls (Bench.mismatch i a b s0) = open_calls s0).
  { intros i a b s0. unfold open_calls, Extra.rejections. store_simpl.
    rewrite filter_app, length_app. cbn [filter List.length]. lia. }
  destruct wk as [i k [[a|e]|]|i a k [[b|e]|]|]; cbn [Bench.settled_await] in Hs;
    try discriminate; cbn [Bench.resume] in Hr.
  - destruct (String.eqb mode "sequential").
    + pose proof (runOnce_effect mode scrypt elapsed cfg i
                    (Bench.sample k (snd a) s)) as (pwd & salt & t & _ & E).
      destruct (Bench.runOnce mode scrypt elapsed cfg i
                  (Bench.sample k (snd a) s)) as [[k2 pr2] s2].
      injection Hr as <- <-.
      destruct E as (_ & _ & _ & _ & _ & He & Hd & _ & Hi & _).
      specialize (Hsample k (snd a) s). unfold open_calls in *.
      rewrite He, Hd, Hi. cbn [Extra.pending]. lia.
    + eapply Hnext; [|exact Hr|reflexivity]. rewrite Hsucc. apply Hsample.
  - eapply Hnext; [|exact Hr|reflexivity]. apply Hcatch.
  - destruct (negb (Buffer_equals (fst a) (fst b)));
      (eapply Hnext; [|exact Hr|reflexivity]);
      rewrite ?Hmis, ?Hsucc; apply Hsample.
  - eapply Hnext; [|exact Hr|reflexivity]. apply Hcatch.
Qed.

Lemma open_drain (sched : nat -> nat) (t : float) :
  let st := Bench.drain mode progress scrypt elapsed cfg sched t in
  open_calls (snd st) = Extra.total Extra.pending (fst st).
Proof.
  cbv zeta.
  destruct (@drain_keeps mode progress scrypt elapsed cfg
              (fun _ => True) (fun _ => True) open_calls
              (fun wk => (- Extra.pending wk)%Z))
    with (sched := sched) (t := t) as (_ & _ & H1).
  { intros w s wk s' _ Hl. apply open_loop in Hl. conjuncts; auto. lia. }
  { intros w wk s wk' s' _ _ Hs Hr. apply (@open_resume w wk s wk' s' Hs) in Hr.
    conjuncts; auto. lia. }
  { exact I. }
  destruct (@drain_keeps mode progress scrypt elapsed cfg
              (fun _ => True) (fun _ => True)
              (fun s => (- open_calls s)%Z) Extra.pending)
    with (sched := sched) (t := t) as (_ & _ & H2).
  { intros w s wk s' _ Hl. apply open_loop in Hl. conjuncts; auto. lia. }
  { intros w wk s wk' s' _ _ Hs Hr. apply (@open_resume w wk s wk' s' Hs) in Hr.
    conjuncts; auto. lia. }
  { exact I. }
  assert (Hneg : forall pool,
    Extra.total (fun wk => (- Extra.pending wk)%Z) pool
    = (- Extra.total Extra.pending pool)%Z).
  { unfold Extra.total. induction pool as [|wk pool IH];
      cbn [map fold_right]; lia. }
  rewrite Hneg in H1.
  assert (H0 : open_calls (Bench.init cfg t) = 0%Z) by reflexivity.
  lia.
Qed.

End Accounting.

(** X13: at the end of a batch every call that was made is accounted for
    once: the number of invocations of the primitive is the number of
    latency samples plus the number of [errors] entries of type
    ["error"] (a mismatch entry stands for no further call), whatever
    the primitive does and in whatever order the workers resume. *)
Theorem every_call_is_sampled_or_caught (mode : string) (progress : bool)
    (scrypt : Common.primitive) (elapsed : nat -> float)
    (cfg : Common.params) (sched : nat -> nat) (t : float) :
  let s := snd (Bench.drain mode progress scrypt elapsed cfg sched t) in
  Bench.invocations s
  = List.length (Bench.callDurations s) + Extra.rejections (Bench.errors s).
Proof.
  cbv zeta.
  pose proof (open_drain mode progress scrypt elapsed cfg sched t) as H.
  cbv zeta in H.
  destruct (drain_final mode progress scrypt elapsed cfg sched t)
    as (_ & HF & _).
  assert (Hz : Extra.total Extra.pending
                 (fst (Bench.drain mode progress scrypt elapsed cfg sched t))
               = 0%Z).
  { clear - HF. unfold Extra.total.
    induction HF as [|wk pool -> _ IH]; cbn [map fold_right Extra.pending];
      [reflexivity | lia]. }
  rewrite Hz in H. lia.
Qed.

(* ================================================================== *)
(** ** Progress lines *)
(* ================================================================== *)

Section Progress.

Import JS Common.

Variable mode : string.
Variable progress : bool.
Variable scrypt : primitive.
Variable elapsed : nat -> float.
Variable cfg : params.

(** The console holds the lines of the claims that are logged. *)
Let told (s : Bench.store) : Prop :=
  Bench.console s
  = map (Extra.line_of (variant_of cfg))
        (filter (fun claim =>
                   progress
                   && Extra.logged (logEvery (iterations cfg)) claim)
                (Spec.claims (Bench.history s))).

Lemma told_runOnce i s :
  told s -> told (snd (Bench.runOnce mode scrypt elapsed cfg i s)).
Proof.
  destruct (runOnce_eq mode scrypt elapsed cfg i s)
    as (pwd & salt & t & _ & E).
  rewrite E. unfold told. store_simpl. rewrite claims_app.
  cbn [Spec.claims flat_map]. now rewrite app_nil_r.
Qed.

Lemma told_loop w s wk s' :
  told s -> Bench.loop mode progress scrypt elapsed cfg w s = (wk, s') ->
  told s'.
Proof.
  intros H Hl. unfold Bench.loop in Hl.
  destruct (Array_pop (Bench.queue s)) as [[i q]|];
    [|now injection Hl as <- <-].
  match type of Hl with
  | context [Bench.runOnce _ _ _ _ i ?s2] =>
      assert (H2 : told s2)
  end.
  { unfold told in *.
    destruct (progress && Nat.eqb (i mod logEvery (iterations cfg)) 0)
      eqn:E; store_simpl; rewrite claims_app, filter_app, map_app, <- H;
      cbn [Spec.claims flat_map app filter]; unfold Extra.logged;
      cbn [snd]; rewrite E; cbn [map app]; [reflexivity|].
    now rewrite app_nil_r. }
  apply (told_runOnce i) in H2.
  match type of Hl with
  | context [Bench.runOnce _ _ _ _ i ?s2] =>
      destruct (Bench.runOnce mode scrypt elapsed cfg i s2) as [[k pr] s3]
  end.
  injection Hl as <- <-. exact H2.
Qed.

Lemma told_resume w wk s wk' s' :
  told s -> Bench.resume mode progress scrypt elapsed cfg w wk s = (wk', s') ->
  told s'.
Proof.
  intros H Hr.
  assert (Hquiet : forall s1,
    Bench.console s1 = Bench.console s ->
    Spec.claims (Bench.history s1) = Spec.claims (Bench.history s) ->
    told s1).
  { intros s1 E1 E2. unfold told in *. now rewrite E1, E2. }
  assert (Hsample : forall k ms, told (Bench.sample k ms s)).
  { intros. apply Hquiet; store_simpl; [reflexivity|].
    rewrite claims_app. cbn. now rewrite app_nil_r. }
  assert (Hcatch : forall i e, told (Bench.catch i e s)).
  { intros. apply Hquiet; store_simpl; [reflexivity|].
    rewrite claims_app. cbn. now rewrite app_nil_r. }
  assert (Hsucc : forall i k ms,
    told (Bench.success i (Bench.sample k ms s))).
  { intros. apply Hquiet; store_simpl; [reflexivity|].
    rewrite !claims_app. cbn. now rewrite !app_nil_r. }
  assert (Hmis : forall i a b k ms,
    told (Bench.mismatch i a b (Bench.sample k ms s))).
  { intros. apply Hquiet; store_simpl; [reflexivity|].
    rewrite !claims_app. cbn. now rewrite !app_nil_r. }
  destruct wk as [i k [[a|e]|]|i a k [[b|e]|]|]; cbn [Bench.resume] in Hr;
    try (injection Hr as <- <-; exact H);
    try (eapply told_loop; [|exact Hr]; auto).
  - destruct (String.eqb mode "sequential").
    + pose proof (@told_runOnce i _ (Hsample k (snd a))) as H2.
      destruct (Bench.runOnce mode scrypt elapsed cfg i
                  (Bench.sample k (snd a) s)) as [[k2 pr2] s2].
      injection Hr as <- <-. exact H2.
    + eapply told_loop; [|exact Hr]. auto.
  - destruct (negb (Buffer_equals (fst a) (fst b)));
      (eapply told_loop; [|exact Hr]); auto.
Qed.

Lemma told_drain (sched : nat -> nat) (t : float) :
  told (snd (Bench.drain mode progress scrypt elapsed cfg sched t)).
Proof.
  apply (@drain_keeps mode progress scrypt elapsed cfg told
           (fun _ => True) (fun _ => 0%Z) (fun _ => 0%Z)).
  - intros w s wk s' H Hl.
    conjuncts; [eapply told_loop; eauto | exact I | lia].
  - intros w wk s wk' s' H _ _ Hr.
    conjuncts; [eapply told_resume; eauto | exact I | lia].
  - reflexivity.
Qed.

End Progress.

(** X14: the console of a batch holds one progress line for every claim
    of an index divisible by [logEvery = max(1, floor(iterations/10))],
    in the order of the claims and naming the worker that made the
    claim, and nothing else; with [--no-progress] it stays empty.
    With at least one worker the indices claimed are
    [iterations - 1, ..., 0], so that the lines are those of the
    multiples of [logEvery] below [iterations], the largest first. *)
Theorem progress_lines_follow_claims (mode : string) (progress : bool)
    (scrypt : Common.primitive) (elapsed : nat -> float)
    (cfg : Common.params) (sched : nat -> nat) (t : float) :
  let s := snd (Bench.drain mode progress scrypt elapsed cfg sched t) in
  let every := Common.logEvery (Common.iterations cfg) in
  let claims := Spec.claims (Bench.history s) in
  Bench.console s
  = (if progress
     then map (Extra.line_of (Common.variant_of cfg))
              (filter (Extra.logged every) claims)
     else []) /\
  (Common.concurrency cfg = 0 /\ claims = [] \/
   0 < Common.concurrency cfg /\
   map snd claims = rev (seq 0 (Common.iterations cfg)) /\
   map snd (filter (Extra.logged every) claims)
   = filter (fun i => Nat.eqb (i mod every) 0)
            (rev (seq 0 (Common.iterations cfg)))).
Proof.
  cbv zeta. split.
  - pose proof (told_drain mode progress scrypt elapsed cfg sched t) as H.
    cbv beta in H. rewrite H. destruct progress; cbn [andb].
    + reflexivity.
    + match goal with
      | |- map _ (filter _ ?l) = _ => induction l; auto
      end.
  - destruct (drain_final mode progress scrypt elapsed cfg sched t)
      as (HI & HF & Hl).
    destruct (Common.concurrency cfg) as [|c] eqn:Hc.
    + left. split; [reflexivity|].
      unfold Bench.drain, JS.range. rewrite Hc. cbn [seq Bench.spawn].
      replace (Bench.run mode progress scrypt elapsed cfg sched
                 (2 * Common.iterations cfg) 0 ([], Bench.init cfg t))
        with (@nil Bench.worker, Bench.init cfg t); [reflexivity|].
      destruct (2 * Common.iterations cfg); reflexivity.
    + right. split; [lia|].
      destruct (final_counts HI HF) as (_ & _ & _ & Hclaims); [lia|].
      split; [exact Hclaims|]. rewrite <- Hclaims. clear.
      match goal with
      | |- map snd (filter _ ?l) = _ =>
          induction l as [|x claims IH]; [reflexivity|]
      end.
      cbn [map filter]. unfold Extra.logged at 1.
      destruct (Nat.eqb (snd x mod _) 0); cbn [map]; now rewrite IH.
Qed.

(* ================================================================== *)
(** ** One generator for the whole run *)
(* ================================================================== *)

Lemma combine_app {A B} (l1 : list A) (l1' : list B) (l2 : list A)
    (l2' : list B) :
  List.length l1 = List.length l1' ->
  combine (l1 ++ l2) (l1' ++ l2') = combine l1 l1' ++ combine l2 l2'.
Proof.
  revert l1'. induction l1 as [|x l1 IH]; intros [|y l1'] H;
    cbn [List.length] in H; try discriminate; cbn [app combine];
    [reflexivity|].
  f_equal. apply IH. now injection H.
Qed.

Lemma draws_rev (indices : list nat) :
  Extra.draws (rev indices) = Extra.draws indices.
Proof.
  unfold Extra.draws. induction indices as [|i l IH]; [reflexivity|].
  cbn [rev map]. rewrite map_app, list_sum_app, IH.
  cbn [map]. unfold list_sum. cbn [fold_right]. lia.
Qed.

Lemma mkInput_random_eq (i : nat) (t : float) :
  Common.mkInput "random" i t
  = (Extra.top_bytes (16 + i mod 16) t,
     Extra.top_bytes (16 + (i * 7) mod 16)
       (Extra.advance (16 + i mod 16) t),
     Extra.advance (16 + i mod 16 + (16 + (i * 7) mod 16)) t).
Proof.
  unfold Common.mkInput.
  change (String.eqb "random" "random") with true. cbv iota.
  rewrite randBuf_top_bytes. cbv iota beta.
  rewrite randBuf_top_bytes.
  now rewrite (advance_add (16 + i mod 16) (16 + (i * 7) mod 16) t).
Qed.

Lemma plan_random (indices : list nat) :
  forall k t,
    snd (Extra.plan "random" indices k t)
    = Extra.advance (Extra.draws indices) t.
Proof.
  induction indices as [|i l IH]; intros k t; [reflexivity|].
  cbn [Extra.plan]. rewrite mkInput_random_eq.
  specialize (IH (S k)
    (Extra.advance (16 + i mod 16 + (16 + (i * 7) mod 16)) t)).
  destruct (Extra.plan "random" l (S k)
              (Extra.advance (16 + i mod 16 + (16 + (i * 7) mod 16)) t))
    as [evs t2].
  cbn [snd] in *. rewrite IH. unfold Extra.draws. cbn [map].
  rewrite <- advance_add. reflexivity.
Qed.

Lemma random_batch_rand (progress : bool) (scrypt : Common.primitive)
    (elapsed : nat -> float) (cfg : Common.params) (sched : nat -> nat)
    (t : float) :
  0 < Common.concurrency cfg ->
  Bench.rand (snd (Bench.drain "random" progress scrypt elapsed cfg sched t))
  = Extra.advance (Extra.draws (seq 0 (Common.iterations cfg))) t.
Proof.
  intros Hc.
  pose proof (@planned_drain "random" progress scrypt elapsed cfg t
                eq_refl sched) as [_ H2].
  destruct (drain_final "random" progress scrypt elapsed cfg sched t)
    as (HI & HF & Hl).
  destruct (final_counts HI HF) as (Hq & _); [lia|].
  rewrite Hq in H2. cbn [rev Extra.plan snd] in H2.
  now rewrite H2, plan_random, draws_rev.
Qed.

Lemma random_batch_inputs (progress : bool) (scrypt : Common.primitive)
    (elapsed : nat -> float) (cfg : Common.params) (sched : nat -> nat)
    (t : float) :
  0 < Common.concurrency cfg ->
  Extra.invocations_of
    (Bench.history
       (snd (Bench.drain "random" progress scrypt elapsed cfg sched t)))
  = fst (Extra.plan "random" (rev (seq 0 (Common.iterations cfg))) 0 t).
Proof.
  intros Hc.
  pose proof (@planned_drain "random" progress scrypt elapsed cfg t
                eq_refl sched) as [H1 _].
  destruct (drain_final "random" progress scrypt elapsed cfg sched t)
    as (HI & HF & Hl).
  destruct (final_counts HI HF) as (Hq & _); [lia|].
  rewrite Hq in H1. cbn [rev Extra.plan fst] in H1.
  now rewrite app_nil_r in H1.
Qed.

Section RandomRun.

Import JS Common.

Variable progress : bool.
Variable iterations : nat.
Variable keyLen : nat.
Variable opts : scrypt_opts.
Variable concurrencies : list nat.
Variable scrypt_of : nat -> primitive.
Variable elapsed_of : nat -> nat -> float.
Variable sched_of : nat -> nat -> nat.
Variable tStart_of : nat -> float.
Variable tEnd_of : nat -> float.
Variable t0 : float.

Hypothesis workers : Forall (fun c => 0 < c) concurrencies.

#[local] Abbreviation per_batch := (Extra.draws (seq 0 iterations)).
#[local] Abbreviation start :=
  (fun n => Extra.advance (n * per_batch) t0).
#[local] Abbreviation nth_batch :=
  (fun np : nat * (variant * nat) =>
     Extra.batch_from "random" progress iterations keyLen opts scrypt_of
       elapsed_of sched_of tStart_of tEnd_of start (fst np) (snd np)).

Lemma inner_random (v : variant) (cs : list nat) :
  incl cs concurrencies ->
  forall n acc,
    Main.inner "random" progress iterations keyLen opts scrypt_of elapsed_of
      sched_of tStart_of tEnd_of v cs (n, start n, acc)
    = Some (n + List.length cs, start (n + List.length cs),
            acc ++ map nth_batch
                     (combine (seq n (List.length cs)) (map (pair v) cs))).
Proof.
  induction cs as [|c cs IH]; intros Hincl n acc; cbn [Main.inner].
  - cbn [List.length seq combine map]. now rewrite Nat.add_0_r, app_nil_r.
  - rewrite runBatch_total.
    rewrite random_batch_rand.
    2:{ cbn [concurrency]. rewrite Forall_forall in workers.
        apply workers, Hincl. now left. }
    cbn [Common.iterations].
    rewrite <- (advance_add (n * per_batch) per_batch t0).
    replace (n * per_batch + per_batch) with (S n * per_batch) by lia.
    rewrite IH by (intros x Hx; apply Hincl; now right).
    cbn [List.length seq map combine]. rewrite <- app_assoc.
    replace (S n + List.length cs) with (n + S (List.length cs)) by lia.
    reflexivity.
Qed.

Lemma outer_random (vs : list variant) :
  forall n acc,
    let pairs := flat_map (fun v => map (pair v) concurrencies) vs in
    Main.outer "random" progress iterations keyLen opts concurrencies
      scrypt_of elapsed_of sched_of tStart_of tEnd_of vs (n, start n, acc)
    = Some (n + List.length pairs, start (n + List.length pairs),
            acc ++ map nth_batch (combine (seq n (List.length pairs)) pairs)).
Proof.
  induction vs as [|v vs IH]; intros n acc; cbv zeta;
    cbn [Main.outer flat_map].
  - cbn [List.length seq combine map]. now rewrite Nat.add_0_r, app_nil_r.
  - rewrite inner_random by apply incl_refl.
    specialize (IH (n + List.length concurrencies)). cbv zeta in IH.
    rewrite IH. rewrite length_app, length_map, seq_app, combine_app, map_app
      by now rewrite length_seq, length_map.
    rewrite <- app_assoc, !Nat.add_assoc. reflexivity.
Qed.

End RandomRun.

(** X15: in random mode the batches of a run share one generator,
    which no batch seeds again: when every requested concurrency is
    positive, batch number [n] (counting from 0 through the variants
    and, within a variant, the concurrencies) begins where batch
    [n - 1] left the generator, at [n] times the draws of one batch
    after the seed, a batch drawing one number for every byte of its
    [iterations] passwords and salts; the invocations of a batch that
    begins there are made, for the indices [iterations - 1] down to 0,
    with the inputs that [mkInput] draws from there; [allResults] is
    the list of these batches' results, and the loops leave the
    generator at three times the number of concurrencies batches after
    the seed. *)
Theorem random_batches_share_one_generator (progress : bool)
    (iterations keyLen : nat) (opts : Common.scrypt_opts)
    (concurrencies : list nat) (scrypt_of : nat -> Common.primitive)
    (elapsed_of : nat -> nat -> float) (sched_of : nat -> nat -> nat)
    (tStart_of tEnd_of : nat -> float) (seed : float) :
  Forall (fun c => 0 < c) concurrencies ->
  let pairs := flat_map (fun v => map (pair v) concurrencies) Main.order in
  let per_batch := Extra.draws (seq 0 iterations) in
  let start n := Extra.advance (n * per_batch) (Prng.mulberry32 seed) in
  Main.allResults "random" progress iterations keyLen opts concurrencies
    scrypt_of elapsed_of sched_of tStart_of tEnd_of seed
  = Some (map (fun np =>
                 Extra.batch_from "random" progress iterations keyLen opts
                   scrypt_of elapsed_of sched_of tStart_of tEnd_of start
                   (fst np) (snd np))
              (combine (seq 0 (List.length pairs)) pairs)) /\
  Main.outer "random" progress iterations keyLen opts concurrencies
    scrypt_of elapsed_of sched_of tStart_of tEnd_of Main.order
    (0, Prng.mulberry32 seed, [])
  = option_map
      (fun results => (List.length pairs, start (List.length pairs), results))
      (Main.allResults "random" progress iterations keyLen opts concurrencies
         scrypt_of elapsed_of sched_of tStart_of tEnd_of seed) /\
  List.length pairs = 3 * List.length concurrencies /\
  (forall n v c,
      let batch :=
        Bench.drain "random" progress (scrypt_of n) (elapsed_of n)
          (Common.mkParams v (S c) iterations keyLen opts) (sched_of n)
          (start n) in
      Extra.invocations_of (Bench.history (snd batch))
      = fst (Extra.plan "random" (rev (seq 0 iterations)) 0 (start n)) /\
      Bench.rand (snd batch) = start (S n)).
Proof.
  intros Hpos. cbv zeta. unfold Main.allResults.
  pose proof (@outer_random progress iterations keyLen opts concurrencies
                scrypt_of elapsed_of sched_of tStart_of tEnd_of
                (Prng.mulberry32 seed) Hpos Main.order 0 []) as H.
  cbv zeta in H. cbn [Nat.mul Extra.advance Nat.add app] in H.
  rewrite H. conjuncts; try reflexivity.
  - unfold Main.order. cbn [flat_map]. rewrite !length_app, !length_map.
    cbn [List.length]. lia.
  - intros n v c. split.
    + rewrite random_batch_inputs by (cbn [Common.concurrency]; lia).
      reflexivity.
    + rewrite random_batch_rand by (cbn [Common.concurrency]; lia).
      cbn [Common.iterations].
      rewrite <- (advance_add (n * Extra.draws (seq 0 iterations))
                    (Extra.draws (seq 0 iterations)) (Prng.mulberry32 seed)).
      f_equal. lia.
Qed.

Lemma random_batches_share_one_generator_witness :
  Main.allResults "random" false 2 64 Scenario.options [1; 2]
    (fun _ => Scenario.steady) (fun _ => Scenario.stopwatch)
    (fun _ => Scenario.round_robin) (fun _ => 0%float)
    (fun _ => 1000%float) 1337%float
  = Some (map (fun np =>
                 Extra.batch_from "random" false 2 64 Scenario.options
                   (fun _ => Scenario.steady) (fun _ => Scenario.stopwatch)
                   (fun _ => Scenario.round_robin) (fun _ => 0%float)
                   (fun _ => 1000%float)
                   (fun n => Extra.advance (n * Extra.draws (seq 0 2))
                               (Prng.mulberry32 1337%float))
                   (fst np) (snd np))
              (combine (seq 0 6)
                 (flat_map (fun v => map (pair v) [1; 2]) Main.order))).
Proof.
  apply (@random_batches_share_one_generator false 2 64 Scenario.options
           [1; 2] (fun _ => Scenario.steady) (fun _ => Scenario.stopwatch)
           (fun _ => Scenario.round_robin) (fun _ => 0%float)
           (fun _ => 1000%float) 1337%float).
  repeat constructor.
Defined.

(* ================================================================== *)
(** ** Escaping a table cell *)
(* ================================================================== *)

Lemma mdEscape_escaped (s : string) :
  forall prev, Extra.escaped_after prev (Report.mdEscape s) = true.
Proof.
  induction s as [|c s IH]; intros prev; cbn [Report.mdEscape];
    [reflexivity|].
  destruct (Ascii.eqb c "|") eqn:E; cbn [Extra.escaped_after].
  - change (Ascii.eqb "\" "|") with false.
    change (Ascii.eqb "|" "|") with true.
    change (Ascii.eqb "\" "\") with true. cbv iota. cbn [andb]. apply IH.
  - rewrite E. apply IH.
Qed.

Lemma mdEscape_unescape (s : string) :
  Extra.unescape (Report.mdEscape s) = s.
Proof.
  induction s as [|c s IH]; [reflexivity|]. cbn [Report.mdEscape].
  destruct (Ascii.eqb c "|") eqn:E.
  - apply Ascii.eqb_eq in E. subst c.
    change (Extra.unescape (String "\" (String "|" (Report.mdEscape s))))
      with (Extra.unescape (String "|" (Report.mdEscape s))).
    cbn [Extra.unescape].
    destruct (Report.mdEscape s) as [|d r] eqn:Ed.
    + cbn [Extra.unescape] in IH. now rewrite <- IH.
    + change (Ascii.eqb "|" "\") with false. cbn [andb]. now rewrite IH.
  - cbn [Extra.unescape].
    destruct (Report.mdEscape s) as [|d r] eqn:Ed.
    + cbn [Extra.unescape] in IH. now rewrite <- IH.
    + assert (Hd : Ascii.eqb c "\" && Ascii.eqb d "|" = false).
      { destruct (Ascii.eqb c "\") eqn:Ec; [|reflexivity].
        apply Ascii.eqb_eq in Ec. subst c. cbn [andb].
        destruct s as [|c' s']; [discriminate|].
        cbn [Report.mdEscape] in Ed.
        destruct (Ascii.eqb c' "|") eqn:Ec'.
        - injection Ed as <- _. reflexivity.
        - injection Ed as <- _. exact Ec'. }
      rewrite Hd. now rewrite IH.
Qed.

(** X16: [mdEscape] puts a backslash before every pipe and changes
    nothing else: in its result every pipe follows a backslash, the
    result is longer than the argument by the number of its pipes,
    dropping the backslash before each pipe gives the argument back,
    the escape of a concatenation is the concatenation of the escapes,
    and the three variant names, the only strings the summary escapes,
    are left as they are. *)
Theorem mdEscape_guards_every_pipe (s t : string) (v : Common.variant) :
  Extra.escaped_after false (Report.mdEscape s) = true /\
  String.length (Report.mdEscape s) = String.length s + Extra.pipes s /\
  Extra.unescape (Report.mdEscape s) = s /\
  Report.mdEscape (s ++ t) = (Report.mdEscape s ++ Report.mdEscape t)%string /\
  Report.mdEscape (Common.variant_name v) = Common.variant_name v.
Proof.
  conjuncts.
  - apply mdEscape_escaped.
  - induction s as [|c s IH]; [reflexivity|].
    cbn [Report.mdEscape Extra.pipes String.length].
    destruct (Ascii.eqb c "|"); cbn [String.length]; lia.
  - apply mdEscape_unescape.
  - induction s as [|c s IH]; [reflexivity|].
    cbn [Report.mdEscape String.append].
    destruct (Ascii.eqb c "|"); cbn [String.append]; now rewrite IH.
  - destruct v; reflexivity.
Qed.
